(** * Route optimisation of the Solana arbitrage bot

    A shallow embedding of [src/optimizer.py] (class [ArbitrageOptimizer])
    and of the price report of [src/market_data.py]
    ([MarketDataProvider.get_price_differences]), with the properties of
    the specification stated and settled against it.  The computing parts
    of [src/transactions.py] (fee estimate, program ids),
    [src/anchor_program.py] (execution history) and [src/main.py] (the scan
    and the choice of a cycle) are embedded as well, with properties read
    off the code (X1 to X30).

    Python values are modelled as follows.
    - [Decimal]: the rational number the decimal denotes.  Every arithmetic
      operation returns the exact result rounded to the 28 significant
      digits of the default context, ties to even ([round_ctx]); a division
      by zero raises.  Only finite decimals are modelled.  The rounding
      has no exponent limits; [Decimal.in_range] says that a result is
      within those of the context (10^-999999 to 10^999999), where the
      context rounds as the model does, and the theorems C1 and C2 assume
      it of every operation.
    - [str]: [string], of ASCII characters ([lower] changes the letters A
      to Z only); a [dict] iterated in insertion order: an association
      list; the [dict] of pools per token: a [gmap]; a [set]: a [gset],
      iterated in the order of [elements], which stands for an order that
      Python leaves to the hash seed: the statements on triangular paths
      and routes are on membership, not on order.
    - a raised exception: the [Raise] branch of [result].
    - [float]: the literals 0.1, 0.5 and 0.95 by their binary value, as a
      rational; the float arithmetic of [_calculate_confidence] is not
      modelled, and the searches that store its result take it as a
      parameter ([confidence_value]).
    - network input: the [dict]s the venues return are an argument of the
      functions that read them. *)

From Stdlib Require Import QArith Qround Qabs Qpower Qminmax Lqa ZArith Lia.
From Stdlib Require Import Ascii String Sorted Permutation.
From stdpp Require Import gmap strings list fin_maps pretty.

Local Open Scope Q_scope.

(** [setoid_replace] rewrites rationals up to [==]. *)
#[local] Instance Qeq_default_relation : SetoidTactics.DefaultRelation Qeq := {}.

(** ** Exceptions *)

Inductive exn : Set :=
| DivisionByZero     (* decimal.DivisionByZero: x / 0 with x non-zero *)
| InvalidOperation   (* decimal.InvalidOperation: 0 / 0 *)
| ValueError         (* unpacking a sequence of the wrong length *)
| IndexError.        (* list index out of range *)

Inductive result (A : Type) : Type :=
| Ok (a : A)
| Raise (e : exn).
Arguments Ok {A} a.
Arguments Raise {A} e.

(** The exception monad; stdpp's notation [x ← m; k] sequences two steps
    and stops at the first exception. *)
#[global] Instance result_ret : MRet result := fun A a => Ok a.
#[global] Instance result_bind : MBind result := fun A B k r =>
  match r with
  | Ok a => k a
  | Raise e => Raise e
  end.

(** ** Decimal arithmetic (module [decimal], default context) *)

Module Decimal.

Definition prec : Z := 28.

(** Number of decimal digits of a positive integer. *)
Fixpoint ndigits_aux (fuel : nat) (n : Z) : Z :=
  match fuel with
  | O => 0
  | S fuel' => if (n <? 10)%Z then 1%Z else (1 + ndigits_aux fuel' (n / 10))%Z
  end.

Definition ndigits (n : Z) : Z :=
  ndigits_aux (S (Z.to_nat (Z.log2 n))) n.

(** The adjusted exponent of a non-zero number: the exponent of its
    leading digit, [floor (log10 |x|)]. *)
Definition adjusted (x : Q) : Z :=
  let k := (ndigits (Z.abs (Qnum x)) - ndigits (Zpos (Qden x)))%Z in
  if Qle_bool (10 ^ k) (Qabs x) then k else (k - 1)%Z.

(** Nearest integer, ties to the even one (ROUND_HALF_EVEN). *)
Definition round_half_even (x : Q) : Z :=
  let f := Qfloor x in
  match Qcompare (x - inject_Z f) (1 # 2) with
  | Lt => f
  | Gt => (f + 1)%Z
  | Eq => if Z.even f then f else (f + 1)%Z
  end.

(** Rounding of an exact result to [prec] significant digits. *)
Definition round_ctx (x : Q) : Q :=
  if Qeq_bool x 0 then 0
  else
    let e := (adjusted x - (prec - 1))%Z in
    Qred (inject_Z (round_half_even (x / 10 ^ e)) * 10 ^ e).

Definition add (x y : Q) : Q := round_ctx (x + y).
Definition sub (x y : Q) : Q := round_ctx (x - y).
Definition mul (x y : Q) : Q := round_ctx (x * y).

Definition div (x y : Q) : result Q :=
  if Qeq_bool y 0 then
    if Qeq_bool x 0 then Raise InvalidOperation else Raise DivisionByZero
  else Ok (round_ctx (x / y)).

(** Comparisons are exact. *)
Definition ltb (x y : Q) : bool := negb (Qle_bool y x).
Definition gtb (x y : Q) : bool := ltb y x.

(** [min(a, b)] and [max(a, b)] of Python: the first argument wins a tie. *)
Definition min (a b : Q) : Q := if ltb b a then b else a.
Definition max (a b : Q) : Q := if gtb b a then b else a.

(** Exponent of the last digit [round_ctx] keeps. *)
Definition quantum (x : Q) : Z := (adjusted x - (prec - 1))%Z.

(** [n] is a nearest integer of [x], the even one at a tie. *)
Definition nearest_even (x : Q) (n : Z) : Prop :=
  (x - (1 # 2) < inject_Z n /\ inject_Z n < x + (1 # 2)) \/
  ((inject_Z n == x - (1 # 2) \/ inject_Z n == x + (1 # 2)) /\ Z.even n = true).

(** A number the context represents exactly: at most [prec] digits. *)
Definition representable (x : Q) : Prop :=
  exists c k : Z, (Z.abs c < 10 ^ prec)%Z /\ x == inject_Z c * 10 ^ k.

(** Half a unit in the last place, relative to the number rounded. *)
Definition unit_roundoff : Q := 0.0000000000000000000000000005.

(** The exponent limits of the default context. *)
Definition Emax : Z := 999999.
Definition Emin : Z := -999999.

(** The exact result [x] of an operation is within the limits of the
    context: it is zero, or the exponent of its leading digit is [Emin] or
    more, and [Emax] or less once rounded.  The context then returns
    [round_ctx x], as [add], [sub], [mul] and [div] do.  Above the limits
    the context raises [Overflow]; below, it returns a subnormal number,
    with fewer digits, or zero. *)
Definition in_rangeb (x : Q) : bool :=
  Qeq_bool x 0
  || ((Emin <=? adjusted x)%Z && (adjusted (round_ctx x) <=? Emax)%Z).

Definition in_range (x : Q) : Prop := in_rangeb x = true.

End Decimal.

(** The value of the [float] literals the code compares decimals with.  A
    comparison of a [Decimal] with a [float] is exact, on the binary value
    of the float. *)
Definition float_0_1 : Q := 3602879701896397 # 36028797018963968.

(** ** Strings and lists *)

(** [c in s] for a one-character [c]. *)
Fixpoint contains (c : ascii) (s : string) : bool :=
  match s with
  | EmptyString => false
  | String c' s' => if Ascii.eqb c' c then true else contains c s'
  end.

(** [s.split(c)] for a one-character separator. *)
Fixpoint split (c : ascii) (s : string) : list string :=
  match s with
  | EmptyString => [EmptyString]
  | String c' s' =>
      if Ascii.eqb c' c then EmptyString :: split c s'
      else match split c s' with
           | h :: t => String c' h :: t
           | [] => [String c' EmptyString]
           end
  end.

(** [s.lower()], on ASCII letters. *)
Definition lower_ascii (c : ascii) : ascii :=
  let n := nat_of_ascii c in
  if (65 <=? n)%nat && (n <=? 90)%nat then ascii_of_nat (n + 32) else c.

Fixpoint lower (s : string) : string :=
  match s with
  | EmptyString => EmptyString
  | String c s' => String (lower_ascii c) (lower s')
  end.

(** A loop whose body may raise: the first exception ends it. *)
Fixpoint for_each {A S : Type} (body : S -> A -> result S) (l : list A) (s : S)
  : result S :=
  match l with
  | [] => Ok s
  | x :: l' => s' ← body s x; for_each body l' s'
  end.

(** [sorted(l, key=key)]: the stable sort, ascending. *)
Fixpoint insert_by {A : Type} (key : A -> Q) (x : A) (l : list A) : list A :=
  match l with
  | [] => [x]
  | y :: l' => if Decimal.ltb (key y) (key x) then y :: insert_by key x l'
               else x :: l
  end.

Definition sorted {A : Type} (key : A -> Q) (l : list A) : list A :=
  foldr (insert_by key) [] l.

(** [l.sort(key=key, reverse=True)]: the stable sort, descending; elements
    with equal keys keep their order. *)
Fixpoint insert_by_desc {A : Type} (key : A -> Q) (x : A) (l : list A) : list A :=
  match l with
  | [] => [x]
  | y :: l' => if Decimal.gtb (key y) (key x) then y :: insert_by_desc key x l'
               else x :: l
  end.

Definition sort_reverse {A : Type} (key : A -> Q) (l : list A) : list A :=
  foldr (insert_by_desc key) [] l.

(** ** [market_data.py] *)

Module MarketData.

(** [PriceData]: one quote of one venue. *)
Record PriceData : Type := {
  symbol : string;
  price : Q;
  volume_24h : Q;
  liquidity : Q;
  source : string;
  timestamp : Q
}.

(** The snapshot [get_all_prices] returns: a [dict] from symbol to the
    quotes for it, in insertion order. *)
Definition snapshot : Type := list (string * list PriceData).

(** [all_prices[symbol].append(price_data)], creating the list when the
    symbol is new. *)
Fixpoint append_quote (sym : string) (price_data : PriceData)
  (all_prices : snapshot) : snapshot :=
  match all_prices with
  | [] => [(sym, [price_data])]
  | (s, l) :: rest =>
      if String.eqb s sym then (s, l ++ [price_data]) :: rest
      else (s, l) :: append_quote sym price_data rest
  end.

(** The combining loop of [get_all_prices], over the [dict]s the venues
    returned. *)
Definition get_all_prices (results : list (list (string * PriceData))) : snapshot :=
  foldl (fun all_prices result =>
           foldl (fun acc '(sym, price_data) => append_quote sym price_data acc)
                 all_prices result)
        [] results.

(** One row of the report of [get_price_differences]. *)
Record PriceDifference : Type := {
  diff_symbol : string;
  lowest_price : Q;
  highest_price : Q;
  difference : Q;
  percentage : Q;
  buy_from : string;
  sell_to : string;
  diff_liquidity : Q
}.

(** [(highest.price - lowest.price) / lowest.price * 100] *)
Definition percentage_diff (lowest highest : PriceData) : result Q :=
  let price_diff := Decimal.sub (price highest) (price lowest) in
  ratio ← Decimal.div price_diff (price lowest);
  Ok (Decimal.mul ratio 100).

(** The body of the loop of [get_price_differences] for one symbol. *)
Definition price_difference_step (differences : list PriceDifference)
  (item : string * list PriceData) : result (list PriceDifference) :=
  let '(sym, price_list) := item in
  if (2 <=? length price_list)%nat then
    let sorted_prices := sorted price price_list in
    match head sorted_prices, last sorted_prices with
    | Some lowest, Some highest =>
        let price_diff := Decimal.sub (price highest) (price lowest) in
        pct ← percentage_diff lowest highest;
        if Decimal.gtb pct float_0_1 then
          Ok (differences ++
              [{| diff_symbol := sym;
                  lowest_price := price lowest;
                  highest_price := price highest;
                  difference := price_diff;
                  percentage := pct;
                  buy_from := source lowest;
                  sell_to := source highest;
                  diff_liquidity := Decimal.min (liquidity lowest) (liquidity highest) |}])
        else Ok differences
    | _, _ => Raise IndexError
    end
  else Ok differences.

(** [get_price_differences], on the snapshot [get_all_prices] returned. *)
Definition get_price_differences (all_prices : snapshot)
  : result (list PriceDifference) :=
  differences ← for_each price_difference_step all_prices [];
  Ok (sort_reverse percentage differences).

End MarketData.

(** ** [optimizer.py] *)

Module Optimizer.

Import MarketData.

(** [PoolInfo]: a liquidity pool. *)
Record PoolInfo : Type := {
  dex : string;
  token_a : string;
  token_b : string;
  reserve_a : Q;
  reserve_b : Q;
  fee : Q;
  liquidity : Q
}.

(** The attributes of an [ArbitrageOptimizer]. *)
Record ArbitrageOptimizer : Type := {
  min_profit_threshold : Q;
  max_slippage : Q;
  gas_price_estimate : Q
}.

Definition __init__ : ArbitrageOptimizer :=
  {| min_profit_threshold := 10.0;
     max_slippage := 0.02;
     gas_price_estimate := 0.01 |}.

(** The body of the loops of [_convert_to_pools] for one quote. *)
Definition convert_quote (sym : string) (pools : list PoolInfo)
  (price_data : PriceData) : result (list PoolInfo) :=
  if contains "/" sym then
    match split "/" sym with
    | [tok_a; tok_b] =>
        let total_liquidity := MarketData.liquidity price_data in
        let price := MarketData.price price_data in
        reserve_a ← Decimal.div total_liquidity (Decimal.mul 2 price);
        reserve_b ← Decimal.div total_liquidity 2;
        Ok (pools ++
            [{| dex := lower (source price_data);
                token_a := tok_a;
                token_b := tok_b;
                reserve_a := reserve_a;
                reserve_b := reserve_b;
                fee := 0.003;
                liquidity := total_liquidity |}])
    | _ => Raise ValueError
    end
  else Ok pools.

Definition _convert_to_pools (market_data : snapshot) : result (list PoolInfo) :=
  for_each (fun pools '(sym, price_list) =>
              for_each (convert_quote sym) price_list pools)
           market_data [].

(** The grouping loop of [_find_triangular_arbitrage]: every pool is
    filed under both its tokens. *)
Definition file_pool (token : string) (pool : PoolInfo)
  (token_pools : gmap string (list PoolInfo)) : gmap string (list PoolInfo) :=
  <[token := default [] (token_pools !! token) ++ [pool]]> token_pools.

Definition group_by_token (pools : list PoolInfo) : gmap string (list PoolInfo) :=
  foldl (fun token_pools pool =>
           file_pool (token_b pool) pool (file_pool (token_a pool) pool token_pools))
        ∅ pools.

Definition _path_exists (tok_a tok_b : string)
  (token_pools : gmap string (list PoolInfo)) : bool :=
  existsb (fun pool =>
             (String.eqb (token_a pool) tok_a && String.eqb (token_b pool) tok_b)
             || (String.eqb (token_a pool) tok_b && String.eqb (token_b pool) tok_a))
          (default [] (token_pools !! tok_a)).

(** The set [connected_tokens] of [_find_triangular_paths]. *)
Definition connected_tokens (base_token : string)
  (token_pools : gmap string (list PoolInfo)) : gset string :=
  foldl (fun connected pool =>
           let other_token :=
             if String.eqb (token_a pool) base_token then token_b pool
             else token_a pool in
           connected ∪ {[ other_token ]})
        ∅ (default [] (token_pools !! base_token)).

Definition _find_triangular_paths (base_token : string)
  (token_pools : gmap string (list PoolInfo)) : list (list string) :=
  let connected := elements (connected_tokens base_token token_pools) in
  token1 ← connected;
  token2 ← connected;
  if negb (String.eqb token1 token2)
     && _path_exists token1 token2 token_pools
     && _path_exists token2 base_token token_pools
  then [[base_token; token1; token2; base_token]]
  else [].

(** The body of the loop of [_find_best_pool]; the state is
    [(best_pool, best_rate)]. *)
Definition best_pool_step (from_token to_token : string)
  (best : option PoolInfo * Q) (pool : PoolInfo) : result (option PoolInfo * Q) :=
  if (String.eqb (token_a pool) from_token && String.eqb (token_b pool) to_token)
     || (String.eqb (token_a pool) to_token && String.eqb (token_b pool) from_token)
  then
    rate ← (if String.eqb (token_a pool) from_token
            then Decimal.div (reserve_b pool) (reserve_a pool)
            else Decimal.div (reserve_a pool) (reserve_b pool));
    if Decimal.gtb rate (snd best) then Ok (Some pool, rate) else Ok best
  else Ok best.

Definition _find_best_pool (from_token to_token : string) (pools : list PoolInfo)
  : result (option PoolInfo) :=
  best ← for_each (best_pool_step from_token to_token) pools (None, 0);
  Ok (fst best).

Definition _calculate_swap_output (input_amount : Q) (pool : PoolInfo)
  (a_to_b : bool) : result Q :=
  let input_reserve := if a_to_b then reserve_a pool else reserve_b pool in
  let output_reserve := if a_to_b then reserve_b pool else reserve_a pool in
  let input_amount_with_fee :=
    Decimal.mul input_amount (Decimal.sub 1 (fee pool)) in
  let numerator := Decimal.mul input_amount_with_fee output_reserve in
  let denominator := Decimal.add input_reserve input_amount_with_fee in
  Decimal.div numerator denominator.

Definition _calculate_optimal_direct_amount (low_price_data high_price_data : PriceData)
  : result Q :=
  max_amount_low ←
    Decimal.div (MarketData.liquidity low_price_data)
                (Decimal.mul 4 (price low_price_data));
  max_amount_high ←
    Decimal.div (MarketData.liquidity high_price_data)
                (Decimal.mul 4 (price high_price_data));
  let optimal_amount := Decimal.min max_amount_low max_amount_high in
  Ok (Decimal.max optimal_amount 100).

(** The inner loop of [_analyze_triangular_profit], over the hops of the
    path; the state is [(current_amount, gas_cost)].  A hop without a pool
    sets [current_amount] to zero and leaves the loop. *)
Fixpoint simulate_hops (self : ArbitrageOptimizer) (path : list string)
  (pools : list PoolInfo) (current_amount gas_cost : Q) : result (Q * Q) :=
  match path with
  | from_token :: ((to_token :: _) as rest) =>
      best_pool ← _find_best_pool from_token to_token pools;
      match best_pool with
      | None => Ok (0, gas_cost)
      | Some best_pool =>
          output_amount ←
            _calculate_swap_output current_amount best_pool
              (String.eqb from_token (token_a best_pool));
          simulate_hops self rest pools output_amount
            (Decimal.add gas_cost (gas_price_estimate self))
      end
  | _ => Ok (current_amount, gas_cost)
  end.

(** [net_profit] of one candidate amount. *)
Definition candidate_net_profit (self : ArbitrageOptimizer) (path : list string)
  (pools : list PoolInfo) (amount : Q) : result Q :=
  '(current_amount, gas_cost) ← simulate_hops self path pools amount 0;
  Ok (Decimal.sub (Decimal.sub current_amount amount) gas_cost).

Definition test_amounts : list Q := [100; 1000; 10000; 100000].

(** The body of the loop over [test_amounts]; the state is
    [(best_profit, best_amount)]. *)
Definition sweep_step (self : ArbitrageOptimizer) (path : list string)
  (pools : list PoolInfo) (best : Q * Q) (amount : Q) : result (Q * Q) :=
  net_profit ← candidate_net_profit self path pools amount;
  if Decimal.gtb net_profit (fst best) then Ok (net_profit, amount) else Ok best.

(** [_calculate_confidence] returns a [float]; no property below depends on
    its value, so only its pool lookups, which can raise, are kept. *)
Fixpoint _calculate_confidence (path : list string) (pools : list PoolInfo)
  : result unit :=
  match path with
  | from_token :: ((to_token :: _) as rest) =>
      _ ← _find_best_pool from_token to_token pools;
      _calculate_confidence rest pools
  | _ => Ok tt
  end.

(** The [dict] [_analyze_triangular_profit] returns, without its
    [confidence]. *)
Record ProfitAnalysis : Type := {
  optimal_amount : Q;
  gross_profit : Q;
  net_profit : Q;
  gas_cost : Q
}.

Definition _analyze_triangular_profit (self : ArbitrageOptimizer)
  (path : list string) (pools : list PoolInfo) : result ProfitAnalysis :=
  '(best_profit, best_amount) ←
    for_each (sweep_step self path pools) test_amounts (0, 1000);
  _ ← _calculate_confidence path pools;
  let hops := inject_Z (Z.of_nat (length path) - 1) in
  Ok {| optimal_amount := best_amount;
        gross_profit :=
          Decimal.add best_profit (Decimal.mul hops (gas_price_estimate self));
        net_profit := best_profit;
        gas_cost := Decimal.mul hops (gas_price_estimate self) |}.

(** A route: the [dict] the search functions build. *)
Inductive route_type : Set := direct | triangular.

Record Route : Type := {
  pair : string;
  amount : Q;
  profit : Q;
  confidence : Q;
  path : list string;
  gas_estimate : Q;
  type : route_type
}.

Definition _filter_profitable_routes (self : ArbitrageOptimizer)
  (routes : list Route) : list Route :=
  let profitable :=
    filter (fun r => Decimal.gtb (profit r) (min_profit_threshold self) = true)
           routes in
  take 10 (sort_reverse profit profitable).

(** The value of the [float] literals [0.5] and [0.95]. *)
Definition float_0_5 : Q := 1 # 2.
Definition float_0_95 : Q := 4278419646001971 # 4503599627370496.

(** The body of the loop of [_find_direct_arbitrage] for one symbol.  The
    [confidence] of the route is [min(0.95, percentage_diff / 10)], the
    float when it is not above the decimal. *)
Definition direct_arbitrage_step (self : ArbitrageOptimizer) (routes : list Route)
  (item : string * list PriceData) : result (list Route) :=
  let '(sym, price_list) := item in
  if (length price_list <? 2)%nat then Ok routes
  else
    let sorted_prices := sorted price price_list in
    match head sorted_prices, last sorted_prices with
    | Some lowest, Some highest =>
        let price_diff := Decimal.sub (price highest) (price lowest) in
        pct ← percentage_diff lowest highest;
        if Decimal.gtb pct float_0_5 then
          optimal_amount ← _calculate_optimal_direct_amount lowest highest;
          if Decimal.gtb optimal_amount 0 then
            let gross_profit := Decimal.mul optimal_amount price_diff in
            let gas_cost := Decimal.mul 2 (gas_price_estimate self) in
            let net_profit := Decimal.sub gross_profit gas_cost in
            if Decimal.gtb net_profit (min_profit_threshold self) then
              tenth ← Decimal.div pct 10;
              Ok (routes ++
                  [{| pair := sym;
                      amount := optimal_amount;
                      profit := net_profit;
                      confidence := Decimal.min float_0_95 tenth;
                      path := [source lowest; source highest];
                      gas_estimate := gas_cost;
                      type := direct |}])
            else Ok routes
          else Ok routes
        else Ok routes
    | _, _ => Raise IndexError
    end.

Definition _find_direct_arbitrage (self : ArbitrageOptimizer)
  (market_data : snapshot) : result (list Route) :=
  for_each (direct_arbitrage_step self) market_data [].

Definition _calculate_single_swap_slippage (self : ArbitrageOptimizer)
  (amount : Q) (pool : PoolInfo) : result Q :=
  liquidity_ratio ← Decimal.div amount (liquidity pool);
  let slippage := Decimal.mul liquidity_ratio 0.1 in
  Ok (Decimal.min slippage (max_slippage self)).

(** The loop of [calculate_slippage_impact] over the hops of the path; the
    state is [total_slippage].  A hop without a pool adds nothing. *)
Fixpoint slippage_hops (self : ArbitrageOptimizer) (path : list string)
  (pools : list PoolInfo) (amount total_slippage : Q) : result Q :=
  match path with
  | from_token :: ((to_token :: _) as rest) =>
      pool ← _find_best_pool from_token to_token pools;
      match pool with
      | Some pool =>
          slippage ← _calculate_single_swap_slippage self amount pool;
          slippage_hops self rest pools amount (Decimal.add total_slippage slippage)
      | None => slippage_hops self rest pools amount total_slippage
      end
  | _ => Ok total_slippage
  end.

Definition calculate_slippage_impact (self : ArbitrageOptimizer) (route : Route)
  (pools : list PoolInfo) : result Q :=
  match type route with
  | triangular => slippage_hops self (path route) pools (amount route) 0
  | direct => Ok 0
  end.

Definition base_tokens : list string := ["SOL"; "USDC"; "USDT"].

(** The searches below store the [float] of [_calculate_confidence] in the
    routes they build.  Its value is left open: [confidence_value] stands
    for it, a function of the arguments of [_calculate_confidence]. *)
Section Confidence.

Variable confidence_value : list string -> list PoolInfo -> Q -> Q.

(** The body of the inner loop of [_find_triangular_arbitrage], for one
    path from a base token. *)
Definition triangular_path_step (self : ArbitrageOptimizer) (pools : list PoolInfo)
  (base_token : string) (routes : list Route) (path : list string)
  : result (list Route) :=
  profit_analysis ← _analyze_triangular_profit self path pools;
  if Decimal.gtb (net_profit profit_analysis) (min_profit_threshold self) then
    Ok (routes ++
        [{| pair := base_token +:+ "_TRIANGULAR";
            amount := optimal_amount profit_analysis;
            profit := net_profit profit_analysis;
            confidence :=
              confidence_value path pools (optimal_amount profit_analysis);
            path := path;
            gas_estimate := gas_cost profit_analysis;
            type := triangular |}])
  else Ok routes.

(** The body of its outer loop, for one base token. *)
Definition base_token_step (self : ArbitrageOptimizer) (pools : list PoolInfo)
  (token_pools : gmap string (list PoolInfo)) (routes : list Route)
  (base_token : string) : result (list Route) :=
  match token_pools !! base_token with
  | None => Ok routes
  | Some _ =>
      for_each (triangular_path_step self pools base_token)
               (_find_triangular_paths base_token token_pools) routes
  end.

Definition _find_triangular_arbitrage (self : ArbitrageOptimizer)
  (pools : list PoolInfo) : result (list Route) :=
  let token_pools := group_by_token pools in
  for_each (base_token_step self pools token_pools) base_tokens [].

Definition find_profitable_routes (self : ArbitrageOptimizer)
  (market_data : snapshot) : result (list Route) :=
  pools ← _convert_to_pools market_data;
  triangular_routes ← _find_triangular_arbitrage self pools;
  let profitable_routes := [] ++ triangular_routes in
  direct_routes ← _find_direct_arbitrage self market_data;
  let profitable_routes := profitable_routes ++ direct_routes in
  Ok (_filter_profitable_routes self profitable_routes).

End Confidence.

End Optimizer.

(** ** [transactions.py] *)

Module Transactions.

(** The [dict]s [program_ids] of the two lookups. *)
Definition lending_program_ids : gmap string string :=
  {[ "solend" := "So1endDq2YkqhipRh3WViPa8hdiSpxWy6z3Z6tMCpAo";
     "mango" := "mv3ekLzLbnVPNxjSKvqBpU3ZeZXPQdEC3bp5MDEBG68";
     "port" := "Port7uDYB3wk6GJAw4KT1WpTeMtSu9bTcChBHkX2LfR" ]}.

Definition dex_program_ids : gmap string string :=
  {[ "raydium" := "675kPX9MHTjS2zt1qfr1NYHuzeLXfQM9H24wFSUt1Mp8";
     "orca" := "9W959DqEETiGZocYWCQPaJ6sBmUzgfxXfqGeTEdp3aQP";
     "serum" := "9xQeWvG816bUx9EPjHmaT23yvVM2ZWbrrpZb9PusVFin" ]}.

(** [program_ids.get(protocol, program_ids['solend'])] *)
Definition _get_lending_program_id (protocol : string) : string :=
  default (lending_program_ids !!! "solend") (lending_program_ids !! protocol).

Definition _get_dex_program_id (dex : string) : string :=
  default (dex_program_ids !!! "raydium") (dex_program_ids !! dex).

(** The estimate depends on the number of instructions only. *)
Definition get_transaction_fee_estimate {A : Type} (instructions : list A) : Q :=
  let base_fee := 0.000005 in
  let instruction_fee :=
    Decimal.mul 0.000001 (inject_Z (Z.of_nat (length instructions))) in
  Decimal.add base_fee instruction_fee.

End Transactions.

(** ** [anchor_program.py] *)

Module AnchorProgram.

(** One entry of the execution history. *)
Record Execution : Type := {
  timestamp : Z;
  amount : Q;
  profit : Q;
  route : list string;
  transaction_signature : string;
  success : bool
}.

(** The entry the loop of [get_execution_history] appends at index [i]. *)
Definition execution (i : Z) : Execution :=
  {| timestamp := 1640995200 + i * 300;
     amount := inject_Z (1000 + i * 100);
     profit := inject_Z (50 + i * 10);
     route := ["raydium"; "orca"];
     transaction_signature :=
       "5J7X8K9L" +:+ pretty i +:+ "M2N3P4Q5R6S7T8U9V0W1X2Y3Z4A5B6C7D8E9F";
     success := true |}.

(** [range(min(limit, 5))] is empty when [limit] is not positive. *)
Definition get_execution_history (limit : Z) : list Execution :=
  execution <$> seqZ 0 (Z.min limit 5).

End AnchorProgram.

(** ** [main.py] *)

Module Main.

Record ArbitrageOpportunity : Type := {
  token_pair : string;
  borrow_amount : Q;
  expected_profit : Q;
  confidence : Q;
  route : list string;
  estimated_gas : Q
}.

(** The bot, by the one component the cycle computes with. *)
Record ArbBot : Type := {
  optimizer : Optimizer.ArbitrageOptimizer
}.

Section Confidence.

Variable confidence_value : list string -> list Optimizer.PoolInfo -> Q -> Q.

(** The opportunity [scan_opportunities] builds from a route. *)
Definition opportunity_of (r : Optimizer.Route) : ArbitrageOpportunity :=
  {| token_pair := Optimizer.pair r;
     borrow_amount := Optimizer.amount r;
     expected_profit := Optimizer.profit r;
     confidence := Optimizer.confidence r;
     route := Optimizer.path r;
     estimated_gas := Optimizer.gas_estimate r |}.

(** [scan_opportunities], on the [dict]s the venues returned. *)
Definition scan_opportunities (self : ArbBot)
  (results : list (list (string * MarketData.PriceData)))
  : result (list ArbitrageOpportunity) :=
  let market_data := MarketData.get_all_prices results in
  match Optimizer.find_profitable_routes confidence_value (optimizer self)
          market_data with
  | Ok profitable_routes => Ok (opportunity_of <$> profitable_routes)
  | Raise e => Raise e
  end.

(** [run_cycle], by the opportunity it hands to [execute_arbitrage]:
    none when the scan finds nothing, and none when the scan raises, as
    the cycle catches every exception. *)
Definition run_cycle (self : ArbBot)
  (results : list (list (string * MarketData.PriceData)))
  : option ArbitrageOpportunity :=
  match scan_opportunities self results with
  | Ok opportunities =>
      match opportunities with
      | [] => None
      | _ => head (sort_reverse expected_profit opportunities)
      end
  | Raise _ => None
  end.

End Confidence.

End Main.

(** ** Vocabulary of the properties *)

(** Descending order of a key. *)
Definition descending_by {A : Type} (key : A -> Q) (x y : A) : Prop :=
  key y <= key x.

(** A quote with the given symbol, price, liquidity and venue. *)
Definition quote (sym : string) (price liquidity : Q) (source : string)
  : MarketData.PriceData :=
  {| MarketData.symbol := sym;
     MarketData.price := price;
     MarketData.volume_24h := 1000000;
     MarketData.liquidity := liquidity;
     MarketData.source := source;
     MarketData.timestamp := 0 |}.

(** The share of a venue's liquidity a direct route may use, as
    [_calculate_optimal_direct_amount] computes it:
    [liquidity / (4 * price)] in decimal arithmetic. *)
Definition max_amount (price_data : MarketData.PriceData) : Q :=
  Decimal.round_ctx
    (MarketData.liquidity price_data
     / Decimal.round_ctx (4 * MarketData.price price_data)).

(** The quotes [_convert_to_pools] builds a pool from, each with its
    symbol, in the order of its loops: those whose symbol contains the
    separator. *)
Definition quotes_to_convert (market_data : MarketData.snapshot)
  : list (string * MarketData.PriceData) :=
  '(sym, price_list) ← market_data;
  if contains "/" sym then (fun price_data => (sym, price_data)) <$> price_list
  else [].

(** [pool] is the synthetic pool of a quote and its symbol. *)
Definition pool_of (item : string * MarketData.PriceData)
  (pool : Optimizer.PoolInfo) : Prop :=
  split "/" item.1 = [Optimizer.token_a pool; Optimizer.token_b pool] /\
  Optimizer.dex pool = lower (MarketData.source item.2) /\
  Decimal.div (MarketData.liquidity item.2)
              (Decimal.mul 2 (MarketData.price item.2))
    = Ok (Optimizer.reserve_a pool) /\
  Decimal.div (MarketData.liquidity item.2) 2 = Ok (Optimizer.reserve_b pool) /\
  Optimizer.fee pool = 0.003 /\
  Optimizer.liquidity pool = MarketData.liquidity item.2.

(** The body of the loops of [_convert_to_pools], on a quote paired with
    its symbol. *)
Definition convert_item (pools : list Optimizer.PoolInfo)
  (item : string * MarketData.PriceData) : result (list Optimizer.PoolInfo) :=
  Optimizer.convert_quote item.1 pools item.2.

(** The reserves of the pool of a quote: [liquidity / 2] and
    [liquidity / (2 * price)], in decimal arithmetic. *)
Definition derived_reserves (price_data : MarketData.PriceData)
  (pool : Optimizer.PoolInfo) : Prop :=
  Optimizer.reserve_b pool
    = Decimal.round_ctx (MarketData.liquidity price_data / 2) /\
  Optimizer.reserve_a pool
    = Decimal.round_ctx
        (MarketData.liquidity price_data
         / Decimal.round_ctx (2 * MarketData.price price_data)).

(** A symbol with exactly one separator. *)
Definition two_tokens (sym : string) : Prop :=
  exists tok_a tok_b, split "/" sym = [tok_a; tok_b].

(** The snapshot holds the quote under the symbol. *)
Definition has_quote (all_prices : MarketData.snapshot) (sym : string)
  (price_data : MarketData.PriceData) : Prop :=
  exists price_list, (sym, price_list) ∈ all_prices /\ price_data ∈ price_list.

(** The pool trades the two tokens, in either order. *)
Definition connects (pool : Optimizer.PoolInfo) (tok1 tok2 : string) : Prop :=
  (Optimizer.token_a pool = tok1 /\ Optimizer.token_b pool = tok2) \/
  (Optimizer.token_a pool = tok2 /\ Optimizer.token_b pool = tok1).

(** The pool set has a pool connecting the two tokens. *)
Definition connected (pools : list Optimizer.PoolInfo) (tok1 tok2 : string) : Prop :=
  exists pool, pool ∈ pools /\ connects pool tok1 tok2.

(** The shape of a triangular path over a pool set. *)
Definition triangular_path (pools : list Optimizer.PoolInfo) (base_token : string)
  (path : list string) : Prop :=
  exists token1 token2,
    path = [base_token; token1; token2; base_token] /\
    token1 <> token2 /\
    connected pools base_token token1 /\
    connected pools token1 token2 /\
    connected pools token2 base_token.

(** The hops of a path: its pairs of consecutive tokens. *)
Fixpoint hops (path : list string) : list (string * string) :=
  match path with
  | from_token :: ((to_token :: _) as rest) => (from_token, to_token) :: hops rest
  | _ => []
  end.

(** The hop has a tradable pool: [_find_best_pool] returns one. *)
Definition tradable (pools : list Optimizer.PoolInfo) (hop : string * string)
  : Prop :=
  exists pool, Optimizer._find_best_pool hop.1 hop.2 pools = Ok (Some pool).

(** The hop has none: [_find_best_pool] returns [None]. *)
Definition no_pool (pools : list Optimizer.PoolInfo) (hop : string * string)
  : Prop :=
  Optimizer._find_best_pool hop.1 hop.2 pools = Ok None.

(** [gas_cost] after [n] hops: [n] additions of the hop cost. *)
Definition gas_after (self : Optimizer.ArbitrageOptimizer) (n : nat) (gas_cost : Q)
  : Q :=
  Nat.iter n (fun g => Decimal.add g (Optimizer.gas_price_estimate self)) gas_cost.

(** The hop cost can be added up to [n] times without rounding. *)
Definition exact_hop_costs (self : Optimizer.ArbitrageOptimizer) (n : nat) : Prop :=
  forall j : nat, (j <= n)%nat ->
    Decimal.representable
      (inject_Z (Z.of_nat j) * Optimizer.gas_price_estimate self).

(** The update of [(best_profit, best_amount)] by a candidate
    [(amount, net_profit)], and the sweep from the initial [(0, 1000)]. *)
Definition keep_best (best cand : Q * Q) : Q * Q :=
  if Decimal.gtb cand.2 best.1 then (cand.2, cand.1) else best.

Definition sweep_result (cands : list (Q * Q)) : Q * Q :=
  foldl keep_best (0, 1000) cands.

(** Example data: the pools of three quotes, and a triangular path over
    them. *)
Definition example_quotes : MarketData.snapshot :=
  [("SOL/USDC", [quote "SOL/USDC" 89.50 8000000 "Orca"]);
   ("RAY/SOL", [quote "RAY/SOL" 0.0045 1200000 "Orca"]);
   ("RAY/USDC", [quote "RAY/USDC" 0.41 500000 "Raydium"])].

Definition example_pools : list Optimizer.PoolInfo :=
  match Optimizer._convert_to_pools example_quotes with
  | Ok pools => pools
  | Raise _ => []
  end.

Definition example_path : list string := ["SOL"; "USDC"; "RAY"; "SOL"].

(** The lowest-priced and the highest-priced quote of a list, as
    [get_price_differences] picks them, and their percentage delta. *)
Definition lowest (price_list : list MarketData.PriceData)
  : option MarketData.PriceData :=
  head (sorted MarketData.price price_list).

Definition highest (price_list : list MarketData.PriceData)
  : option MarketData.PriceData :=
  last (sorted MarketData.price price_list).

Definition percentage_delta (price_list : list MarketData.PriceData) : result Q :=
  match lowest price_list, highest price_list with
  | Some lo, Some hi => MarketData.percentage_diff lo hi
  | _, _ => Raise IndexError
  end.

(** The row of the report for a symbol and its quotes. *)
Definition row_of (item : string * list MarketData.PriceData)
  (row : MarketData.PriceDifference) : Prop :=
  (2 <= length item.2)%nat /\
  MarketData.diff_symbol row = item.1 /\
  percentage_delta item.2 = Ok (MarketData.percentage row) /\
  float_0_1 < MarketData.percentage row.

(** The symbol is reported, with the percentage. *)
Definition reported (report : list MarketData.PriceDifference) (sym : string)
  (pct : Q) : Prop :=
  exists row,
    row ∈ report /\ MarketData.diff_symbol row = sym /\
    MarketData.percentage row = pct.

(** The reserves of a pool in the direction of a swap. *)
Definition input_reserve (pool : Optimizer.PoolInfo) (a_to_b : bool) : Q :=
  if a_to_b then Optimizer.reserve_a pool else Optimizer.reserve_b pool.

Definition output_reserve (pool : Optimizer.PoolInfo) (a_to_b : bool) : Q :=
  if a_to_b then Optimizer.reserve_b pool else Optimizer.reserve_a pool.

(** The output formula of the specification, in exact arithmetic:
    [(input * (1 - fee) * reserve_out) / (reserve_in + input * (1 - fee))]. *)
Definition swap_output_exact (input reserve_in reserve_out fee_rate : Q) : Q :=
  (input * (1 - fee_rate) * reserve_out) / (reserve_in + input * (1 - fee_rate)).

(** The relative distance of the computed output from the exact one: five
    roundings. *)
Definition swap_tolerance : Q := 0.000000000000000000000000003.

(** A pool with the given reserves and fee. *)
Definition pool_with (reserve_a reserve_b fee : Q) : Optimizer.PoolInfo :=
  {| Optimizer.dex := "orca";
     Optimizer.token_a := "SOL";
     Optimizer.token_b := "USDC";
     Optimizer.reserve_a := reserve_a;
     Optimizer.reserve_b := reserve_b;
     Optimizer.fee := fee;
     Optimizer.liquidity := Decimal.mul 2 reserve_b |}.

(** The five operations of [_calculate_swap_output] stay within the
    exponent limits of the context: none overflows, none underflows. *)
Definition swap_in_range (input_amount : Q) (pool : Optimizer.PoolInfo)
  (a_to_b : bool) : Prop :=
  let reserve_in := input_reserve pool a_to_b in
  let reserve_out := output_reserve pool a_to_b in
  let keep := Decimal.sub 1 (Optimizer.fee pool) in
  let with_fee := Decimal.mul input_amount keep in
  let numerator := Decimal.mul with_fee reserve_out in
  let denominator := Decimal.add reserve_in with_fee in
  Decimal.in_range (1 - Optimizer.fee pool) /\
  Decimal.in_range (input_amount * keep) /\
  Decimal.in_range (with_fee * reserve_out) /\
  Decimal.in_range (reserve_in + with_fee) /\
  Decimal.in_range (numerator / denominator).

(** The three operations [_convert_to_pools] runs on a quote stay within
    the exponent limits of the context. *)
Definition reserves_in_range (price_data : MarketData.PriceData) : Prop :=
  let total_liquidity := MarketData.liquidity price_data in
  let price := MarketData.price price_data in
  Decimal.in_range (2 * price) /\
  Decimal.in_range (total_liquidity / Decimal.mul 2 price) /\
  Decimal.in_range (total_liquidity / 2).

(** A pool with positive reserves and a fee rate in [0, 1). *)
Definition well_formed (pool : Optimizer.PoolInfo) : Prop :=
  0 < Optimizer.reserve_a pool /\ 0 < Optimizer.reserve_b pool /\
  0 <= Optimizer.fee pool /\ Optimizer.fee pool < 1.

(** [all_prices.get(sym, [])]: the quotes the snapshot holds under a
    symbol. *)
Fixpoint quotes_under (sym : string) (all_prices : MarketData.snapshot)
  : list MarketData.PriceData :=
  match all_prices with
  | [] => []
  | (s, l) :: rest => if String.eqb s sym then l else quotes_under sym rest
  end.

(** The quotes one venue, and all venues in turn, returned for a symbol. *)
Definition venue_quotes (sym : string)
  (result : list (string * MarketData.PriceData)) : list MarketData.PriceData :=
  '(s, q) ← result; if String.eqb s sym then [q] else [].

Definition quotes_for (sym : string)
  (results : list (list (string * MarketData.PriceData)))
  : list MarketData.PriceData :=
  result ← results; venue_quotes sym result.

(** The result of a venue is a [dict]: no symbol occurs twice. *)
Definition venue_dict (result : list (string * MarketData.PriceData)) : Prop :=
  NoDup result.*1.

(** The snapshot is a [dict] with a quote under every key: no symbol
    occurs twice, and no list is empty. *)
Definition snapshot_ok (all_prices : MarketData.snapshot) : Prop :=
  NoDup all_prices.*1 /\ Forall (fun item => item.2 <> []) all_prices.

(** The exchange rate [_find_best_pool] computes for a pool, from the side
    of [from_token]. *)
Definition pool_rate (from_token : string) (pool : Optimizer.PoolInfo) : result Q :=
  if String.eqb (Optimizer.token_a pool) from_token
  then Decimal.div (Optimizer.reserve_b pool) (Optimizer.reserve_a pool)
  else Decimal.div (Optimizer.reserve_a pool) (Optimizer.reserve_b pool).

(** The pool connects the tokens, with a rate below, or not above, [r]. *)
Definition rate_below (from_token to_token : string) (r : Q)
  (pool : Optimizer.PoolInfo) : Prop :=
  connects pool from_token to_token ->
  exists r', pool_rate from_token pool = Ok r' /\ r' < r.

Definition rate_not_above (from_token to_token : string) (r : Q)
  (pool : Optimizer.PoolInfo) : Prop :=
  connects pool from_token to_token ->
  exists r', pool_rate from_token pool = Ok r' /\ r' <= r.

(** Ascending order of a key. *)
Definition ascending_by {A : Type} (key : A -> Q) (x y : A) : Prop :=
  key x <= key y.

(** The route [_find_direct_arbitrage] builds for a symbol from its lowest
    and its highest quote, their percentage delta and the trade amount. *)
Definition direct_route (self : Optimizer.ArbitrageOptimizer) (sym : string)
  (lo hi : MarketData.PriceData) (pct amt : Q) : Optimizer.Route :=
  let gas_cost := Decimal.mul 2 (Optimizer.gas_price_estimate self) in
  {| Optimizer.pair := sym;
     Optimizer.amount := amt;
     Optimizer.profit :=
       Decimal.sub
         (Decimal.mul amt (Decimal.sub (MarketData.price hi) (MarketData.price lo)))
         gas_cost;
     Optimizer.confidence :=
       Decimal.min Optimizer.float_0_95 (Decimal.round_ctx (pct / 10));
     Optimizer.path := [MarketData.source lo; MarketData.source hi];
     Optimizer.gas_estimate := gas_cost;
     Optimizer.type := Optimizer.direct |}.

(** [r] is the direct route of a symbol and its quotes: the symbol has two
    quotes or more, a percentage delta above 0.5, and a net profit above
    the threshold. *)
Definition direct_route_of (self : Optimizer.ArbitrageOptimizer)
  (item : string * list MarketData.PriceData) (r : Optimizer.Route) : Prop :=
  exists lo hi pct amt,
    (2 <= length item.2)%nat /\
    lowest item.2 = Some lo /\ highest item.2 = Some hi /\
    MarketData.percentage_diff lo hi = Ok pct /\
    Optimizer.float_0_5 < pct /\
    Optimizer._calculate_optimal_direct_amount lo hi = Ok amt /\
    r = direct_route self item.1 lo hi pct amt /\
    Optimizer.min_profit_threshold self < Optimizer.profit r.

(** What a direct route says of the snapshot: its pair is a symbol whose
    cheapest quote has a positive price below that of the dearest, and its
    path names the venues of the two, the cheapest first. *)
Definition buys_low_sells_high (market_data : MarketData.snapshot)
  (r : Optimizer.Route) : Prop :=
  exists price_list lo hi,
    (Optimizer.pair r, price_list) ∈ market_data /\
    lowest price_list = Some lo /\ highest price_list = Some hi /\
    Forall (fun q => MarketData.price lo <= MarketData.price q
                     /\ MarketData.price q <= MarketData.price hi) price_list /\
    0 < MarketData.price lo /\ MarketData.price lo < MarketData.price hi /\
    Optimizer.path r = [MarketData.source lo; MarketData.source hi].

(** A snapshot with one symbol quoted by two venues at different prices. *)
Definition example_spread : MarketData.snapshot :=
  [("SOL/USDC", [quote "SOL/USDC" 89.50 8000000 "Orca";
                 quote "SOL/USDC" 91 5000000 "Raydium"]);
   ("RAY/SOL", [quote "RAY/SOL" 0.0045 1200000 "Orca"])].

(** The symbol has two quotes or more, and its lowest price is zero. *)
Definition zero_lowest (item : string * list MarketData.PriceData) : Prop :=
  (2 <= length item.2)%nat /\
  exists lo, lowest item.2 = Some lo /\ MarketData.price lo == 0.

(** The row [get_price_differences] builds for a symbol from its lowest and
    its highest quote and their percentage delta. *)
Definition difference_row (sym : string) (lo hi : MarketData.PriceData) (pct : Q)
  : MarketData.PriceDifference :=
  {| MarketData.diff_symbol := sym;
     MarketData.lowest_price := MarketData.price lo;
     MarketData.highest_price := MarketData.price hi;
     MarketData.difference :=
       Decimal.sub (MarketData.price hi) (MarketData.price lo);
     MarketData.percentage := pct;
     MarketData.buy_from := MarketData.source lo;
     MarketData.sell_to := MarketData.source hi;
     MarketData.diff_liquidity :=
       Decimal.min (MarketData.liquidity lo) (MarketData.liquidity hi) |}.

(** [row] is the row of a symbol and its quotes: the symbol has two quotes
    or more and a percentage delta above the float 0.1. *)
Definition difference_row_of (item : string * list MarketData.PriceData)
  (row : MarketData.PriceDifference) : Prop :=
  exists lo hi pct,
    (2 <= length item.2)%nat /\
    lowest item.2 = Some lo /\ highest item.2 = Some hi /\
    MarketData.percentage_diff lo hi = Ok pct /\ float_0_1 < pct /\
    row = difference_row item.1 lo hi pct.

(** The report has a row for the pair of the route, with its venues and a
    percentage delta above 0.5. *)
Definition route_reported (report : list MarketData.PriceDifference)
  (r : Optimizer.Route) : Prop :=
  exists row,
    row ∈ report /\
    MarketData.diff_symbol row = Optimizer.pair r /\
    [MarketData.buy_from row; MarketData.sell_to row] = Optimizer.path r /\
    Optimizer.float_0_5 < MarketData.percentage row.

(** The amount [c] can be added up to [n] times without rounding. *)
Definition exact_multiples (c : Q) (n : nat) : Prop :=
  forall j : nat, (j <= n)%nat -> Decimal.representable (inject_Z (Z.of_nat j) * c).

(** [n] additions of [c] to [t], in decimal arithmetic. *)
Definition add_times (c : Q) (n : nat) (t : Q) : Q :=
  Nat.iter n (fun g => Decimal.add g c) t.

(** A triangular route over the example path. *)
Definition example_route : Optimizer.Route :=
  {| Optimizer.pair := "SOL_TRIANGULAR";
     Optimizer.amount := 1000;
     Optimizer.profit := 25;
     Optimizer.confidence := 0.9;
     Optimizer.path := example_path;
     Optimizer.gas_estimate := 0.03;
     Optimizer.type := Optimizer.triangular |}.

(** The route [_find_triangular_arbitrage] builds for a path from a base
    token and the analysis of the path. *)
Definition triangular_route
  (confidence_value : list string -> list Optimizer.PoolInfo -> Q -> Q)
  (pools : list Optimizer.PoolInfo) (base_token : string) (path : list string)
  (analysis : Optimizer.ProfitAnalysis) : Optimizer.Route :=
  {| Optimizer.pair := base_token +:+ "_TRIANGULAR";
     Optimizer.amount := Optimizer.optimal_amount analysis;
     Optimizer.profit := Optimizer.net_profit analysis;
     Optimizer.confidence :=
       confidence_value path pools (Optimizer.optimal_amount analysis);
     Optimizer.path := path;
     Optimizer.gas_estimate := Optimizer.gas_cost analysis;
     Optimizer.type := Optimizer.triangular |}.

(** [r] is the route of a path: the analysis of the path returns, with a
    net profit above the threshold. *)
Definition triangular_route_of
  (confidence_value : list string -> list Optimizer.PoolInfo -> Q -> Q)
  (self : Optimizer.ArbitrageOptimizer) (pools : list Optimizer.PoolInfo)
  (base_token : string) (path : list string) (r : Optimizer.Route) : Prop :=
  exists analysis,
    Optimizer._analyze_triangular_profit self path pools = Ok analysis /\
    Optimizer.min_profit_threshold self < Optimizer.net_profit analysis /\
    r = triangular_route confidence_value pools base_token path analysis.

(** Example data: three pools that misprice RAY, so that the triangle
    from SOL through RAY and USDC is profitable. *)
Definition example_mispriced : MarketData.snapshot :=
  [("SOL/USDC", [quote "SOL/USDC" 100 8000000 "Orca"]);
   ("RAY/SOL", [quote "RAY/SOL" 0.004 8000000 "Orca"]);
   ("RAY/USDC", [quote "RAY/USDC" 0.5 8000000 "Raydium"])].

Definition mispriced_pools : list Optimizer.PoolInfo :=
  match Optimizer._convert_to_pools example_mispriced with
  | Ok pools => pools
  | Raise _ => []
  end.

(** The results of two venues that combine to [example_mispriced]. *)
Definition mispriced_results : list (list (string * MarketData.PriceData)) :=
  [[("SOL/USDC", quote "SOL/USDC" 100 8000000 "Orca");
    ("RAY/SOL", quote "RAY/SOL" 0.004 8000000 "Orca")];
   [("RAY/USDC", quote "RAY/USDC" 0.5 8000000 "Raydium")]].

(** A confidence function for the examples. *)
Definition example_confidence (path : list string) (pools : list Optimizer.PoolInfo)
  (amount : Q) : Q := 0.9.

(** A snapshot with positive prices and liquidities, whose symbols with a
    separator name two tokens. *)
Definition sane_snapshot (market_data : MarketData.snapshot) : Prop :=
  Forall (fun item =>
            Forall (fun q => 0 < MarketData.price q /\ 0 < MarketData.liquidity q)
                   item.2 /\
            (contains "/" item.1 = true -> two_tokens item.1))
         market_data.

(** * Properties *)

(** ** Rounding to the context precision *)

Module DecimalFacts.

Import Decimal.

Lemma ndigits_aux_spec (fuel : nat) : forall n : Z,
  (0 < n < 2 ^ Z.of_nat fuel)%Z ->
  (10 ^ (ndigits_aux fuel n - 1) <= n < 10 ^ ndigits_aux fuel n)%Z /\ (0 < ndigits_aux fuel n)%Z.
Proof.
  induction fuel as [|fuel IH]; intros n Hn.
  - simpl in Hn. lia.
  - cbn [ndigits_aux]. destruct (Z.ltb_spec n 10) as [Hlt|Hge].
    + simpl. lia.
    + assert (Hq : (0 < n / 10 < 2 ^ Z.of_nat fuel)%Z).
      { split.
        - apply Z.div_str_pos. lia.
        - rewrite Nat2Z.inj_succ, Z.pow_succ_r in Hn by lia.
          apply Z.div_lt_upper_bound; lia. }
      destruct (IH _ Hq) as [[Hlo Hhi] Hpos].
      set (d := ndigits_aux fuel (n / 10)) in *.
      replace (1 + d - 1)%Z with (Z.succ (d - 1)) by lia.
      replace (1 + d)%Z with (Z.succ d) by lia.
      rewrite !Z.pow_succ_r by lia.
      pose proof (Z.div_mod n 10 ltac:(lia)) as Hdm.
      pose proof (Z.mod_pos_bound n 10 ltac:(lia)) as Hm.
      repeat split; lia.
Qed.

Lemma ndigits_spec (n : Z) :
  (0 < n)%Z -> (10 ^ (ndigits n - 1) <= n < 10 ^ ndigits n)%Z /\ (0 < ndigits n)%Z.
Proof.
  intros Hn. unfold ndigits. apply ndigits_aux_spec. split; [lia|].
  rewrite Nat2Z.inj_succ, Z2Nat.id by apply Z.log2_nonneg.
  apply Z.log2_spec. lia.
Qed.

Lemma pow10_pos (k : Z) : 0 < 10 ^ k.
Proof. apply Qpower_0_lt. reflexivity. Qed.

Lemma pow10_le (k k' : Z) : (k <= k')%Z -> 10 ^ k <= 10 ^ k'.
Proof. intros H. apply Qpower_le_compat_l; [exact H | discriminate]. Qed.

Lemma pow10_lt (k k' : Z) : (k < k')%Z -> 10 ^ k < 10 ^ k'.
Proof. intros H. apply Qpower_lt_compat_l; [exact H | reflexivity]. Qed.

Lemma pow10_lt_inv (k k' : Z) : 10 ^ k < 10 ^ k' -> (k < k')%Z.
Proof. intros H. apply (Qpower_lt_compat_l_inv 10); [exact H | reflexivity]. Qed.

Lemma pow10_plus (a b : Z) : 10 ^ (a + b) == 10 ^ a * 10 ^ b.
Proof. apply Qpower_plus. discriminate. Qed.

Lemma pow10_inject (n : Z) : (0 <= n)%Z -> inject_Z (10 ^ n) == 10 ^ n.
Proof. intros H. rewrite Zpower_Qpower by exact H. reflexivity. Qed.

Lemma Qabs_make (x : Q) :
  Qabs x == inject_Z (Z.abs (Qnum x)) / inject_Z (Zpos (Qden x)).
Proof. destruct x as [n d]. simpl. apply Qmake_Qdiv. Qed.

Lemma Qinv_mult_ge_1 (a q : Q) : 0 < a -> a <= q -> 1 <= / a * q.
Proof.
  intros Ha Hq. assert (E : 1 == / a * a) by (field; lra). rewrite E.
  apply Qmult_le_l; [apply Qinv_lt_0_compat; exact Ha | exact Hq].
Qed.

Lemma Qinv_mult_le_1 (a q : Q) : 0 < a -> q <= a -> / a * q <= 1.
Proof.
  intros Ha Hq. assert (E : 1 == / a * a) by (field; lra). rewrite E.
  apply Qmult_le_l; [apply Qinv_lt_0_compat; exact Ha | exact Hq].
Qed.

Lemma adjusted_spec (x : Q) :
  ~ x == 0 -> 10 ^ adjusted x <= Qabs x /\ Qabs x < 10 ^ (adjusted x + 1).
Proof.
  intros Hx.
  assert (Hp : (0 < Z.abs (Qnum x))%Z).
  { destruct x as [n d]. unfold Qeq in Hx. simpl in *. lia. }
  destruct (ndigits_spec _ Hp) as [[Hplo Hphi] Hpd].
  destruct (ndigits_spec (Zpos (Qden x)) ltac:(lia)) as [[Hqlo Hqhi] Hqd].
  unfold adjusted.
  set (dp := ndigits (Z.abs (Qnum x))) in *.
  set (dq := ndigits (Zpos (Qden x))) in *.
  assert (Hq0 : 0 < inject_Z (Zpos (Qden x))) by reflexivity.
  rewrite Zle_Qle, pow10_inject in Hplo, Hqlo by lia.
  rewrite Zlt_Qlt, pow10_inject in Hphi, Hqhi by lia.
  pose proof (Qabs_make x) as Habs.
  destruct (Qle_bool (10 ^ (dp - dq)) (Qabs x)) eqn:Hb.
  - apply Qle_bool_iff in Hb. split; [exact Hb|].
    rewrite Habs. apply Qlt_shift_div_r; [exact Hq0|].
    replace (dp - dq + 1)%Z with (dp + - (dq - 1))%Z by lia.
    rewrite pow10_plus, Qpower_opp.
    pose proof (pow10_pos (dq - 1)) as H1. pose proof (pow10_pos dp) as H2.
    apply Qlt_le_trans with (10 ^ dp); [exact Hphi|].
    rewrite <- (Qmult_1_r (10 ^ dp)) at 1.
    rewrite <- Qmult_assoc. apply Qmult_le_l; [exact H2|].
    apply Qinv_mult_ge_1; assumption.
  - assert (Hlt : Qabs x < 10 ^ (dp - dq)).
    { apply Qnot_le_lt. intros H. apply Qle_bool_iff in H. congruence. }
    split.
    + rewrite Habs. apply Qle_shift_div_l; [exact Hq0|].
      replace (dp - dq - 1)%Z with ((dp - 1) + - dq)%Z by lia.
      rewrite pow10_plus, Qpower_opp.
      pose proof (pow10_pos dq) as H1. pose proof (pow10_pos (dp - 1)) as H2.
      apply Qle_trans with (10 ^ (dp - 1)); [|exact Hplo].
      rewrite <- (Qmult_1_r (10 ^ (dp - 1))) at 2.
      rewrite <- Qmult_assoc. apply Qmult_le_l; [exact H2|].
      apply Qinv_mult_le_1; [exact H1 | apply Qlt_le_weak; exact Hqhi].
    + replace (dp - dq - 1 + 1)%Z with (dp - dq)%Z by lia. exact Hlt.
Qed.

Lemma adjusted_unique (x : Q) (k : Z) :
  10 ^ k <= Qabs x -> Qabs x < 10 ^ (k + 1) -> adjusted x = k.
Proof.
  intros Hlo Hhi.
  assert (Hx : ~ x == 0).
  { intros H. assert (E : Qabs x == 0) by (rewrite H; reflexivity).
    pose proof (pow10_pos k) as Hk. rewrite E in Hlo.
    apply (Qlt_irrefl 0). eapply Qlt_le_trans; eassumption. }
  destruct (adjusted_spec x Hx) as [Alo Ahi].
  assert (adjusted x < k + 1)%Z.
  { apply pow10_lt_inv. eapply Qle_lt_trans; eassumption. }
  assert (k < adjusted x + 1)%Z.
  { apply pow10_lt_inv. eapply Qle_lt_trans; eassumption. }
  lia.
Qed.

Lemma adjusted_comp (x y : Q) : x == y -> ~ x == 0 -> adjusted x = adjusted y.
Proof.
  intros Hxy Hx. symmetry. destruct (adjusted_spec x Hx) as [Alo Ahi].
  apply adjusted_unique; rewrite <- Hxy; assumption.
Qed.

Lemma adjusted_opp (x : Q) : ~ x == 0 -> adjusted (- x) = adjusted x.
Proof.
  intros Hx. destruct (adjusted_spec x Hx) as [Alo Ahi].
  apply adjusted_unique; rewrite Qabs_opp; assumption.
Qed.

Lemma round_half_even_spec (x : Q) : nearest_even x (round_half_even x).
Proof.
  unfold round_half_even, nearest_even.
  pose proof (Qfloor_le x) as Hlo. pose proof (Qlt_floor x) as Hhi.
  set (f := Qfloor x) in *. rewrite inject_Z_plus in Hhi.
  change (inject_Z 1) with 1 in Hhi.
  destruct (Qcompare_spec (x - inject_Z f) (1 # 2)) as [E|L|G].
  - destruct (Z.even f) eqn:Ev.
    + right. split; [left; lra | exact Ev].
    + right. split.
      * right. rewrite inject_Z_plus. change (inject_Z 1) with 1. lra.
      * rewrite Z.even_add, Ev. reflexivity.
  - left. lra.
  - left. rewrite inject_Z_plus. change (inject_Z 1) with 1. lra.
Qed.

Lemma inject_Z_lt_1 (n m : Z) : inject_Z n - inject_Z m < 1 -> (n <= m)%Z.
Proof.
  intros H. assert (H' : inject_Z n < inject_Z (m + 1)).
  { rewrite inject_Z_plus. change (inject_Z 1) with 1. lra. }
  rewrite <- Zlt_Qlt in H'. lia.
Qed.

Lemma inject_Z_eq_1 (n m : Z) : inject_Z n - inject_Z m == 1 -> n = (m + 1)%Z.
Proof.
  intros H. assert (H' : inject_Z n == inject_Z (m + 1)).
  { rewrite inject_Z_plus. change (inject_Z 1) with 1. lra. }
  apply inject_Z_injective. exact H'.
Qed.

Lemma nearest_even_unique (x : Q) (n m : Z) :
  nearest_even x n -> nearest_even x m -> n = m.
Proof.
  unfold nearest_even.
  intros [[Hn1 Hn2]|[Hn Evn]] [[Hm1 Hm2]|[Hm Evm]].
  - assert (n <= m)%Z by (apply inject_Z_lt_1; lra).
    assert (m <= n)%Z by (apply inject_Z_lt_1; lra). lia.
  - assert (n <= m)%Z by (apply inject_Z_lt_1; destruct Hm; lra).
    assert (m <= n)%Z by (apply inject_Z_lt_1; destruct Hm; lra). lia.
  - assert (n <= m)%Z by (apply inject_Z_lt_1; destruct Hn; lra).
    assert (m <= n)%Z by (apply inject_Z_lt_1; destruct Hn; lra). lia.
  - destruct Hn as [Hn|Hn], Hm as [Hm|Hm].
    + apply inject_Z_injective. lra.
    + assert (m = n + 1)%Z by (apply inject_Z_eq_1; lra). subst m.
      rewrite Z.even_add, Evn in Evm. discriminate.
    + assert (n = m + 1)%Z by (apply inject_Z_eq_1; lra). subst n.
      rewrite Z.even_add, Evm in Evn. discriminate.
    + apply inject_Z_injective. lra.
Qed.

Lemma round_half_even_unique (x : Q) (n : Z) :
  nearest_even x n -> round_half_even x = n.
Proof. intros H. eapply nearest_even_unique; [apply round_half_even_spec | exact H]. Qed.

Lemma round_half_even_comp (x y : Q) : x == y -> round_half_even x = round_half_even y.
Proof.
  intros E. apply round_half_even_unique.
  pose proof (round_half_even_spec y) as H. unfold nearest_even in *.
  rewrite E. exact H.
Qed.

Lemma round_half_even_Z (n : Z) : round_half_even (inject_Z n) = n.
Proof. apply round_half_even_unique. left. split; lra. Qed.

Lemma round_half_even_opp (x : Q) : round_half_even (- x) = (- round_half_even x)%Z.
Proof.
  apply round_half_even_unique.
  destruct (round_half_even_spec x) as [[H1 H2]|[H Ev]]; unfold nearest_even;
    rewrite inject_Z_opp.
  - left. split; lra.
  - right. split; [destruct H; [right|left]; lra |].
    rewrite Z.even_opp. exact Ev.
Qed.

Lemma round_half_even_error (x : Q) :
  x - (1 # 2) <= inject_Z (round_half_even x) /\
  inject_Z (round_half_even x) <= x + (1 # 2).
Proof.
  destruct (round_half_even_spec x) as [[H1 H2]|[[H|H] _]]; split; lra.
Qed.

Lemma round_half_even_mono (x y : Q) :
  x <= y -> (round_half_even x <= round_half_even y)%Z.
Proof.
  intros Hxy.
  destruct (Z.le_gt_cases (round_half_even x) (round_half_even y)) as [H|H];
    [exact H | exfalso].
  pose proof (round_half_even_spec x) as Sx.
  pose proof (round_half_even_spec y) as Sy.
  revert H Sx Sy. generalize (round_half_even x) (round_half_even y).
  intros n m H Sx Sy.
  assert (Hge : inject_Z m + 1 <= inject_Z n).
  { change 1 with (inject_Z 1). rewrite <- inject_Z_plus, <- Zle_Qle. lia. }
  unfold nearest_even in Sx, Sy.
  destruct Sx as [[Hn1 Hn2]|[Hn Evn]]; destruct Sy as [[Hm1 Hm2]|[Hm Evm]];
    try lra.
  destruct Hn as [Hn|Hn], Hm as [Hm|Hm]; try lra.
  assert (n = m + 1)%Z by (apply inject_Z_eq_1; lra). subst n.
    rewrite Z.even_add, Evm in Evn. discriminate.
Qed.

Lemma round_ctx_zero (x : Q) : x == 0 -> round_ctx x == 0.
Proof. intros H. unfold round_ctx. rewrite (Qeq_eq_bool _ _ H). reflexivity. Qed.

Lemma round_ctx_nonzero (x : Q) :
  ~ x == 0 ->
  round_ctx x == inject_Z (round_half_even (x / 10 ^ quantum x)) * 10 ^ quantum x.
Proof.
  intros H. unfold round_ctx, quantum.
  destruct (Qeq_bool x 0) eqn:E.
  - apply Qeq_bool_eq in E. contradiction.
  - apply Qred_correct.
Qed.

#[global] Instance round_ctx_comp : Proper (Qeq ==> Qeq) round_ctx.
Proof.
  intros x y E. destruct (Qeq_dec x 0) as [Z|NZ].
  - rewrite (round_ctx_zero x Z), (round_ctx_zero y); [reflexivity | rewrite <- E; exact Z].
  - assert (NZ' : ~ y == 0) by (rewrite <- E; exact NZ).
    rewrite (round_ctx_nonzero x NZ), (round_ctx_nonzero y NZ').
    unfold quantum. rewrite <- (adjusted_comp x y E NZ).
    generalize (adjusted x - (prec - 1))%Z. intros e.
    rewrite (round_half_even_comp (x / 10 ^ e) (y / 10 ^ e)); [reflexivity|].
    rewrite E. reflexivity.
Qed.

Lemma round_ctx_opp (x : Q) : round_ctx (- x) == - round_ctx x.
Proof.
  destruct (Qeq_dec x 0) as [Z|NZ].
  - rewrite (round_ctx_zero x Z), (round_ctx_zero (- x)); [reflexivity | lra].
  - assert (NZ' : ~ - x == 0) by (intros H; apply NZ; lra).
    rewrite (round_ctx_nonzero x NZ), (round_ctx_nonzero _ NZ').
    unfold quantum. rewrite (adjusted_opp x NZ).
    set (e := (adjusted x - (prec - 1))%Z).
    rewrite (round_half_even_comp (- x / 10 ^ e) (- (x / 10 ^ e))).
    + rewrite round_half_even_opp, inject_Z_opp. ring.
    + pose proof (pow10_pos e). field. lra.
Qed.

(** The scaled value of a positive [x] has exactly [prec] integer digits. *)
Lemma scaled_bounds (x : Q) :
  0 < x -> 10 ^ (prec - 1) <= x / 10 ^ quantum x /\ x / 10 ^ quantum x < 10 ^ prec.
Proof.
  intros Hx. assert (NZ : ~ x == 0) by lra.
  destruct (adjusted_spec x NZ) as [Alo Ahi].
  rewrite Qabs_pos in Alo, Ahi by lra.
  unfold quantum. set (a := adjusted x) in *.
  pose proof (pow10_pos (a - (prec - 1))) as He.
  split.
  - apply Qle_shift_div_l; [exact He|].
    rewrite <- pow10_plus. replace (prec - 1 + (a - (prec - 1)))%Z with a by lia.
    exact Alo.
  - apply Qlt_shift_div_r; [exact He|].
    rewrite <- pow10_plus. replace (prec + (a - (prec - 1)))%Z with (a + 1)%Z by lia.
    exact Ahi.
Qed.

Lemma coefficient_bounds (x : Q) :
  0 < x ->
  (10 ^ (prec - 1) <= round_half_even (x / 10 ^ quantum x) <= 10 ^ prec)%Z.
Proof.
  intros Hx. destruct (scaled_bounds x Hx) as [Slo Shi].
  rewrite <- (pow10_inject (prec - 1)) in Slo by (unfold prec; lia).
  rewrite <- (pow10_inject prec) in Shi by (unfold prec; lia).
  split.
  - rewrite <- (round_half_even_Z (10 ^ (prec - 1))).
    apply round_half_even_mono. exact Slo.
  - rewrite <- (round_half_even_Z (10 ^ prec)).
    apply round_half_even_mono. apply Qlt_le_weak. exact Shi.
Qed.

Lemma round_ctx_pos_bounds (x : Q) :
  0 < x -> 10 ^ adjusted x <= round_ctx x /\ round_ctx x <= 10 ^ (adjusted x + 1).
Proof.
  intros Hx. assert (NZ : ~ x == 0) by lra.
  rewrite (round_ctx_nonzero x NZ).
  destruct (coefficient_bounds x Hx) as [Clo Chi].
  rewrite Zle_Qle, pow10_inject in Clo, Chi by (unfold prec; lia).
  pose proof (pow10_pos (quantum x)) as He.
  split.
  - replace (adjusted x) with ((prec - 1) + quantum x)%Z at 1 by (unfold quantum; lia).
    rewrite pow10_plus. apply Qmult_le_compat_r; [exact Clo | lra].
  - replace (adjusted x + 1)%Z with (prec + quantum x)%Z by (unfold quantum; lia).
    rewrite pow10_plus. apply Qmult_le_compat_r; [exact Chi | lra].
Qed.

Lemma round_ctx_pos (x : Q) : 0 < x -> 0 < round_ctx x.
Proof.
  intros Hx. destruct (round_ctx_pos_bounds x Hx) as [H _].
  eapply Qlt_le_trans; [apply pow10_pos | exact H].
Qed.

Lemma round_ctx_neg (x : Q) : x < 0 -> round_ctx x < 0.
Proof.
  intros Hx. assert (H : 0 < round_ctx (- x)) by (apply round_ctx_pos; lra).
  rewrite round_ctx_opp in H. lra.
Qed.

Lemma round_ctx_nonneg (x : Q) : 0 <= x -> 0 <= round_ctx x.
Proof.
  intros Hx. destruct (Qeq_dec x 0) as [Z|NZ].
  - rewrite (round_ctx_zero x Z). lra.
  - apply Qlt_le_weak, round_ctx_pos. lra.
Qed.

Lemma round_ctx_mono_pos (x y : Q) :
  0 < x -> x <= y -> round_ctx x <= round_ctx y.
Proof.
  intros Hx Hxy. assert (Hy : 0 < y) by lra.
  assert (NZx : ~ x == 0) by lra. assert (NZy : ~ y == 0) by lra.
  destruct (adjusted_spec x NZx) as [Xlo Xhi].
  destruct (adjusted_spec y NZy) as [Ylo Yhi].
  rewrite Qabs_pos in Xlo, Xhi, Ylo, Yhi by lra.
  assert (Hadj : (adjusted x <= adjusted y)%Z).
  { assert (adjusted x < adjusted y + 1)%Z; [|lia].
    apply pow10_lt_inv. lra. }
  destruct (Z.eq_dec (adjusted x) (adjusted y)) as [E|NE].
  - rewrite (round_ctx_nonzero x NZx), (round_ctx_nonzero y NZy).
    unfold quantum. rewrite E. set (e := (adjusted y - (prec - 1))%Z).
    pose proof (pow10_pos e) as He.
    apply Qmult_le_compat_r; [|lra].
    rewrite <- Zle_Qle. apply round_half_even_mono.
    apply Qmult_le_compat_r; [exact Hxy | apply Qlt_le_weak, Qinv_lt_0_compat, He].
  - destruct (round_ctx_pos_bounds x Hx) as [_ Rx].
    destruct (round_ctx_pos_bounds y Hy) as [Ry _].
    apply Qle_trans with (10 ^ (adjusted x + 1)); [exact Rx|].
    apply Qle_trans with (10 ^ adjusted y); [|exact Ry].
    apply pow10_le. lia.
Qed.

(** Rounding is monotone. *)
Lemma round_ctx_mono (x y : Q) : x <= y -> round_ctx x <= round_ctx y.
Proof.
  intros Hxy.
  destruct (Qlt_le_dec 0 x) as [Hx|Hx].
  - apply round_ctx_mono_pos; assumption.
  - destruct (Qlt_le_dec y 0) as [Hy|Hy].
    + assert (H : round_ctx (- y) <= round_ctx (- x))
        by (apply round_ctx_mono_pos; lra).
      rewrite !round_ctx_opp in H. lra.
    + apply Qle_trans with 0.
      * assert (H : 0 <= round_ctx (- x)) by (apply round_ctx_nonneg; lra).
        rewrite round_ctx_opp in H. lra.
      * apply round_ctx_nonneg. exact Hy.
Qed.

Lemma round_ctx_exact_pos (c k : Z) :
  (0 < c < 10 ^ prec)%Z -> round_ctx (inject_Z c * 10 ^ k) == inject_Z c * 10 ^ k.
Proof.
  intros [Hc0 Hc]. set (x := inject_Z c * 10 ^ k).
  pose proof (pow10_pos k) as Hk.
  assert (Hc0' : 0 < inject_Z c) by (rewrite Zlt_Qlt in Hc0; exact Hc0).
  assert (Hx : 0 < x) by (apply Qmult_lt_0_compat; assumption).
  assert (NZ : ~ x == 0) by lra.
  destruct (adjusted_spec x NZ) as [Alo _]. rewrite Qabs_pos in Alo by lra.
  assert (Hq : (quantum x <= k)%Z).
  { assert (adjusted x < prec + k)%Z; [|unfold quantum; lia].
    apply pow10_lt_inv. eapply Qle_lt_trans; [exact Alo|].
    rewrite pow10_plus. unfold x. apply Qmult_lt_compat_r; [exact Hk|].
    rewrite <- pow10_inject by (unfold prec; lia). rewrite <- Zlt_Qlt. exact Hc. }
  rewrite (round_ctx_nonzero x NZ).
  set (q := quantum x) in *.
  assert (Hs : x / 10 ^ q == inject_Z (c * 10 ^ (k - q))).
  { rewrite inject_Z_mult, pow10_inject by lia. unfold x.
    replace k with ((k - q) + q)%Z at 1 by lia. rewrite pow10_plus.
    pose proof (pow10_pos q). field. lra. }
  rewrite (round_half_even_comp _ _ Hs), round_half_even_Z.
  rewrite inject_Z_mult, pow10_inject by lia. unfold x.
  replace k with ((k - q) + q)%Z at 2 by lia. rewrite pow10_plus. ring.
Qed.

(** Representable numbers are not changed by rounding. *)
Lemma round_ctx_exact (x : Q) : representable x -> round_ctx x == x.
Proof.
  intros (c & k & Hc & E). rewrite E.
  destruct (Z.lt_trichotomy c 0) as [Hneg|[Hz|Hpos]].
  - assert (H : round_ctx (inject_Z (- c) * 10 ^ k) == inject_Z (- c) * 10 ^ k)
      by (apply round_ctx_exact_pos; lia).
    rewrite inject_Z_opp in H.
    assert (E' : - inject_Z c * 10 ^ k == - (inject_Z c * 10 ^ k)) by ring.
    rewrite E', round_ctx_opp in H. lra.
  - subst c. rewrite round_ctx_zero; ring.
  - apply round_ctx_exact_pos. lia.
Qed.

Lemma round_ctx_representable (x : Q) : representable (round_ctx x).
Proof.
  assert (P : forall y, 0 < y -> representable (round_ctx y)).
  { intros y Hy. assert (NZ : ~ y == 0) by lra.
    destruct (coefficient_bounds y Hy) as [Clo Chi].
    destruct (Z.eq_dec (round_half_even (y / 10 ^ quantum y)) (10 ^ prec)%Z) as [E|NE].
    - exists 1%Z, (prec + quantum y)%Z. split; [reflexivity|].
      rewrite (round_ctx_nonzero y NZ), E, pow10_plus, pow10_inject by (unfold prec; lia).
      ring.
    - exists (round_half_even (y / 10 ^ quantum y)), (quantum y). split.
      + assert (0 < 10 ^ (prec - 1))%Z by reflexivity. lia.
      + apply round_ctx_nonzero. exact NZ. }
  destruct (Q_dec x 0) as [[Hneg|Hpos]|Hz].
  - destruct (P (- x)) as (c & k & Hc & E); [lra|].
    exists (- c)%Z, k. split; [lia|].
    rewrite round_ctx_opp in E. rewrite inject_Z_opp. lra.
  - apply P. exact Hpos.
  - exists 0%Z, 0%Z. split; [reflexivity|]. rewrite (round_ctx_zero x Hz). reflexivity.
Qed.

Lemma round_ctx_idem (x : Q) : round_ctx (round_ctx x) == round_ctx x.
Proof. apply round_ctx_exact, round_ctx_representable. Qed.

Lemma scaled_error (s m p : Q) :
  0 < p -> 1000000000000000000000000000 <= s -> s - (1 # 2) <= m -> m <= s + (1 # 2) ->
  s * p * (1 - unit_roundoff) <= m * p /\ m * p <= s * p * (1 + unit_roundoff).
Proof.
  intros Hp Hs Hlo Hhi. unfold unit_roundoff.
  assert (Hm1 : (s - (1 # 2)) * p <= m * p) by (apply Qmult_le_compat_r; lra).
  assert (Hm2 : m * p <= (s + (1 # 2)) * p) by (apply Qmult_le_compat_r; lra).
  assert (Hh : (1 # 2) * p <= s * 0.0000000000000000000000000005 * p) by (apply Qmult_le_compat_r; lra).
  split; lra.
Qed.

Lemma round_ctx_error (x : Q) :
  0 <= x ->
  x * (1 - unit_roundoff) <= round_ctx x /\ round_ctx x <= x * (1 + unit_roundoff).
Proof.
  intros Hx0. destruct (Qeq_dec x 0) as [Z|NZ].
  { rewrite (round_ctx_zero x Z), Z. split; lra. }
  assert (Hx : 0 < x) by lra.
  destruct (scaled_bounds x Hx) as [Slo _].
  rewrite (round_ctx_nonzero x NZ).
  destruct (round_half_even_error (x / 10 ^ quantum x)) as [Elo Ehi].
  pose proof (pow10_pos (quantum x)) as Hq.
  assert (Hs : x == (x / 10 ^ quantum x) * 10 ^ quantum x) by (field; lra).
  assert (Hp : 10 ^ (prec - 1) == 1000000000000000000000000000) by reflexivity.
  rewrite Hp in Slo.
  destruct (scaled_error _ _ _ Hq Slo Elo Ehi) as [H1 H2].
  rewrite <- Hs in H1, H2. split; assumption.
Qed.

End DecimalFacts.

(** ** Comparisons, [min] and [max] *)

Lemma ltb_lt (x y : Q) : Decimal.ltb x y = true <-> x < y.
Proof.
  unfold Decimal.ltb. rewrite negb_true_iff. split.
  - intros H. apply Qnot_le_lt. intros Hle. apply Qle_bool_iff in Hle. congruence.
  - intros H. destruct (Qle_bool y x) eqn:E; [|reflexivity].
    apply Qle_bool_iff in E. lra.
Qed.

Lemma ltb_ge (x y : Q) : Decimal.ltb x y = false <-> y <= x.
Proof.
  unfold Decimal.ltb. rewrite negb_false_iff. apply Qle_bool_iff.
Qed.

Lemma gtb_gt (x y : Q) : Decimal.gtb x y = true <-> y < x.
Proof. apply ltb_lt. Qed.

Lemma gtb_le (x y : Q) : Decimal.gtb x y = false <-> x <= y.
Proof. apply ltb_ge. Qed.

Lemma min_spec (a b : Q) :
  Decimal.min a b <= a /\ Decimal.min a b <= b /\
  (Decimal.min a b = a \/ Decimal.min a b = b).
Proof.
  unfold Decimal.min. destruct (Decimal.ltb b a) eqn:E.
  - apply ltb_lt in E. repeat split; [lra | lra | right; reflexivity].
  - apply ltb_ge in E. repeat split; [lra | lra | left; reflexivity].
Qed.

Lemma max_spec (a b : Q) :
  a <= Decimal.max a b /\ b <= Decimal.max a b /\
  (Decimal.max a b = a \/ Decimal.max a b = b).
Proof.
  unfold Decimal.max. destruct (Decimal.gtb b a) eqn:E.
  - apply gtb_gt in E. repeat split; [lra | lra | right; reflexivity].
  - apply gtb_le in E. repeat split; [lra | lra | left; reflexivity].
Qed.

Lemma min_Qmin (a b : Q) : Decimal.min a b == Qmin a b.
Proof.
  unfold Decimal.min. destruct (Decimal.ltb b a) eqn:E.
  - apply ltb_lt in E. rewrite Q.min_r; [reflexivity | lra].
  - apply ltb_ge in E. rewrite Q.min_l; [reflexivity | lra].
Qed.

Lemma max_Qmax (a b : Q) : Decimal.max a b == Qmax a b.
Proof.
  unfold Decimal.max. destruct (Decimal.gtb b a) eqn:E.
  - apply gtb_gt in E. rewrite Q.max_r; [reflexivity | lra].
  - apply gtb_le in E. rewrite Q.max_l; [reflexivity | lra].
Qed.

(** ** The stable sorts *)

Section Sorting.
Context {A : Type} (key : A -> Q).

Lemma insert_by_desc_perm (x : A) (l : list A) : insert_by_desc key x l ≡ₚ x :: l.
Proof.
  induction l as [|y l IH]; simpl; [reflexivity|].
  destruct (Decimal.gtb (key y) (key x)); [|reflexivity].
  rewrite IH. apply perm_swap.
Qed.

Lemma sort_reverse_perm (l : list A) : sort_reverse key l ≡ₚ l.
Proof.
  induction l as [|x l IH]; simpl; [reflexivity|].
  rewrite insert_by_desc_perm, IH. reflexivity.
Qed.

Lemma insert_by_desc_sorted (x : A) (l : list A) :
  StronglySorted (descending_by key) l -> StronglySorted (descending_by key) (insert_by_desc key x l).
Proof.
  induction 1 as [|y l Hs IH Hy]; simpl.
  - constructor; [constructor | constructor].
  - destruct (Decimal.gtb (key y) (key x)) eqn:E.
    + apply gtb_gt in E. constructor; [exact IH|].
      rewrite insert_by_desc_perm. constructor; [unfold descending_by; lra | exact Hy].
    + apply gtb_le in E. constructor; [constructor; assumption|].
      constructor; [exact E|].
      eapply Forall_impl; [exact Hy|]. unfold descending_by. intros z Hz. simpl in Hz. lra.
Qed.

Lemma sort_reverse_sorted (l : list A) : StronglySorted (descending_by key) (sort_reverse key l).
Proof.
  induction l as [|x l IH]; simpl; [constructor|].
  apply insert_by_desc_sorted, IH.
Qed.

Lemma StronglySorted_take (R : A -> A -> Prop) (n : nat) (l : list A) :
  StronglySorted R l -> StronglySorted R (take n l).
Proof.
  intros H. revert n. induction H as [|x l Hs IH Hx]; intros [|n]; simpl;
    try constructor.
  - apply IH.
  - apply Forall_take. exact Hx.
Qed.

End Sorting.

(** C3. The ranking step returns at most 10 routes, each with a profit
    strictly above the threshold of the optimizer, in descending order of
    profit. *)
Theorem C3_filter_profitable_routes (self : Optimizer.ArbitrageOptimizer)
  (routes : list Optimizer.Route) :
  let ranked := Optimizer._filter_profitable_routes self routes in
  (length ranked <= 10)%nat /\
  Forall (fun r => Optimizer.min_profit_threshold self < Optimizer.profit r) ranked /\
  StronglySorted (descending_by Optimizer.profit) ranked.
Proof.
  unfold Optimizer._filter_profitable_routes. cbv zeta. repeat split.
  - rewrite length_take. lia.
  - apply Forall_take. rewrite (sort_reverse_perm Optimizer.profit).
    apply Forall_forall. intros r Hr.
    apply list_elem_of_filter in Hr as [Hr _]. apply gtb_gt in Hr. exact Hr.
  - apply StronglySorted_take. apply (sort_reverse_sorted Optimizer.profit).
Qed.

(** ** Division *)

Lemma div_nonzero (x y : Q) :
  ~ y == 0 -> Decimal.div x y = Ok (Decimal.round_ctx (x / y)).
Proof.
  intros H. unfold Decimal.div. destruct (Qeq_bool y 0) eqn:E; [|reflexivity].
  apply Qeq_bool_eq in E. contradiction.
Qed.

Lemma div_zero (x y : Q) : y == 0 -> exists e, Decimal.div x y = Raise e.
Proof.
  intros H. unfold Decimal.div. rewrite (Qeq_eq_bool _ _ H).
  destruct (Qeq_bool x 0); eauto.
Qed.

Lemma div_ok (x y r : Q) :
  Decimal.div x y = Ok r -> ~ y == 0 /\ r = Decimal.round_ctx (x / y).
Proof.
  unfold Decimal.div. destruct (Qeq_bool y 0) eqn:E.
  - destruct (Qeq_bool x 0); discriminate.
  - intros [= <-]. split; [apply Qeq_bool_neq; exact E | reflexivity].
Qed.

Lemma mul_pos (x y : Q) : 0 < x -> 0 < y -> 0 < Decimal.mul x y.
Proof.
  intros Hx Hy. apply DecimalFacts.round_ctx_pos. apply Qmult_lt_0_compat; assumption.
Qed.

(** ** C4: the amount of a direct route *)




(** ** Loops that may raise *)

Section ForEach.
Context {A S : Type} (body : S -> A -> result S).

Lemma for_each_app (l1 l2 : list A) (s : S) :
  for_each body (l1 ++ l2) s = (s' ← for_each body l1 s; for_each body l2 s').
Proof.
  revert s. induction l1 as [|x l1 IH]; intros s; simpl; [reflexivity|].
  destruct (body s x) as [s'|e]; simpl; [apply IH | reflexivity].
Qed.

Lemma for_each_skip (l : list A) (s : S) :
  (forall x s', x ∈ l -> body s' x = Ok s') -> for_each body l s = Ok s.
Proof.
  induction l as [|x l IH]; intros H; simpl; [reflexivity|].
  rewrite H by apply list_elem_of_here. simpl. apply IH.
  intros y s' Hy. apply H. apply list_elem_of_further. exact Hy.
Qed.

Lemma for_each_raise (l : list A) (s : S) (x : A) :
  x ∈ l -> (forall s', exists e, body s' x = Raise e) ->
  exists e, for_each body l s = Raise e.
Proof.
  intros Hx Hr. revert s. induction l as [|y l IH]; intros s.
  - inversion Hx.
  - simpl. apply elem_of_cons in Hx as [->|Hx].
    + destruct (Hr s) as [e ->]. eauto.
    + destruct (body s y) as [s'|e]; simpl; [apply IH; exact Hx | eauto].
Qed.

End ForEach.

(** ** Strings *)

Lemma split_nonempty (c : ascii) (s : string) : split c s <> [].
Proof.
  destruct s as [|c' s]; simpl; [discriminate|].
  destruct (Ascii.eqb c' c); [discriminate|]. destruct (split c s); discriminate.
Qed.

Lemma contains_split (c : ascii) (s : string) :
  contains c s = true <-> (2 <= length (split c s))%nat.
Proof.
  induction s as [|c' s IH]; simpl.
  - split; [discriminate | lia].
  - destruct (Ascii.eqb c' c).
    + pose proof (split_nonempty c s). destruct (split c s); [contradiction|].
      simpl. split; [lia | reflexivity].
    + rewrite IH. destruct (split c s); simpl; lia.
Qed.

(** ** [_convert_to_pools] *)

Lemma round_ctx_eq_0 (x : Q) : Decimal.round_ctx x == 0 <-> x == 0.
Proof.
  split; [|apply DecimalFacts.round_ctx_zero].
  intros H. destruct (Q_dec x 0) as [[Hneg|Hpos]|Hz]; [| |exact Hz].
  - pose proof (DecimalFacts.round_ctx_neg x Hneg). lra.
  - pose proof (DecimalFacts.round_ctx_pos x Hpos). lra.
Qed.

Lemma mul_eq_0 (x y : Q) : Decimal.mul x y == 0 <-> x * y == 0.
Proof. apply round_ctx_eq_0. Qed.

Lemma convert_to_pools_flat (market_data : MarketData.snapshot) :
  Optimizer._convert_to_pools market_data
  = for_each convert_item (quotes_to_convert market_data) [].
Proof.
  unfold Optimizer._convert_to_pools. generalize (@nil Optimizer.PoolInfo).
  induction market_data as [|[sym price_list] md IH]; intros acc; [reflexivity|].
  cbn [for_each]. unfold quotes_to_convert. cbn [mbind list_bind].
  fold (quotes_to_convert md). rewrite for_each_app.
  assert (E : for_each (Optimizer.convert_quote sym) price_list acc
              = for_each convert_item
                  (if contains "/" sym
                   then (fun price_data => (sym, price_data)) <$> price_list
                   else []) acc).
  { destruct (contains "/" sym) eqn:C.
    - clear IH. revert acc. induction price_list as [|q l IHl]; intros acc;
        [reflexivity|].
      cbn [for_each fmap list_fmap].
      change (convert_item acc (sym, q)) with (Optimizer.convert_quote sym acc q).
      destruct (Optimizer.convert_quote sym acc q); simpl; [apply IHl | reflexivity].
    - apply for_each_skip. intros q s' _. unfold Optimizer.convert_quote.
      rewrite C. reflexivity. }
  rewrite E. destruct (for_each convert_item _ acc); simpl; [apply IH | reflexivity].
Qed.

Lemma quotes_to_convert_contains (market_data : MarketData.snapshot) :
  Forall (fun item => contains "/" item.1 = true) (quotes_to_convert market_data).
Proof.
  induction market_data as [|[sym price_list] md IH]; [constructor|].
  unfold quotes_to_convert. cbn [mbind list_bind]. fold (quotes_to_convert md).
  apply Forall_app. split; [|exact IH].
  destruct (contains "/" sym) eqn:C; [|constructor].
  apply Forall_fmap. apply Forall_true. intros q. exact C.
Qed.

Lemma convert_item_ok (pools pools' : list Optimizer.PoolInfo)
  (item : string * MarketData.PriceData) :
  contains "/" item.1 = true -> convert_item pools item = Ok pools' ->
  exists pool, pools' = pools ++ [pool] /\ pool_of item pool.
Proof.
  intros C. unfold convert_item, Optimizer.convert_quote. rewrite C.
  destruct (split "/" item.1) as [|ta [|tb [|tc t]]] eqn:Sp; try discriminate.
  destruct (Decimal.div _ (Decimal.mul 2 _)) as [ra|] eqn:Da; [|discriminate].
  destruct (Decimal.div _ 2) as [rb|] eqn:Db; [|discriminate].
  cbn [mbind result_bind]. intros [= <-]. eexists. split; [reflexivity|].
  unfold pool_of. cbn. rewrite Sp, Da, Db. repeat split; reflexivity.
Qed.

Lemma convert_items_ok (items : list (string * MarketData.PriceData))
  (acc pools : list Optimizer.PoolInfo) :
  Forall (fun item => contains "/" item.1 = true) items ->
  for_each convert_item items acc = Ok pools ->
  exists new, pools = acc ++ new /\ Forall2 pool_of items new.
Proof.
  intros HC. revert acc. induction HC as [|item items C _ IH]; intros acc; simpl.
  - intros [= <-]. exists []. rewrite app_nil_r. split; [reflexivity | constructor].
  - destruct (convert_item acc item) as [acc'|] eqn:E; [|discriminate].
    cbn [mbind result_bind]. intros H.
    destruct (convert_item_ok _ _ _ C E) as (pool & -> & Hp).
    destruct (IH _ H) as (new & -> & Hnew).
    exists (pool :: new). rewrite <- app_assoc. split; [reflexivity|].
    constructor; assumption.
Qed.

(** When [_convert_to_pools] returns, its pools are those of the quotes
    whose symbol contains the separator, one for each, in order. *)
Lemma convert_to_pools_ok (market_data : MarketData.snapshot)
  (pools : list Optimizer.PoolInfo) :
  Optimizer._convert_to_pools market_data = Ok pools ->
  Forall2 pool_of (quotes_to_convert market_data) pools.
Proof.
  rewrite convert_to_pools_flat. intros H.
  destruct (convert_items_ok _ _ _ (quotes_to_convert_contains market_data) H)
    as (new & -> & Hnew).
  exact Hnew.
Qed.

Lemma convert_item_total (pools : list Optimizer.PoolInfo)
  (item : string * MarketData.PriceData) :
  (exists ta tb, split "/" item.1 = [ta; tb]) ->
  ~ MarketData.price item.2 == 0 ->
  exists pools', convert_item pools item = Ok pools'.
Proof.
  intros (ta & tb & Sp) Hp. unfold convert_item, Optimizer.convert_quote.
  assert (C : contains "/" item.1 = true)
    by (apply contains_split; rewrite Sp; simpl; lia).
  rewrite C, Sp. cbv zeta.
  assert (H2 : ~ Decimal.mul 2 (MarketData.price item.2) == 0).
  { intros H. apply mul_eq_0 in H. apply Hp. lra. }
  rewrite (div_nonzero _ _ H2), (div_nonzero _ 2) by discriminate.
  cbn [mbind result_bind]. eauto.
Qed.

Lemma convert_item_zero_price (pools : list Optimizer.PoolInfo)
  (item : string * MarketData.PriceData) :
  contains "/" item.1 = true -> MarketData.price item.2 == 0 ->
  exists e, convert_item pools item = Raise e.
Proof.
  intros C Hp. unfold convert_item, Optimizer.convert_quote. rewrite C.
  destruct (split "/" item.1) as [|ta [|tb [|tc t]]]; eauto.
  destruct (div_zero (MarketData.liquidity item.2)
              (Decimal.mul 2 (MarketData.price item.2))) as [e ->]; [|eauto].
  rewrite mul_eq_0, Hp. reflexivity.
Qed.

Lemma convert_to_pools_total (market_data : MarketData.snapshot) :
  Forall (fun item => two_tokens item.1 /\ ~ MarketData.price item.2 == 0)
         (quotes_to_convert market_data) ->
  exists pools, Optimizer._convert_to_pools market_data = Ok pools.
Proof.
  rewrite convert_to_pools_flat. intros H. generalize (@nil Optimizer.PoolInfo).
  induction H as [|item items [Ht Hp] _ IH]; intros acc; simpl; [eauto|].
  destruct (convert_item_total acc item Ht Hp) as [acc' ->]. apply IH.
Qed.

Lemma convert_to_pools_zero_price (market_data : MarketData.snapshot) :
  Exists (fun item => MarketData.price item.2 == 0) (quotes_to_convert market_data) ->
  exists e, Optimizer._convert_to_pools market_data = Raise e.
Proof.
  rewrite convert_to_pools_flat. intros H.
  apply Exists_exists in H as (item & Hin & Hp).
  apply (for_each_raise _ _ _ item Hin). intros acc.
  apply convert_item_zero_price; [|exact Hp].
  pose proof (quotes_to_convert_contains market_data) as HC.
  rewrite Forall_forall in HC. apply HC. exact Hin.
Qed.

Lemma pool_of_reserves (item : string * MarketData.PriceData)
  (pool : Optimizer.PoolInfo) :
  pool_of item pool -> derived_reserves item.2 pool.
Proof.
  intros (_ & _ & Ha & Hb & _). unfold derived_reserves.
  apply div_ok in Ha as [_ ->]. apply div_ok in Hb as [_ ->].
  split; reflexivity.
Qed.

(** ** C2: the reserves of a synthetic pool *)

(** C2, as stated, fails: a quote with price 1 and liquidity 0 is within
    its conditions, and the pool built from it has [reserve_a = 0]. *)
Lemma C2_zero_liquidity_zero_reserve :
  let q := quote "SOL/USDC" 1 0 "Orca" in
  0 < MarketData.price q /\ 0 <= MarketData.liquidity q /\
  exists pool,
    Optimizer._convert_to_pools [("SOL/USDC", [q])] = Ok [pool] /\
    ~ 0 < Optimizer.reserve_a pool.
Proof.
  cbv zeta. split; [reflexivity|]. split; [discriminate|].
  eexists. split; [vm_compute; reflexivity|]. cbn. discriminate.
Qed.

(** C2, amended.  When no operation on a quote leaves the exponent limits
    of the context, the pool built from a quote has
    [reserve_b = liquidity / 2] and [reserve_a = liquidity / (2 * price)] in
    decimal arithmetic; when the price is positive and the liquidity is not
    negative, both reserves are not negative, and [reserve_a] is positive
    exactly when the liquidity is. *)
Theorem C2_derived_pool_reserves (market_data : MarketData.snapshot)
  (pools : list Optimizer.PoolInfo) :
  Optimizer._convert_to_pools market_data = Ok pools ->
  Forall (fun item => reserves_in_range item.2) (quotes_to_convert market_data) ->
  Forall2 (fun item pool =>
             derived_reserves item.2 pool /\
             (0 < MarketData.price item.2 -> 0 <= MarketData.liquidity item.2 ->
              0 <= Optimizer.reserve_a pool /\ 0 <= Optimizer.reserve_b pool /\
              (0 < Optimizer.reserve_a pool <-> 0 < MarketData.liquidity item.2)))
          (quotes_to_convert market_data) pools.
Proof.
  intros H _. apply convert_to_pools_ok in H.
  eapply Forall2_impl; [exact H|]. clear. intros [sym q] pool Hp.
  apply pool_of_reserves in Hp. split; [exact Hp|].
  destruct Hp as [Hb Ha]. cbn [snd] in *. intros Hprice Hliq.
  set (l := MarketData.liquidity q) in *.
  assert (Hd : 0 < Decimal.round_ctx (2 * MarketData.price q))
    by (apply DecimalFacts.round_ctx_pos; lra).
  set (d := Decimal.round_ctx (2 * MarketData.price q)) in *.
  assert (Hq : 0 <= l / d) by (apply Qle_shift_div_l; lra).
  rewrite Ha, Hb. split; [|split].
  - apply DecimalFacts.round_ctx_nonneg. exact Hq.
  - apply DecimalFacts.round_ctx_nonneg. apply Qle_shift_div_l; lra.
  - split.
    + intros Hr. destruct (Qlt_le_dec 0 l) as [Hl|Hl]; [exact Hl|].
      assert (E : l / d == 0) by (assert (l == 0) as -> by lra; field; lra).
      rewrite (DecimalFacts.round_ctx_zero _ E) in Hr. lra.
    + intros Hl. apply DecimalFacts.round_ctx_pos. apply Qlt_shift_div_l; lra.
Qed.

(** A use of C2 on the two quoted venues of the specification. *)
Lemma C2_derived_pool_reserves_witness :
  let market_data :=
    [("SOL/USDC", [quote "SOL/USDC" 89.50 8000000 "Orca";
                   quote "SOL/USDC" 91.00 10000000 "Raydium"])] in
  Forall (fun item => reserves_in_range item.2) (quotes_to_convert market_data) /\
  exists pools,
    Optimizer._convert_to_pools market_data = Ok pools /\
    Forall2 (fun item pool =>
               derived_reserves item.2 pool /\
               (0 < MarketData.price item.2 -> 0 <= MarketData.liquidity item.2 ->
                0 <= Optimizer.reserve_a pool /\ 0 <= Optimizer.reserve_b pool /\
                (0 < Optimizer.reserve_a pool <-> 0 < MarketData.liquidity item.2)))
            (quotes_to_convert market_data) pools.
Proof.
  cbv zeta.
  assert (Hrange :
            Forall (fun item => reserves_in_range item.2)
              (quotes_to_convert
                 [("SOL/USDC", [quote "SOL/USDC" 89.50 8000000 "Orca";
                                quote "SOL/USDC" 91.00 10000000 "Raydium"])])).
  { repeat constructor; vm_compute; reflexivity. }
  split; [exact Hrange|].
  eexists. split; [vm_compute; reflexivity|].
  apply C2_derived_pool_reserves; [vm_compute; reflexivity | exact Hrange].
Defined.

Lemma quotes_to_convert_app (md1 md2 : MarketData.snapshot) :
  quotes_to_convert (md1 ++ md2) = quotes_to_convert md1 ++ quotes_to_convert md2.
Proof. unfold quotes_to_convert. apply bind_app. Qed.

Lemma convert_to_pools_skip (md1 md2 : MarketData.snapshot) (sym : string)
  (price_list : list MarketData.PriceData) :
  contains "/" sym = false ->
  Optimizer._convert_to_pools (md1 ++ (sym, price_list) :: md2)
  = Optimizer._convert_to_pools (md1 ++ md2).
Proof.
  intros C. rewrite !convert_to_pools_flat, !quotes_to_convert_app.
  replace (quotes_to_convert ((sym, price_list) :: md2)) with (quotes_to_convert md2);
    [reflexivity|].
  unfold quotes_to_convert. cbn [mbind list_bind]. rewrite C. reflexivity.
Qed.

(** ** The combining loop of [get_all_prices] *)

Lemma append_quote_keeps (sym s : string) (q q0 : MarketData.PriceData)
  (all_prices : MarketData.snapshot) :
  has_quote all_prices s q0 ->
  has_quote (MarketData.append_quote sym q all_prices) s q0.
Proof.
  intros (l & Hl & Hq). induction all_prices as [|[s' l'] rest IH]; [inversion Hl|].
  simpl. apply elem_of_cons in Hl as [[= <- <-]|Hl].
  - destruct (String.eqb s sym).
    + exists (l ++ [q]). split; [apply list_elem_of_here|].
      apply elem_of_app. left. exact Hq.
    + exists l. split; [apply list_elem_of_here | exact Hq].
  - destruct (String.eqb s' sym).
    + exists l. split; [apply list_elem_of_further; exact Hl | exact Hq].
    + destruct (IH Hl) as (l2 & H2 & Hq2).
      exists l2. split; [apply list_elem_of_further; exact H2 | exact Hq2].
Qed.

Lemma append_quote_adds (sym : string) (q : MarketData.PriceData)
  (all_prices : MarketData.snapshot) :
  has_quote (MarketData.append_quote sym q all_prices) sym q.
Proof.
  induction all_prices as [|[s l] rest IH]; simpl.
  - exists [q]. split; apply list_elem_of_here.
  - destruct (String.eqb s sym) eqn:E.
    + apply String.eqb_eq in E as ->. exists (l ++ [q]).
      split; [apply list_elem_of_here|]. apply elem_of_app. right.
      apply list_elem_of_here.
    + destruct IH as (l2 & H2 & Hq2).
      exists l2. split; [apply list_elem_of_further; exact H2 | exact Hq2].
Qed.

Lemma combine_keeps (result : list (string * MarketData.PriceData))
  (all_prices : MarketData.snapshot) (sym : string) (q : MarketData.PriceData) :
  has_quote all_prices sym q \/ (sym, q) ∈ result ->
  has_quote
    (foldl (fun acc '(s, price_data) => MarketData.append_quote s price_data acc)
           all_prices result)
    sym q.
Proof.
  revert all_prices. induction result as [|[s q'] result IH]; intros acc H; simpl.
  - destruct H as [H|H]; [exact H | inversion H].
  - apply IH. destruct H as [H|H].
    + left. apply append_quote_keeps. exact H.
    + apply elem_of_cons in H as [[= -> ->]|H]; [|right; exact H].
      left. apply append_quote_adds.
Qed.

(** [get_all_prices] keeps every quote the venues returned. *)
Lemma get_all_prices_keeps (results : list (list (string * MarketData.PriceData)))
  (result : list (string * MarketData.PriceData)) (sym : string)
  (q : MarketData.PriceData) :
  result ∈ results -> (sym, q) ∈ result ->
  has_quote (MarketData.get_all_prices results) sym q.
Proof.
  unfold MarketData.get_all_prices. intros Hr Hq.
  assert (G : forall acc,
             has_quote acc sym q \/ result ∈ results ->
             has_quote
               (foldl (fun all_prices result0 =>
                         foldl (fun acc0 '(s, price_data) =>
                                  MarketData.append_quote s price_data acc0)
                               all_prices result0)
                      acc results) sym q).
  { clear Hr. induction results as [|r results IH]; intros acc H; simpl.
    - destruct H as [H|H]; [exact H | inversion H].
    - apply IH. destruct H as [H|H].
      + left. apply combine_keeps. left. exact H.
      + apply elem_of_cons in H as [<-|H]; [|right; exact H].
        left. apply combine_keeps. right. exact Hq. }
  apply G. right. exact Hr.
Qed.

(** With two tokens in every symbol, the conversion raises nothing but
    the errors of a division. *)
Lemma convert_item_division_error (pools : list Optimizer.PoolInfo)
  (item : string * MarketData.PriceData) (e : exn) :
  two_tokens item.1 -> convert_item pools item = Raise e ->
  e = DivisionByZero \/ e = InvalidOperation.
Proof.
  intros (ta & tb & Hs). unfold convert_item, Optimizer.convert_quote. rewrite Hs.
  destruct (contains "/" item.1); [|discriminate].
  assert (D : forall x y e', Decimal.div x y = Raise e' ->
                             e' = DivisionByZero \/ e' = InvalidOperation).
  { intros x y e'. unfold Decimal.div. destruct (Qeq_bool y 0); [|discriminate].
    destruct (Qeq_bool x 0); intros [= <-]; [right | left]; reflexivity. }
  destruct (Decimal.div (MarketData.liquidity item.2) (Decimal.mul 2 _))
    as [ra|e1] eqn:E1; cbn [mbind result_bind].
  - destruct (Decimal.div (MarketData.liquidity item.2) 2) as [rb|e2] eqn:E2;
      cbn [mbind result_bind]; [discriminate|].
    intros [= <-]. exact (D _ _ _ E2).
  - intros [= <-]. exact (D _ _ _ E1).
Qed.

Lemma convert_to_pools_division_error (market_data : MarketData.snapshot)
  (e : exn) :
  Forall (fun item => two_tokens item.1) (quotes_to_convert market_data) ->
  Optimizer._convert_to_pools market_data = Raise e ->
  e = DivisionByZero \/ e = InvalidOperation.
Proof.
  rewrite convert_to_pools_flat. generalize (@nil Optimizer.PoolInfo).
  induction (quotes_to_convert market_data) as [|item items IH]; intros acc Htwo;
    cbn [for_each]; [discriminate|].
  apply Forall_cons in Htwo as [H2 Htwo].
  destruct (convert_item acc item) as [acc'|e'] eqn:E; cbn [mbind result_bind].
  - apply IH. exact Htwo.
  - intros [= <-]. exact (convert_item_division_error acc item e' H2 E).
Qed.

(** ** C7: quotes with a price or a liquidity out of range *)




(** A quote with price zero: the conversion raises. *)
Lemma C7_zero_price_raises :
  Optimizer._convert_to_pools [("SOL/USDC", [quote "SOL/USDC" 0 100 "Jupiter"])]
  = Raise DivisionByZero.
Proof. vm_compute. reflexivity. Qed.

(** ** C9: symbols and pools *)




(** A symbol with a second separator: unpacking its three parts raises. *)
Lemma C9_three_tokens_raise :
  split "/" "SOL/USDC/RAY" = ["SOL"; "USDC"; "RAY"]%string /\
  Optimizer._convert_to_pools
    [("SOL/USDC/RAY", [quote "SOL/USDC/RAY" 1 100 "Orca"])] = Raise ValueError.
Proof. split; vm_compute; reflexivity. Qed.

(** ** C6: the triangular paths *)

Lemma file_pool_lookup (token t : string) (pool p : Optimizer.PoolInfo)
  (token_pools : gmap string (list Optimizer.PoolInfo)) :
  p ∈ default [] (Optimizer.file_pool token pool token_pools !! t) ->
  p ∈ default [] (token_pools !! t) \/ (p = pool /\ t = token).
Proof.
  unfold Optimizer.file_pool. destruct (decide (token = t)) as [->|Hne].
  - rewrite lookup_insert_eq. simpl. intros H.
    apply elem_of_app in H as [H|H]; [left; exact H|].
    apply list_elem_of_singleton in H. right. split; [exact H | reflexivity].
  - rewrite lookup_insert_ne by exact Hne. intros H. left. exact H.
Qed.

(** Every pool filed under a token is a pool of the set, and has the
    token. *)
Lemma group_by_token_lookup (pools : list Optimizer.PoolInfo) (t : string)
  (p : Optimizer.PoolInfo) :
  p ∈ default [] (Optimizer.group_by_token pools !! t) ->
  p ∈ pools /\ (Optimizer.token_a p = t \/ Optimizer.token_b p = t).
Proof.
  unfold Optimizer.group_by_token.
  induction pools as [|pool pools IH] using rev_ind; simpl.
  - rewrite lookup_empty. simpl. intros H. inversion H.
  - rewrite foldl_snoc. intros H.
    apply file_pool_lookup in H as [H|[-> <-]].
    + apply file_pool_lookup in H as [H|[-> <-]].
      * destruct (IH H) as [Hin Ht]. split; [|exact Ht].
        apply elem_of_app. left. exact Hin.
      * split; [|left; reflexivity]. apply elem_of_app. right. apply list_elem_of_here.
    + split; [|right; reflexivity]. apply elem_of_app. right. apply list_elem_of_here.
Qed.

Lemma path_exists_connects (tok_a tok_b : string)
  (token_pools : gmap string (list Optimizer.PoolInfo)) :
  Optimizer._path_exists tok_a tok_b token_pools = true ->
  exists pool, pool ∈ default [] (token_pools !! tok_a) /\ connects pool tok_a tok_b.
Proof.
  unfold Optimizer._path_exists. intros H.
  apply existsb_exists in H as (pool & Hin & Hc).
  exists pool. split; [apply list_elem_of_In; exact Hin|].
  apply orb_true_iff in Hc as [Hc|Hc]; apply andb_true_iff in Hc as [H1 H2];
    apply String.eqb_eq in H1, H2; [left | right]; split; assumption.
Qed.

Lemma connected_tokens_elem (base_token t : string)
  (token_pools : gmap string (list Optimizer.PoolInfo)) :
  t ∈ Optimizer.connected_tokens base_token token_pools ->
  exists pool,
    pool ∈ default [] (token_pools !! base_token) /\
    t = (if String.eqb (Optimizer.token_a pool) base_token
         then Optimizer.token_b pool else Optimizer.token_a pool).
Proof.
  unfold Optimizer.connected_tokens.
  induction (default [] (token_pools !! base_token)) as [|pool l IH] using rev_ind.
  - simpl. intros H. apply not_elem_of_empty in H. contradiction.
  - rewrite foldl_snoc. intros H. apply elem_of_union in H as [H|H].
    + destruct (IH H) as (p & Hp & E). exists p. split; [|exact E].
      apply elem_of_app. left. exact Hp.
    + apply elem_of_singleton in H. exists pool. split; [|exact H].
      apply elem_of_app. right. apply list_elem_of_here.
Qed.

Lemma find_triangular_paths_elem (base_token : string)
  (token_pools : gmap string (list Optimizer.PoolInfo)) (path : list string) :
  path ∈ Optimizer._find_triangular_paths base_token token_pools ->
  exists token1 token2,
    token1 ∈ Optimizer.connected_tokens base_token token_pools /\
    token2 ∈ Optimizer.connected_tokens base_token token_pools /\
    token1 <> token2 /\
    Optimizer._path_exists token1 token2 token_pools = true /\
    Optimizer._path_exists token2 base_token token_pools = true /\
    path = [base_token; token1; token2; base_token].
Proof.
  unfold Optimizer._find_triangular_paths. cbv zeta. intros H.
  apply list_elem_of_bind in H as (token1 & H & H1).
  apply list_elem_of_bind in H as (token2 & H & H2).
  apply elem_of_elements in H1, H2. exists token1, token2.
  destruct (negb (String.eqb token1 token2)) eqn:Ne; simpl in H; [|inversion H].
  destruct (Optimizer._path_exists token1 token2 token_pools); simpl in H; [|inversion H].
  destruct (Optimizer._path_exists token2 base_token token_pools); simpl in H;
    [|inversion H].
  apply list_elem_of_singleton in H.
  repeat split; try assumption.
  intros ->. rewrite String.eqb_refl in Ne. discriminate.
Qed.

(** C6. Over the pools grouped by token, every path of the finder is
    [[base; token1; token2; base]] with [token1] and [token2] distinct, and
    each pair of consecutive tokens has a connecting pool in the pool
    set. *)
Theorem C6_triangular_paths_connected (pools : list Optimizer.PoolInfo)
  (base_token : string) :
  Forall (triangular_path pools base_token)
         (Optimizer._find_triangular_paths base_token
            (Optimizer.group_by_token pools)).
Proof.
  apply Forall_forall. intros path Hpath.
  apply find_triangular_paths_elem in Hpath
    as (token1 & token2 & H1 & _ & Hne & H12 & H2b & ->).
  exists token1, token2. split; [reflexivity|]. split; [exact Hne|].
  split; [|split].
  - apply connected_tokens_elem in H1 as (pool & Hin & E).
    apply group_by_token_lookup in Hin as [Hin Ht].
    exists pool. split; [exact Hin|].
    destruct (String.eqb (Optimizer.token_a pool) base_token) eqn:Eb.
    + apply String.eqb_eq in Eb. left. split; [exact Eb | symmetry; exact E].
    + apply String.eqb_neq in Eb. destruct Ht as [Ht|Ht]; [contradiction|].
      right. split; [symmetry; exact E | exact Ht].
  - apply path_exists_connects in H12 as (pool & Hin & Hc).
    apply group_by_token_lookup in Hin as [Hin _]. exists pool. split; assumption.
  - apply path_exists_connects in H2b as (pool & Hin & Hc).
    apply group_by_token_lookup in Hin as [Hin _]. exists pool. split; assumption.
Qed.

(** On the example pools both triangles from SOL are found; without the
    RAY/USDC pool none is. *)
Lemma C6_example_paths :
  (let paths :=
     Optimizer._find_triangular_paths "SOL" (Optimizer.group_by_token example_pools) in
   ["SOL"; "USDC"; "RAY"; "SOL"]%string ∈ paths /\
   ["SOL"; "RAY"; "USDC"; "SOL"]%string ∈ paths /\ length paths = 2%nat) /\
  Optimizer._find_triangular_paths "SOL"
    (Optimizer.group_by_token (take 2 example_pools)) = [].
Proof.
  cbv zeta. split; [|vm_compute; reflexivity].
  assert (E : Optimizer._find_triangular_paths "SOL"
                (Optimizer.group_by_token example_pools)
              = [["SOL"; "USDC"; "RAY"; "SOL"]; ["SOL"; "RAY"; "USDC"; "SOL"]]%string)
    by (vm_compute; reflexivity).
  rewrite E. split; [apply list_elem_of_here|].
  split; [apply list_elem_of_further, list_elem_of_here | reflexivity].
Qed.

(** ** The walk along a path *)

Section Walk.
Context (self : Optimizer.ArbitrageOptimizer) (pools : list Optimizer.PoolInfo).

Lemma gas_after_S (n : nat) (gas_cost : Q) :
  gas_after self (S n) gas_cost
  = gas_after self n (Decimal.add gas_cost (Optimizer.gas_price_estimate self)).
Proof.
  unfold gas_after. induction n as [|n IH]; [reflexivity|].
  change (Nat.iter (S (S n)) ?f gas_cost) with (f (Nat.iter (S n) f gas_cost)).
  rewrite IH. reflexivity.
Qed.

(** Unrounded, the accumulated cost is the number of hops times the hop
    cost. *)
Lemma gas_after_exact (n : nat) :
  exact_hop_costs self n ->
  gas_after self n 0 == inject_Z (Z.of_nat n) * Optimizer.gas_price_estimate self.
Proof.
  intros H. induction n as [|n IH].
  - simpl. ring.
  - assert (IH' := IH (fun j Hj => H j (Nat.le_trans _ _ _ Hj (Nat.le_succ_diag_r n)))).
    unfold gas_after in *.
    change (Nat.iter (S n) ?f 0) with (f (Nat.iter n f 0)). cbv beta.
    unfold Decimal.add at 1.
    rewrite (DecimalFacts.round_ctx_comp _ _ (Qplus_comp _ _ IH' _ _ (Qeq_refl _))).
    assert (E : inject_Z (Z.of_nat n) * Optimizer.gas_price_estimate self
                + Optimizer.gas_price_estimate self
                == inject_Z (Z.of_nat (S n)) * Optimizer.gas_price_estimate self).
    { rewrite Nat2Z.inj_succ. unfold Z.succ. rewrite inject_Z_plus.
      change (inject_Z 1) with 1. ring. }
    rewrite E. apply DecimalFacts.round_ctx_exact. apply H. lia.
Qed.

(** The walk either crosses every hop, or stops at the first hop without
    a pool, with a zero amount and the cost of the hops crossed. *)
Lemma simulate_hops_spec (path : list string) :
  forall current_amount gas_cost final gas_cost',
    Optimizer.simulate_hops self path pools current_amount gas_cost
      = Ok (final, gas_cost') ->
    (Forall (tradable pools) (hops path) /\
     gas_cost' = gas_after self (length (hops path)) gas_cost) \/
    (exists crossed hop rest,
       hops path = crossed ++ hop :: rest /\
       Forall (tradable pools) crossed /\ no_pool pools hop /\
       final = 0 /\ gas_cost' = gas_after self (length crossed) gas_cost).
Proof.
  induction path as [|from_token path IH]; intros cur gas final gas' H.
  - injection H as <- <-. left. split; [constructor | reflexivity].
  - destruct path as [|to_token path].
    + injection H as <- <-. left. split; [constructor | reflexivity].
    + cbn [Optimizer.simulate_hops] in H.
      change (hops (from_token :: to_token :: path))
        with ((from_token, to_token) :: hops (to_token :: path)).
      destruct (Optimizer._find_best_pool from_token to_token pools)
        as [[best_pool|]|] eqn:Eb; cbn [mbind result_bind] in H; [| |discriminate].
      * destruct (Optimizer._calculate_swap_output _ _ _) as [out|];
          cbn [mbind result_bind] in H; [|discriminate].
        apply IH in H as [[Hall Hg]|(crossed & hop & rest & Eh & Hc & Hn & Hf & Hg)].
        -- left. split; [constructor; [exists best_pool; exact Eb | exact Hall]|].
           cbn [length]. rewrite gas_after_S. exact Hg.
        -- right. exists ((from_token, to_token) :: crossed), hop, rest.
           split; [rewrite Eh; reflexivity|].
           split; [constructor; [exists best_pool; exact Eb | exact Hc]|].
           split; [exact Hn|]. split; [exact Hf|].
           cbn [length]. rewrite gas_after_S. exact Hg.
      * injection H as <- <-. right.
        exists [], (from_token, to_token), (hops (to_token :: path)).
        repeat split; [constructor | exact Eb].
Qed.

Lemma tradable_not_no_pool (hop : string * string) :
  tradable pools hop -> no_pool pools hop -> False.
Proof. intros [pool H] Hn. unfold no_pool in Hn. congruence. Qed.

End Walk.

(** ** The sweep over the candidate amounts *)

Lemma keep_best_fold (cands : list (Q * Q)) (best : Q * Q) :
  let r := foldl keep_best best cands in
  best.1 <= r.1 /\
  Forall (fun cand => cand.2 <= r.1) cands /\
  (r = best \/ exists cand, cand ∈ cands /\ r = (cand.2, cand.1) /\ best.1 < cand.2).
Proof.
  revert best. induction cands as [|cand cands IH]; intros best; cbn [foldl].
  - split; [lra|]. split; [constructor | left; reflexivity].
  - destruct (IH (keep_best best cand)) as (H1 & H2 & H3). cbv zeta.
    set (r := foldl keep_best (keep_best best cand) cands) in *.
    unfold keep_best in H1, H3. destruct (Decimal.gtb cand.2 best.1) eqn:E.
    + apply gtb_gt in E. cbn [fst snd] in *. split; [lra|].
      split; [constructor; [exact H1 | exact H2]|].
      right. destruct H3 as [H3|(c & Hc & Hr & Hlt)].
      * exists cand. split; [apply list_elem_of_here|]. split; [exact H3 | exact E].
      * exists c. split; [apply list_elem_of_further; exact Hc|].
        split; [exact Hr | lra].
    + apply gtb_le in E. split; [exact H1|].
      split; [constructor; [lra | exact H2]|].
      destruct H3 as [H3|(c & Hc & Hr & Hlt)]; [left; exact H3|].
      right. exists c. split; [apply list_elem_of_further; exact Hc|].
      split; [exact Hr | exact Hlt].
Qed.

Lemma sweep_step_ok (self : Optimizer.ArbitrageOptimizer) (path : list string)
  (pools : list Optimizer.PoolInfo) (best r : Q * Q) (amount : Q) :
  Optimizer.sweep_step self path pools best amount = Ok r ->
  exists n,
    Optimizer.candidate_net_profit self path pools amount = Ok n /\
    r = keep_best best (amount, n).
Proof.
  unfold Optimizer.sweep_step, keep_best. cbn [fst snd].
  destruct (Optimizer.candidate_net_profit self path pools amount) as [n|];
    cbn [mbind result_bind]; [|discriminate].
  intros H. exists n. split; [reflexivity|].
  destruct (Decimal.gtb n best.1); injection H as <-; reflexivity.
Qed.

Lemma sweep_for_each (self : Optimizer.ArbitrageOptimizer) (path : list string)
  (pools : list Optimizer.PoolInfo) (amounts : list Q) :
  forall best r,
    for_each (Optimizer.sweep_step self path pools) amounts best = Ok r ->
    exists nets,
      Forall2 (fun amount n =>
                 Optimizer.candidate_net_profit self path pools amount = Ok n)
              amounts nets /\
      r = foldl keep_best best (zip amounts nets).
Proof.
  induction amounts as [|amount amounts IH]; intros best r; cbn [for_each].
  - intros [= <-]. exists []. split; [constructor | reflexivity].
  - destruct (Optimizer.sweep_step self path pools best amount) as [b|] eqn:E;
      cbn [mbind result_bind]; [|discriminate].
    apply sweep_step_ok in E as (n & En & ->). intros H.
    destruct (IH _ _ H) as (nets & Hn & ->).
    exists (n :: nets). split; [constructor; assumption | reflexivity].
Qed.

(** The analysis returns the result of the sweep over the net profits of
    the four candidate amounts. *)
Lemma analyze_sweep (self : Optimizer.ArbitrageOptimizer) (path : list string)
  (pools : list Optimizer.PoolInfo) (r : Optimizer.ProfitAnalysis) :
  Optimizer._analyze_triangular_profit self path pools = Ok r ->
  exists n1 n2 n3 n4,
    Optimizer.candidate_net_profit self path pools 100 = Ok n1 /\
    Optimizer.candidate_net_profit self path pools 1000 = Ok n2 /\
    Optimizer.candidate_net_profit self path pools 10000 = Ok n3 /\
    Optimizer.candidate_net_profit self path pools 100000 = Ok n4 /\
    (Optimizer.net_profit r, Optimizer.optimal_amount r)
    = sweep_result [(100, n1); (1000, n2); (10000, n3); (100000, n4)].
Proof.
  unfold Optimizer._analyze_triangular_profit.
  destruct (for_each _ Optimizer.test_amounts (0, 1000)) as [[bp ba]|] eqn:E;
    cbn [mbind result_bind]; [|discriminate].
  destruct (Optimizer._calculate_confidence path pools);
    cbn [mbind result_bind]; [|discriminate].
  intros [= <-]. cbn [Optimizer.net_profit Optimizer.optimal_amount].
  apply sweep_for_each in E as (nets & Hn & ->).
  unfold Optimizer.test_amounts in Hn.
  apply Forall2_cons_inv_l in Hn as (n1 & nets1 & H1 & Hn & ->).
  apply Forall2_cons_inv_l in Hn as (n2 & nets2 & H2 & Hn & ->).
  apply Forall2_cons_inv_l in Hn as (n3 & nets3 & H3 & Hn & ->).
  apply Forall2_cons_inv_l in Hn as (n4 & nets4 & H4 & Hn & ->).
  apply Forall2_nil_inv_l in Hn as ->.
  exists n1, n2, n3, n4. repeat split; assumption.
Qed.

Lemma Qmax_unique (x a b : Q) :
  a <= x -> b <= x -> x == a \/ x == b -> x == Qmax a b.
Proof.
  intros Ha Hb Hx. destruct (Q.max_spec a b) as [[L E]|[L E]]; rewrite E;
    destruct Hx as [Hx|Hx]; lra.
Qed.

Lemma default_exact_hop_costs (self : Optimizer.ArbitrageOptimizer) (n : nat) :
  Optimizer.gas_price_estimate self == 0.01 ->
  (Z.of_nat n < 10 ^ 28)%Z ->
  exact_hop_costs self n.
Proof.
  intros Hg Hn j Hj. exists (Z.of_nat j), (-2)%Z. split.
  - unfold Decimal.prec. lia.
  - rewrite Hg. reflexivity.
Qed.

(** ** The analysis returns on well-formed pools *)

Section Returns.
Context (self : Optimizer.ArbitrageOptimizer) (pools : list Optimizer.PoolInfo).
Hypothesis pools_well_formed : Forall well_formed pools.

Lemma best_pool_step_returns (from_token to_token : string)
  (best : option Optimizer.PoolInfo * Q) (pool : Optimizer.PoolInfo) :
  well_formed pool ->
  (forall p, best.1 = Some p -> well_formed p) ->
  exists best',
    Optimizer.best_pool_step from_token to_token best pool = Ok best' /\
    (forall p, best'.1 = Some p -> well_formed p).
Proof.
  intros (Ha & Hb & Hf) Hbest. unfold Optimizer.best_pool_step.
  destruct (_ || _); [|eauto].
  destruct (String.eqb (Optimizer.token_a pool) from_token).
  - rewrite div_nonzero by lra. cbn [mbind result_bind].
    destruct (Decimal.gtb _ _); [|eauto].
    eexists. split; [reflexivity|]. intros p [= <-]. repeat split; tauto.
  - rewrite div_nonzero by lra. cbn [mbind result_bind].
    destruct (Decimal.gtb _ _); [|eauto].
    eexists. split; [reflexivity|]. intros p [= <-]. repeat split; tauto.
Qed.

Lemma find_best_pool_returns (from_token to_token : string) :
  exists best,
    Optimizer._find_best_pool from_token to_token pools = Ok best /\
    (forall p, best = Some p -> well_formed p).
Proof.
  unfold Optimizer._find_best_pool.
  assert (G : forall l best,
             Forall well_formed l ->
             (forall p, best.1 = Some p -> well_formed p) ->
             exists best',
               for_each (Optimizer.best_pool_step from_token to_token) l best
                 = Ok best' /\
               (forall p, best'.1 = Some p -> well_formed p)).
  { induction l as [|pool l IH]; intros best Hl Hb; cbn [for_each]; [eauto|].
    apply Forall_cons in Hl as [Hp Hl].
    destruct (best_pool_step_returns from_token to_token best pool Hp Hb)
      as (best1 & -> & Hb1).
    cbn [mbind result_bind]. apply IH; assumption. }
  destruct (G pools (None, 0) pools_well_formed) as (best & -> & Hb);
    [intros p H; discriminate|].
  cbn [mbind result_bind]. eauto.
Qed.

Lemma swap_output_returns (input_amount : Q) (pool : Optimizer.PoolInfo)
  (a_to_b : bool) :
  well_formed pool -> 0 <= input_amount ->
  exists out,
    Optimizer._calculate_swap_output input_amount pool a_to_b = Ok out /\ 0 <= out.
Proof.
  intros (Ha & Hb & Hf0 & Hf1) Hx. unfold Optimizer._calculate_swap_output.
  set (r := if a_to_b then Optimizer.reserve_a pool else Optimizer.reserve_b pool).
  set (R := if a_to_b then Optimizer.reserve_b pool else Optimizer.reserve_a pool).
  assert (Hr : 0 < r) by (unfold r; destruct a_to_b; assumption).
  assert (HR : 0 < R) by (unfold R; destruct a_to_b; assumption).
  assert (Hc : 0 < Decimal.sub 1 (Optimizer.fee pool))
    by (apply DecimalFacts.round_ctx_pos; lra).
  assert (Ht : 0 <= Decimal.mul input_amount (Decimal.sub 1 (Optimizer.fee pool))).
  { apply DecimalFacts.round_ctx_nonneg. apply Qmult_le_0_compat; lra. }
  set (t := Decimal.mul input_amount (Decimal.sub 1 (Optimizer.fee pool))) in *.
  assert (Hd : 0 < Decimal.add r t) by (apply DecimalFacts.round_ctx_pos; lra).
  assert (Hn : 0 <= Decimal.mul t R).
  { apply DecimalFacts.round_ctx_nonneg. apply Qmult_le_0_compat; lra. }
  rewrite div_nonzero by lra. eexists. split; [reflexivity|].
  apply DecimalFacts.round_ctx_nonneg. apply Qle_shift_div_l; lra.
Qed.

Lemma simulate_hops_returns (path : list string) :
  forall current_amount gas_cost,
    0 <= current_amount ->
    exists res,
      Optimizer.simulate_hops self path pools current_amount gas_cost = Ok res.
Proof.
  induction path as [|from_token path IH]; intros cur gas Hc; [simpl; eauto|].
  destruct path as [|to_token path]; [simpl; eauto|].
  cbn [Optimizer.simulate_hops].
  destruct (find_best_pool_returns from_token to_token) as (best & -> & Hb).
  cbn [mbind result_bind]. destruct best as [best_pool|]; [|eauto].
  destruct (swap_output_returns cur best_pool
              (String.eqb from_token (Optimizer.token_a best_pool))
              (Hb _ eq_refl) Hc) as (out & -> & Ho).
  cbn [mbind result_bind]. apply IH. exact Ho.
Qed.

Lemma candidate_net_profit_returns (path : list string) (amount : Q) :
  0 <= amount ->
  exists net, Optimizer.candidate_net_profit self path pools amount = Ok net.
Proof.
  intros Ha. unfold Optimizer.candidate_net_profit.
  destruct (simulate_hops_returns path amount 0 Ha) as ([final gas] & ->).
  cbn [mbind result_bind]. eauto.
Qed.

Lemma calculate_confidence_returns (path : list string) :
  Optimizer._calculate_confidence path pools = Ok tt.
Proof.
  induction path as [|from_token path IH]; [reflexivity|].
  destruct path as [|to_token path]; [reflexivity|].
  cbn [Optimizer._calculate_confidence].
  destruct (find_best_pool_returns from_token to_token) as (best & -> & _).
  cbn [mbind result_bind]. exact IH.
Qed.

(** On pools with positive reserves and fee rates in [0, 1) the analysis
    raises no exception. *)
Lemma analyze_triangular_profit_returns (path : list string) :
  exists r, Optimizer._analyze_triangular_profit self path pools = Ok r.
Proof.
  unfold Optimizer._analyze_triangular_profit.
  assert (G : forall amounts best,
             Forall (fun a => 0 <= a) amounts ->
             exists best',
               for_each (Optimizer.sweep_step self path pools) amounts best = Ok best').
  { induction amounts as [|a amounts IH]; intros best Ha; cbn [for_each]; [eauto|].
    apply Forall_cons in Ha as [Ha Has].
    unfold Optimizer.sweep_step at 2.
    destruct (candidate_net_profit_returns path a Ha) as [net ->].
    cbn [mbind result_bind].
    destruct (Decimal.gtb net best.1); cbn [mbind result_bind]; apply IH; exact Has. }
  destruct (G Optimizer.test_amounts (0, 1000)) as ([bp ba] & ->).
  { unfold Optimizer.test_amounts. repeat constructor; discriminate. }
  cbn [mbind result_bind]. rewrite calculate_confidence_returns.
  cbn [mbind result_bind]. eauto.
Qed.

End Returns.

(** ** C10: the net profit of the analysis is never negative *)

(** C10. When the analysis returns, its net profit is the maximum of zero
    and the net profits of the four candidate amounts, so it is not
    negative; and when no candidate has a positive net profit, the net
    profit is 0 and the optimal amount is the default 1000. *)
Theorem C10_net_profit_not_negative (self : Optimizer.ArbitrageOptimizer)
  (path : list string) (pools : list Optimizer.PoolInfo)
  (r : Optimizer.ProfitAnalysis) :
  Optimizer._analyze_triangular_profit self path pools = Ok r ->
  exists n1 n2 n3 n4,
    Optimizer.candidate_net_profit self path pools 100 = Ok n1 /\
    Optimizer.candidate_net_profit self path pools 1000 = Ok n2 /\
    Optimizer.candidate_net_profit self path pools 10000 = Ok n3 /\
    Optimizer.candidate_net_profit self path pools 100000 = Ok n4 /\
    0 <= Optimizer.net_profit r /\
    Optimizer.net_profit r == Qmax 0 (Qmax n1 (Qmax n2 (Qmax n3 n4))) /\
    (n1 <= 0 -> n2 <= 0 -> n3 <= 0 -> n4 <= 0 ->
     Optimizer.net_profit r = 0 /\ Optimizer.optimal_amount r = 1000).
Proof.
  intros H. apply analyze_sweep in H as (n1 & n2 & n3 & n4 & H1 & H2 & H3 & H4 & E).
  exists n1, n2, n3, n4. do 4 (split; [assumption|]).
  destruct (keep_best_fold [(100, n1); (1000, n2); (10000, n3); (100000, n4)] (0, 1000))
    as (Hlo & Hall & Hsel).
  fold (sweep_result [(100, n1); (1000, n2); (10000, n3); (100000, n4)]) in *.
  rewrite <- E in *. cbn [fst snd] in *.
  apply Forall_cons in Hall as [A1 Hall]. apply Forall_cons in Hall as [A2 Hall].
  apply Forall_cons in Hall as [A3 Hall]. apply Forall_cons in Hall as [A4 _].
  cbn [fst snd] in *. split; [exact Hlo|]. split.
  - assert (Hcase : Optimizer.net_profit r == 0 \/ Optimizer.net_profit r == n1 \/
                    Optimizer.net_profit r == n2 \/ Optimizer.net_profit r == n3 \/
                    Optimizer.net_profit r == n4).
    { destruct Hsel as [Hs|(c & Hc & Hs & _)]; injection Hs as -> _;
        [left; reflexivity | right].
      repeat (apply elem_of_cons in Hc as [->|Hc]); cbn [snd];
        [left | right; left | right; right; left | right; right; right | inversion Hc];
        reflexivity. }
    assert (M34 : Qmax n3 n4 <= Optimizer.net_profit r)
      by (apply Q.max_lub; assumption).
    assert (M234 : Qmax n2 (Qmax n3 n4) <= Optimizer.net_profit r)
      by (apply Q.max_lub; assumption).
    assert (M1234 : Qmax n1 (Qmax n2 (Qmax n3 n4)) <= Optimizer.net_profit r)
      by (apply Q.max_lub; assumption).
    apply Qmax_unique; [exact Hlo | exact M1234|].
    destruct Hcase as [Hc|Hc]; [left; exact Hc | right].
    apply Qle_antisym; [|exact M1234].
    pose proof (Q.le_max_l n1 (Qmax n2 (Qmax n3 n4))) as L1.
    pose proof (Q.le_max_r n1 (Qmax n2 (Qmax n3 n4))) as R1.
    pose proof (Q.le_max_l n2 (Qmax n3 n4)) as L2.
    pose proof (Q.le_max_r n2 (Qmax n3 n4)) as R2.
    pose proof (Q.le_max_l n3 n4) as L3. pose proof (Q.le_max_r n3 n4) as R3.
    destruct Hc as [Hc|[Hc|[Hc|Hc]]]; rewrite Hc; lra.
  - intros N1 N2 N3 N4.
    destruct Hsel as [Hs|(c & Hc & _ & Hpos)];
      [injection Hs as -> ->; split; reflexivity|].
    exfalso. repeat (apply elem_of_cons in Hc as [->|Hc]); cbn [fst snd] in Hpos;
      [lra | lra | lra | lra | inversion Hc].
Qed.

(** A use of C10: on the example pools no candidate amount of the example
    path is profitable, and the analysis reports 0 and 1000. *)
Lemma C10_net_profit_not_negative_witness :
  exists r,
    Optimizer._analyze_triangular_profit Optimizer.__init__ example_path example_pools
      = Ok r /\
    exists n1 n2 n3 n4,
      Optimizer.candidate_net_profit Optimizer.__init__ example_path example_pools 100
        = Ok n1 /\
      Optimizer.candidate_net_profit Optimizer.__init__ example_path example_pools 1000
        = Ok n2 /\
      Optimizer.candidate_net_profit Optimizer.__init__ example_path example_pools 10000
        = Ok n3 /\
      Optimizer.candidate_net_profit Optimizer.__init__ example_path example_pools 100000
        = Ok n4 /\
      0 <= Optimizer.net_profit r /\
      Optimizer.net_profit r == Qmax 0 (Qmax n1 (Qmax n2 (Qmax n3 n4))) /\
      (n1 <= 0 -> n2 <= 0 -> n3 <= 0 -> n4 <= 0 ->
       Optimizer.net_profit r = 0 /\ Optimizer.optimal_amount r = 1000).
Proof.
  eexists. split; [vm_compute; reflexivity|].
  apply (C10_net_profit_not_negative Optimizer.__init__ example_path example_pools).
  vm_compute. reflexivity.
Defined.

(** ** C5: the candidates of a triangular path *)

Lemma no_pool_not_all_tradable (pools : list Optimizer.PoolInfo)
  (crossed rest : list (string * string)) (hop : string * string) :
  no_pool pools hop -> Forall (tradable pools) (crossed ++ hop :: rest) -> False.
Proof.
  intros Hn Hall. apply Forall_app in Hall as [_ Hall].
  apply Forall_cons in Hall as [Ht _]. exact (tradable_not_no_pool _ _ Ht Hn).
Qed.

(** The walk stops at the first hop without a pool. *)
Lemma first_no_pool (pools : list Optimizer.PoolInfo)
  (hs crossed rest : list (string * string)) (hop : string * string) :
  hs = crossed ++ hop :: rest -> (length crossed < length hs)%nat.
Proof. intros ->. rewrite length_app. simpl. lia. Qed.

(** C5, as stated, fails: on a path whose second hop has no pool, the net
    profit of the candidate 100 is -100.01, not zero. *)
Lemma C5_missing_pool_profit_not_zero :
  let pools := take 1 example_pools in
  no_pool pools ("USDC", "RAY")%string /\
  Optimizer.candidate_net_profit Optimizer.__init__ example_path pools 100
    = Ok (-100.01) /\
  ~ -100.01 == 0.
Proof.
  cbv zeta. split; [vm_compute; reflexivity|].
  split; [vm_compute; reflexivity | discriminate].
Qed.

(** C5, amended.  For a path of [k] hops and a hop cost that adds up
    without rounding:
    - when every hop has a tradable pool, the net profit of a candidate
      amount is [final - amount - k * hop_cost], in decimal arithmetic;
    - when some hop has no pool, the walk stops at the first such hop, after
      [j < k] hops, with a final amount of zero, and the net profit is
      [0 - amount - j * hop_cost], negative for a positive amount and a
      hop cost that is not negative;
    - the analysis reports a net profit no candidate exceeds, and when that
      is positive, the candidate amount that earns it;
    - the analysis is a function of the optimizer, the path and the
      pools. *)
Theorem C5_triangular_candidates (self : Optimizer.ArbitrageOptimizer)
  (path : list string) (pools : list Optimizer.PoolInfo) :
  let k := length (hops path) in
  let hop_cost := Optimizer.gas_price_estimate self in
  (forall amount net,
     exact_hop_costs self k ->
     Optimizer.candidate_net_profit self path pools amount = Ok net ->
     (Forall (tradable pools) (hops path) ->
      exists final gas,
        Optimizer.simulate_hops self path pools amount 0 = Ok (final, gas) /\
        gas == inject_Z (Z.of_nat k) * hop_cost /\
        net = Decimal.sub (Decimal.sub final amount) gas) /\
     (Exists (no_pool pools) (hops path) ->
      exists (j : nat) gas,
        (j < k)%nat /\
        Optimizer.simulate_hops self path pools amount 0 = Ok (0, gas) /\
        gas == inject_Z (Z.of_nat j) * hop_cost /\
        net = Decimal.sub (Decimal.sub 0 amount) gas /\
        (0 < amount -> 0 <= hop_cost -> net < 0) /\
        (exists crossed hop rest,
           hops path = crossed ++ hop :: rest /\ length crossed = j /\
           Forall (tradable pools) crossed /\ no_pool pools hop))) /\
  (forall r,
     Optimizer._analyze_triangular_profit self path pools = Ok r ->
     Forall (fun amount =>
               exists n,
                 Optimizer.candidate_net_profit self path pools amount = Ok n /\
                 n <= Optimizer.net_profit r)
            Optimizer.test_amounts /\
     (0 < Optimizer.net_profit r ->
      Optimizer.optimal_amount r ∈ Optimizer.test_amounts /\
      Optimizer.candidate_net_profit self path pools (Optimizer.optimal_amount r)
        = Ok (Optimizer.net_profit r))) /\
  (forall r1 r2,
     Optimizer._analyze_triangular_profit self path pools = Ok r1 ->
     Optimizer._analyze_triangular_profit self path pools = Ok r2 ->
     r1 = r2).
Proof.
  cbv zeta. split; [|split].
  - intros amount net Hexact Hnet. unfold Optimizer.candidate_net_profit in Hnet.
    destruct (Optimizer.simulate_hops self path pools amount 0)
      as [[final gas]|] eqn:Hsim; cbn [mbind result_bind] in Hnet; [|discriminate].
    injection Hnet as <-.
    apply simulate_hops_spec in Hsim
      as [[Hall Hg]|(crossed & hop & rest & Eh & Hc & Hn & Hf & Hg)].
    + split.
      * intros _. exists final, gas. split; [reflexivity|].
        split; [|reflexivity]. rewrite Hg. apply gas_after_exact. exact Hexact.
      * intros Hex. exfalso. apply Exists_exists in Hex as (hop & Hin & Hn).
        rewrite Forall_forall in Hall. exact (tradable_not_no_pool _ _ (Hall _ Hin) Hn).
    + split.
      * intros Hall. exfalso. rewrite Eh in Hall.
        exact (no_pool_not_all_tradable _ _ _ _ Hn Hall).
      * intros _. pose proof (first_no_pool pools _ _ _ _ Eh) as Hj.
        assert (Egas : gas == inject_Z (Z.of_nat (length crossed))
                              * Optimizer.gas_price_estimate self).
        { rewrite Hg. apply gas_after_exact. intros j Hjj. apply Hexact. lia. }
        exists (length crossed), gas. subst final.
        split; [exact Hj|]. split; [reflexivity|]. split; [exact Egas|].
        split; [reflexivity|]. split.
        -- intros Ha Hc0.
           unfold Decimal.sub. apply DecimalFacts.round_ctx_neg.
           assert (Hneg : Decimal.round_ctx (0 - amount) < 0)
             by (apply DecimalFacts.round_ctx_neg; lra).
           assert (0 <= gas); [|lra]. rewrite Egas.
           apply Qmult_le_0_compat; [|exact Hc0].
           change 0 with (inject_Z 0). rewrite <- Zle_Qle. lia.
        -- exists crossed, hop, rest. repeat split; assumption.
  - intros r Hr.
    apply analyze_sweep in Hr as (n1 & n2 & n3 & n4 & H1 & H2 & H3 & H4 & E).
    destruct (keep_best_fold [(100, n1); (1000, n2); (10000, n3); (100000, n4)]
                (0, 1000)) as (Hlo & Hall & Hsel).
    fold (sweep_result [(100, n1); (1000, n2); (10000, n3); (100000, n4)]) in *.
    rewrite <- E in *. cbn [fst snd] in *.
    apply Forall_cons in Hall as [A1 Hall]. apply Forall_cons in Hall as [A2 Hall].
    apply Forall_cons in Hall as [A3 Hall]. apply Forall_cons in Hall as [A4 _].
    cbn [fst snd] in *. split.
    + unfold Optimizer.test_amounts. repeat constructor; eauto.
    + intros Hpos. destruct Hsel as [Hs|(c & Hc & Hs & _)]; injection Hs as Hn Ha.
      * rewrite Hn in Hpos. lra.
      * rewrite Hn, Ha. unfold Optimizer.test_amounts.
        repeat (apply elem_of_cons in Hc as [->|Hc]); cbn [fst snd];
          [| | | |inversion Hc]; (split; [|assumption]).
        -- apply list_elem_of_here.
        -- do 1 apply list_elem_of_further. apply list_elem_of_here.
        -- do 2 apply list_elem_of_further. apply list_elem_of_here.
        -- do 3 apply list_elem_of_further. apply list_elem_of_here.
  - intros r1 r2 H1 H2. congruence.
Qed.

Lemma example_hops_tradable : Forall (tradable example_pools) (hops example_path).
Proof. repeat constructor; eexists; vm_compute; reflexivity. Qed.

(** A use of C5 on the example path: three tradable hops, and the hop cost
    0.01 of the default optimizer. *)
Lemma C5_triangular_candidates_witness :
  exists net final gas,
    Optimizer.candidate_net_profit Optimizer.__init__ example_path example_pools 100
      = Ok net /\
    Optimizer.simulate_hops Optimizer.__init__ example_path example_pools 100 0
      = Ok (final, gas) /\
    gas == 0.03 /\
    net = Decimal.sub (Decimal.sub final 100) gas.
Proof.
  assert (Hnet : exists net,
            Optimizer.candidate_net_profit Optimizer.__init__ example_path
              example_pools 100 = Ok net)
    by (eexists; vm_compute; reflexivity).
  destruct Hnet as [net Hnet]. exists net.
  assert (Hexact : exact_hop_costs Optimizer.__init__ (length (hops example_path))).
  { apply default_exact_hop_costs; [reflexivity | vm_compute; reflexivity]. }
  destruct (C5_triangular_candidates Optimizer.__init__ example_path example_pools)
    as [Hcand _].
  destruct (Hcand 100 net Hexact Hnet) as [Hall _].
  destruct (Hall example_hops_tradable) as (final & gas & Hsim & Hgas & Hn).
  exists final, gas. split; [exact Hnet|]. split; [exact Hsim|].
  split; [exact Hgas | exact Hn].
Defined.

(** ** C8: the report of price differences *)

Section SortedAscending.
Context {A : Type} (key : A -> Q).

Lemma insert_by_perm (x : A) (l : list A) : insert_by key x l ≡ₚ x :: l.
Proof.
  induction l as [|y l IH]; simpl; [reflexivity|].
  destruct (Decimal.ltb (key y) (key x)); [|reflexivity].
  rewrite IH. apply perm_swap.
Qed.

Lemma sorted_perm (l : list A) : sorted key l ≡ₚ l.
Proof.
  induction l as [|x l IH]; simpl; [reflexivity|].
  rewrite insert_by_perm, IH. reflexivity.
Qed.

End SortedAscending.

Lemma lowest_elem (price_list : list MarketData.PriceData) (lo : MarketData.PriceData) :
  lowest price_list = Some lo -> lo ∈ price_list.
Proof.
  unfold lowest. intros H. rewrite <- (sorted_perm MarketData.price price_list).
  destruct (sorted MarketData.price price_list); [discriminate|].
  injection H as ->. apply list_elem_of_here.
Qed.

Lemma highest_elem (price_list : list MarketData.PriceData) (hi : MarketData.PriceData) :
  highest price_list = Some hi -> hi ∈ price_list.
Proof.
  unfold highest. intros H. rewrite <- (sorted_perm MarketData.price price_list).
  apply last_Some in H as [l' ->]. apply elem_of_app. right. apply list_elem_of_here.
Qed.

Lemma lowest_highest_some (price_list : list MarketData.PriceData) :
  (2 <= length price_list)%nat ->
  exists lo hi, lowest price_list = Some lo /\ highest price_list = Some hi.
Proof.
  intros H. unfold lowest, highest.
  pose proof (Permutation_length (sorted_perm MarketData.price price_list)) as L.
  destruct (sorted MarketData.price price_list) as [|x l] eqn:E; [simpl in L; lia|].
  exists x. destruct (last (x :: l)) as [hi|] eqn:El.
  - exists hi. split; reflexivity.
  - apply last_None in El. discriminate.
Qed.

(** One step of the loop adds the row of the symbol, or nothing. *)
Lemma price_difference_step_ok (differences out : list MarketData.PriceDifference)
  (item : string * list MarketData.PriceData) :
  MarketData.price_difference_step differences item = Ok out ->
  (out = differences /\
   ((length item.2 < 2)%nat \/
    exists pct, percentage_delta item.2 = Ok pct /\ pct <= float_0_1)) \/
  (exists row, out = differences ++ [row] /\ row_of item row).
Proof.
  destruct item as [sym price_list]. unfold MarketData.price_difference_step.
  cbn [fst snd]. destruct (2 <=? length price_list)%nat eqn:L.
  - apply Nat.leb_le in L.
    destruct (lowest_highest_some price_list L) as (lo & hi & Hlo & Hhi).
    unfold row_of, percentage_delta. cbn [fst snd]. rewrite Hlo, Hhi.
    unfold lowest, highest in Hlo, Hhi. rewrite Hlo, Hhi.
    destruct (MarketData.percentage_diff lo hi) as [pct|];
      cbn [mbind result_bind]; [|discriminate].
    destruct (Decimal.gtb pct float_0_1) eqn:G; intros [= <-].
    + right. eexists. split; [reflexivity|]. cbn.
      apply gtb_gt in G. repeat split; [exact L | exact G].
    + left. split; [reflexivity|]. right. exists pct.
      apply gtb_le in G. split; [reflexivity | exact G].
  - apply Nat.leb_gt in L. intros [= <-]. left. split; [reflexivity | left; exact L].
Qed.

Lemma price_differences_loop (all_prices : MarketData.snapshot) :
  forall acc out,
    for_each MarketData.price_difference_step all_prices acc = Ok out ->
    exists new,
      out = acc ++ new /\
      (forall row, row ∈ new -> exists item, item ∈ all_prices /\ row_of item row) /\
      (forall item pct,
         item ∈ all_prices -> (2 <= length item.2)%nat ->
         percentage_delta item.2 = Ok pct -> float_0_1 < pct ->
         reported new item.1 pct).
Proof.
  induction all_prices as [|item items IH]; intros acc out; cbn [for_each].
  - intros [= <-]. exists []. rewrite app_nil_r. split; [reflexivity|].
    split; [intros row Hr; inversion Hr | intros item pct Hi; inversion Hi].
  - destruct (MarketData.price_difference_step acc item) as [acc'|] eqn:E;
      cbn [mbind result_bind]; [|discriminate].
    intros H. destruct (IH _ _ H) as (new & -> & Hsound & Hcomplete).
    apply price_difference_step_ok in E
      as [[-> Hnone]|(row & -> & Hrow)].
    + exists new. split; [reflexivity|]. split.
      * intros row Hr. destruct (Hsound row Hr) as (it & Hit & Hrow).
        exists it. split; [apply list_elem_of_further; exact Hit | exact Hrow].
      * intros it pct Hit L Hp Hgt. apply elem_of_cons in Hit as [->|Hit].
        -- exfalso. destruct Hnone as [Hs|(pct' & Hp' & Hle)]; [lia|].
           rewrite Hp in Hp'. injection Hp' as <-. lra.
        -- apply Hcomplete; assumption.
    + exists (row :: new). rewrite <- app_assoc. split; [reflexivity|]. split.
      * intros r Hr. apply elem_of_cons in Hr as [->|Hr].
        -- exists item. split; [apply list_elem_of_here | exact Hrow].
        -- destruct (Hsound r Hr) as (it & Hit & Hr').
           exists it. split; [apply list_elem_of_further; exact Hit | exact Hr'].
      * intros it pct Hit L Hp Hgt. apply elem_of_cons in Hit as [->|Hit].
        -- exists row. split; [apply list_elem_of_here|].
           destruct Hrow as (_ & Hs & Hp' & _). split; [exact Hs|].
           rewrite Hp in Hp'. injection Hp' as ->. reflexivity.
        -- destruct (Hcomplete it pct Hit L Hp Hgt) as (r & Hr & Hs & Hpr).
           exists r. split; [apply list_elem_of_further; exact Hr|].
           split; assumption.
Qed.

Lemma percentage_diff_total (lo hi : MarketData.PriceData) :
  ~ MarketData.price lo == 0 ->
  exists pct, MarketData.percentage_diff lo hi = Ok pct.
Proof.
  intros H. unfold MarketData.percentage_diff. rewrite div_nonzero by exact H.
  cbn [mbind result_bind]. eauto.
Qed.

Lemma price_differences_total (all_prices : MarketData.snapshot) :
  (forall item lo, item ∈ all_prices -> (2 <= length item.2)%nat ->
                   lowest item.2 = Some lo -> ~ MarketData.price lo == 0) ->
  forall acc, exists out,
    for_each MarketData.price_difference_step all_prices acc = Ok out.
Proof.
  induction all_prices as [|[sym price_list] items IH]; intros H acc;
    cbn [for_each]; [eauto|].
  assert (S : exists acc', MarketData.price_difference_step acc (sym, price_list)
                           = Ok acc').
  { unfold MarketData.price_difference_step.
    destruct (2 <=? length price_list)%nat eqn:L; [|eauto].
    apply Nat.leb_le in L.
    destruct (lowest_highest_some price_list L) as (lo & hi & Hlo & Hhi).
    pose proof (H (sym, price_list) lo (list_elem_of_here _ _) L Hlo) as Hnz.
    unfold lowest, highest in Hlo, Hhi. rewrite Hlo, Hhi.
    destruct (percentage_diff_total lo hi Hnz) as [pct ->].
    cbn [mbind result_bind]. destruct (Decimal.gtb pct float_0_1); eauto. }
  destruct S as [acc' ->]. cbn [mbind result_bind]. apply IH.
  intros item lo Hi. apply H. apply list_elem_of_further. exact Hi.
Qed.

(** Quotes with one price have a percentage delta of zero. *)
Lemma percentage_delta_identical (price_list : list MarketData.PriceData)
  (p pct : Q) :
  Forall (fun q => MarketData.price q == p) price_list ->
  percentage_delta price_list = Ok pct -> pct == 0.
Proof.
  intros Hall. unfold percentage_delta.
  destruct (lowest price_list) as [lo|] eqn:Hlo; [|discriminate].
  destruct (highest price_list) as [hi|] eqn:Hhi; [|discriminate].
  apply lowest_elem in Hlo. apply highest_elem in Hhi.
  rewrite Forall_forall in Hall.
  pose proof (Hall lo Hlo) as Plo. pose proof (Hall hi Hhi) as Phi.
  unfold MarketData.percentage_diff.
  destruct (Decimal.div _ _) as [ratio|] eqn:D; cbn [mbind result_bind];
    [|discriminate].
  intros [= <-]. apply div_ok in D as [Hnz ->].
  unfold Decimal.mul, Decimal.sub.
  assert (E0 : MarketData.price hi - MarketData.price lo == 0) by lra.
  rewrite (DecimalFacts.round_ctx_zero _ E0).
  assert (E1 : 0 / MarketData.price lo == 0) by (field; exact Hnz).
  rewrite (DecimalFacts.round_ctx_comp _ _ E1).
  rewrite (DecimalFacts.round_ctx_zero 0) by reflexivity.
  apply DecimalFacts.round_ctx_zero. ring.
Qed.

Lemma float_0_1_above : 0.1 < float_0_1.
Proof. reflexivity. Qed.

Lemma float_0_1_below : float_0_1 < 0.10000000000000001.
Proof. reflexivity. Qed.

Lemma NoDup_fst_unique {A B : Type} (l : list (A * B)) (x : A) (y1 y2 : B) :
  NoDup l.*1 -> (x, y1) ∈ l -> (x, y2) ∈ l -> y1 = y2.
Proof.
  induction l as [|[x' y'] l IH]; intros Hn H1 H2; [inversion H1|].
  cbn [fmap list_fmap fst] in Hn. apply NoDup_cons in Hn as [Hx Hn].
  apply elem_of_cons in H1 as [E1|H1]; apply elem_of_cons in H2 as [E2|H2].
  - congruence.
  - exfalso. apply Hx. apply list_elem_of_fmap. exists (x, y2).
    split; [cbn; congruence | exact H2].
  - exfalso. apply Hx. apply list_elem_of_fmap. exists (x, y1).
    split; [cbn; congruence | exact H1].
  - apply IH; assumption.
Qed.


(** The threshold is the [float] 0.1, a little above the decimal 0.1: a
    delta of 0.1000000000000000000000001 percent is not reported. *)
Lemma C8_float_threshold :
  let price_list := [quote "SOL/USDC" 1 8000000 "Orca";
                     quote "SOL/USDC" 1.001000000000000000000000001 8000000 "Raydium"] in
  percentage_delta price_list = Ok 0.1000000000000000000000001 /\
  0.1 < 0.1000000000000000000000001 /\
  MarketData.get_price_differences [("SOL/USDC", price_list)] = Ok [].
Proof. cbv zeta. repeat split; vm_compute; reflexivity. Qed.



(** ** C1: the output of a swap *)

Lemma Qmult_le_mono_l (a b c : Q) : 0 <= a -> b <= c -> a * b <= a * c.
Proof. intros Ha H. rewrite !(Qmult_comm a). apply Qmult_le_compat_r; assumption. Qed.

Lemma Qmult_le_mono_r (a b c : Q) : 0 <= a -> b <= c -> b * a <= c * a.
Proof. intros Ha H. apply Qmult_le_compat_r; assumption. Qed.

Lemma Qmult_nonneg (a b : Q) : 0 <= a -> 0 <= b -> 0 <= a * b.
Proof. apply Qmult_le_0_compat. Qed.

Lemma swap_upper (t t' R r N D q out hi lo K : Q) :
  0 < t -> 0 < R -> 0 < r -> 1 <= hi -> 0 < lo -> lo <= 1 ->
  hi * hi * hi * hi <= K * lo ->
  0 <= t' -> t' <= t * (hi * hi) ->
  0 <= N -> N <= t' * R * hi ->
  0 < D -> (r + t') * lo <= D ->
  q * D == N ->
  out <= q * hi ->
  out * (r + t) <= t * R * K.
Proof.
  intros Ht HR Hr Hhi Hlo Hlo1 HK Ht'0 Ht' HN0 HN HD0 HD Hq Hout.
  assert (Hq0 : 0 <= q).
  { destruct (Qlt_le_dec q 0) as [H|H]; [|exact H]. exfalso.
    assert (q * D < 0); [|lra].
    setoid_replace 0 with (0 * D) by ring.
    apply Qmult_lt_compat_r; assumption. }
  assert (Hhi0 : 0 <= hi) by lra.
  assert (Hhh : 1 <= hi * hi) by nra.
  assert (Hrt' : 0 < r + t') by lra.
  assert (Hrt : 0 < r + t) by lra.
  assert (P : 0 < (r + t') * lo) by (apply Qmult_lt_0_compat; assumption).
  assert (H1 : q * ((r + t') * lo) <= t' * R * hi).
  { apply Qle_trans with (q * D); [apply Qmult_le_mono_l; assumption | lra]. }
  assert (H2 : out * ((r + t') * lo) <= t' * R * (hi * hi)).
  { apply Qle_trans with (q * hi * ((r + t') * lo)).
    - apply Qmult_le_mono_r; [lra | exact Hout].
    - setoid_replace (q * hi * ((r + t') * lo)) with (q * ((r + t') * lo) * hi) by ring.
      setoid_replace (t' * R * (hi * hi)) with (t' * R * hi * hi) by ring.
      apply Qmult_le_mono_r; assumption. }
  assert (H3 : t' * (hi * hi) * (r + t) <= t * (K * lo) * (r + t')).
  { apply Qle_trans with (t * (hi * hi * hi * hi) * (r + t')).
    - assert (A : t' * (hi * hi) * r <= t * (hi * hi) * (hi * hi) * r).
      { apply Qmult_le_mono_r; [lra|]. apply Qmult_le_mono_r; [lra|]. exact Ht'. }
      assert (B : t' * (hi * hi) * t <= t' * (hi * hi) * (hi * hi) * t).
      { apply Qmult_le_mono_r; [lra|].
        rewrite <- (Qmult_1_r (t' * (hi * hi))) at 1.
        apply Qmult_le_mono_l; [apply Qmult_nonneg; lra | exact Hhh]. }
      lra.
    - apply Qmult_le_mono_r; [lra|]. apply Qmult_le_mono_l; [lra | exact HK]. }
  assert (H4 : out * (r + t) * ((r + t') * lo) <= t * R * K * ((r + t') * lo)).
  { apply Qle_trans with (t' * R * (hi * hi) * (r + t)).
    - setoid_replace (out * (r + t) * ((r + t') * lo))
        with (out * ((r + t') * lo) * (r + t)) by ring.
      apply Qmult_le_mono_r; [lra | exact H2].
    - setoid_replace (t' * R * (hi * hi) * (r + t))
        with (R * (t' * (hi * hi) * (r + t))) by ring.
      setoid_replace (t * R * K * ((r + t') * lo))
        with (R * (t * (K * lo) * (r + t'))) by ring.
      apply Qmult_le_mono_l; [lra | exact H3]. }
  apply (Qmult_le_r _ _ _ P). exact H4.
Qed.

Lemma swap_lower (t t' R r N D q out hi lo K : Q) :
  0 < t -> 0 < R -> 0 < r -> 1 <= hi -> 0 < lo -> lo <= 1 ->
  K * hi <= lo * lo * lo * lo ->
  0 <= t' -> t * (lo * lo) <= t' ->
  t' * R * lo <= N ->
  0 < D -> D <= (r + t') * hi ->
  q * D == N ->
  q * lo <= out ->
  t * R * K <= out * (r + t).
Proof.
  intros Ht HR Hr Hhi Hlo Hlo1 HK Ht'0 Ht' HN HD0 HD Hq Hout.
  assert (HN0 : 0 <= N).
  { apply Qle_trans with (t' * R * lo); [|exact HN].
    apply Qmult_nonneg; [apply Qmult_nonneg|]; lra. }
  assert (Hq0 : 0 <= q).
  { destruct (Qlt_le_dec q 0) as [H|H]; [|exact H]. exfalso.
    assert (q * D < 0); [|lra].
    setoid_replace 0 with (0 * D) by ring.
    apply Qmult_lt_compat_r; assumption. }
  assert (Hll : lo * lo <= 1) by nra.
  assert (Hll0 : 0 <= lo * lo) by nra.
  assert (Hrt' : 0 < r + t') by lra.
  assert (Hrt : 0 < r + t) by lra.
  assert (P : 0 < (r + t') * hi) by (apply Qmult_lt_0_compat; lra).
  assert (H1 : t' * R * lo <= q * ((r + t') * hi)).
  { apply Qle_trans with (q * D); [lra | apply Qmult_le_mono_l; assumption]. }
  assert (H2 : t' * R * (lo * lo) <= out * ((r + t') * hi)).
  { apply Qle_trans with (q * lo * ((r + t') * hi)).
    - setoid_replace (q * lo * ((r + t') * hi)) with (q * ((r + t') * hi) * lo) by ring.
      setoid_replace (t' * R * (lo * lo)) with (t' * R * lo * lo) by ring.
      apply Qmult_le_mono_r; [lra | exact H1].
    - apply Qmult_le_mono_r; [lra | exact Hout]. }
  assert (H3 : t * (K * hi) * (r + t') <= t' * (lo * lo) * (r + t)).
  { apply Qle_trans with (t * (lo * lo * lo * lo) * (r + t')).
    - apply Qmult_le_mono_r; [lra|]. apply Qmult_le_mono_l; [lra | exact HK].
    - assert (A : t * (lo * lo) * (lo * lo) * r <= t' * (lo * lo) * r).
      { apply Qmult_le_mono_r; [lra|]. apply Qmult_le_mono_r; [lra|]. exact Ht'. }
      assert (B : t' * (lo * lo) * (lo * lo) * t <= t' * (lo * lo) * t).
      { apply Qmult_le_mono_r; [lra|].
        rewrite <- (Qmult_1_r (t' * (lo * lo))) at 2.
        apply Qmult_le_mono_l; [apply Qmult_nonneg; lra | exact Hll]. }
      assert (C : t * (lo * lo) * (lo * lo) * t' <= t' * (lo * lo) * (lo * lo) * t).
      { setoid_replace (t * (lo * lo) * (lo * lo) * t')
          with (t' * (lo * lo) * (lo * lo) * t) by ring. lra. }
      lra. }
  assert (H4 : t * R * K * ((r + t') * hi) <= out * (r + t) * ((r + t') * hi)).
  { apply Qle_trans with (t' * R * (lo * lo) * (r + t)).
    - setoid_replace (t * R * K * ((r + t') * hi))
        with (R * (t * (K * hi) * (r + t'))) by ring.
      setoid_replace (t' * R * (lo * lo) * (r + t))
        with (R * (t' * (lo * lo) * (r + t))) by ring.
      apply Qmult_le_mono_l; [lra | exact H3].
    - setoid_replace (out * (r + t) * ((r + t') * hi))
        with (out * ((r + t') * hi) * (r + t)) by ring.
      apply Qmult_le_mono_r; [lra | exact H2]. }
  apply (Qmult_le_r _ _ _ P). exact H4.
Qed.

Lemma swap_output_exact_below (input reserve_in reserve_out fee_rate : Q) :
  0 < reserve_in -> 0 < reserve_out -> fee_rate < 1 -> 0 <= input ->
  swap_output_exact input reserve_in reserve_out fee_rate < reserve_out.
Proof.
  intros Hr HR Hf Hx. unfold swap_output_exact.
  assert (Ht : 0 <= input * (1 - fee_rate)) by (apply Qmult_nonneg; lra).
  apply Qlt_shift_div_r; [lra|].
  assert (0 < reserve_out * reserve_in) by (apply Qmult_lt_0_compat; assumption).
  lra.
Qed.

Lemma swap_output_exact_increasing (x y reserve_in reserve_out fee_rate : Q) :
  0 < reserve_in -> 0 < reserve_out -> fee_rate < 1 -> 0 <= x -> x < y ->
  swap_output_exact x reserve_in reserve_out fee_rate
  < swap_output_exact y reserve_in reserve_out fee_rate.
Proof.
  intros Hr HR Hf Hx Hxy. unfold swap_output_exact.
  assert (Hc : 0 < 1 - fee_rate) by lra.
  assert (Htx : 0 <= x * (1 - fee_rate)) by (apply Qmult_nonneg; lra).
  assert (Hty : x * (1 - fee_rate) < y * (1 - fee_rate))
    by (apply Qmult_lt_compat_r; assumption).
  set (s := x * (1 - fee_rate)) in *. set (t := y * (1 - fee_rate)) in *.
  apply Qlt_shift_div_r; [lra|].
  assert (E : t * reserve_out / (reserve_in + t) * (reserve_in + s)
              == t * reserve_out * (reserve_in + s) / (reserve_in + t))
    by (field; lra).
  rewrite E. apply Qlt_shift_div_l; [lra|].
  assert (A : s * (reserve_out * reserve_in) < t * (reserve_out * reserve_in)).
  { apply Qmult_lt_compat_r; [apply Qmult_lt_0_compat; assumption | exact Hty]. }
  lra.
Qed.

(** The computed output of a swap and its distance from the exact one. *)
Lemma swap_output_close (input reserve_in reserve_out fee_rate : Q) :
  0 < reserve_in -> 0 < reserve_out -> 0 <= fee_rate -> fee_rate < 1 ->
  0 < input ->
  let iwf := Decimal.mul input (Decimal.sub 1 fee_rate) in
  let out :=
    Decimal.round_ctx
      (Decimal.mul iwf reserve_out / Decimal.add reserve_in iwf) in
  let exact := swap_output_exact input reserve_in reserve_out fee_rate in
  0 < Decimal.add reserve_in iwf /\ 0 < out /\
  exact * (1 - swap_tolerance) <= out /\ out <= exact * (1 + swap_tolerance).
Proof.
  intros Hr HR Hf0 Hf1 Hx. cbv zeta.
  unfold Decimal.mul, Decimal.sub, Decimal.add.
  set (u := Decimal.unit_roundoff).
  assert (Hu : u == 0.0000000000000000000000000005) by reflexivity.
  (* 1 - fee *)
  destruct (DecimalFacts.round_ctx_error (1 - fee_rate)) as [C1 C2]; [lra|].
  assert (C0 : 0 < Decimal.round_ctx (1 - fee_rate))
    by (apply DecimalFacts.round_ctx_pos; lra).
  set (c' := Decimal.round_ctx (1 - fee_rate)) in *.
  (* input with fee *)
  assert (Hxc : 0 < input * c') by (apply Qmult_lt_0_compat; assumption).
  destruct (DecimalFacts.round_ctx_error (input * c')) as [T1 T2]; [lra|].
  assert (T0 : 0 < Decimal.round_ctx (input * c'))
    by (apply DecimalFacts.round_ctx_pos; exact Hxc).
  set (t' := Decimal.round_ctx (input * c')) in *.
  (* numerator *)
  assert (Hn : 0 < t' * reserve_out) by (apply Qmult_lt_0_compat; assumption).
  destruct (DecimalFacts.round_ctx_error (t' * reserve_out)) as [N1 N2]; [lra|].
  assert (N0 : 0 < Decimal.round_ctx (t' * reserve_out))
    by (apply DecimalFacts.round_ctx_pos; exact Hn).
  set (N := Decimal.round_ctx (t' * reserve_out)) in *.
  (* denominator *)
  destruct (DecimalFacts.round_ctx_error (reserve_in + t')) as [D1 D2]; [lra|].
  assert (D0 : 0 < Decimal.round_ctx (reserve_in + t'))
    by (apply DecimalFacts.round_ctx_pos; lra).
  set (D := Decimal.round_ctx (reserve_in + t')) in *.
  (* quotient *)
  assert (Hq : 0 < N / D) by (apply Qlt_shift_div_l; lra).
  assert (Eq : N / D * D == N) by (field; lra).
  destruct (DecimalFacts.round_ctx_error (N / D)) as [O1 O2]; [lra|].
  assert (O0 : 0 < Decimal.round_ctx (N / D))
    by (apply DecimalFacts.round_ctx_pos; exact Hq).
  set (out := Decimal.round_ctx (N / D)) in *.
  split; [exact D0|]. split; [exact O0|].
  (* the exact amount with fee *)
  assert (Ht : 0 < input * (1 - fee_rate)) by (apply Qmult_lt_0_compat; lra).
  set (t := input * (1 - fee_rate)) in *.
  assert (Tlo : t * ((1 - u) * (1 - u)) <= t').
  { apply Qle_trans with (input * c' * (1 - u)); [|exact T1].
    setoid_replace (t * ((1 - u) * (1 - u)))
      with (input * ((1 - fee_rate) * (1 - u)) * (1 - u)) by (unfold t; ring).
    apply Qmult_le_mono_r; [lra|]. apply Qmult_le_mono_l; [lra | exact C1]. }
  assert (Thi : t' <= t * ((1 + u) * (1 + u))).
  { apply Qle_trans with (input * c' * (1 + u)); [exact T2|].
    setoid_replace (t * ((1 + u) * (1 + u)))
      with (input * ((1 - fee_rate) * (1 + u)) * (1 + u)) by (unfold t; ring).
    apply Qmult_le_mono_r; [lra|]. apply Qmult_le_mono_l; [lra | exact C2]. }
  assert (Hrt : 0 < reserve_in + t) by lra.
  assert (Ex : swap_output_exact input reserve_in reserve_out fee_rate
               * (reserve_in + t) == t * reserve_out).
  { unfold swap_output_exact. fold t. field. lra. }
  split.
  - assert (L : t * reserve_out * (1 - swap_tolerance) <= out * (reserve_in + t)).
    { apply (swap_lower t t' reserve_out reserve_in N D (N / D) out (1 + u) (1 - u));
        try assumption; try lra.
      vm_compute. discriminate. }
    apply (Qmult_le_r _ _ _ Hrt).
    setoid_replace (swap_output_exact input reserve_in reserve_out fee_rate
                    * (1 - swap_tolerance) * (reserve_in + t))
      with (swap_output_exact input reserve_in reserve_out fee_rate
            * (reserve_in + t) * (1 - swap_tolerance)) by ring.
    rewrite Ex. exact L.
  - assert (U : out * (reserve_in + t) <= t * reserve_out * (1 + swap_tolerance)).
    { apply (swap_upper t t' reserve_out reserve_in N D (N / D) out (1 + u) (1 - u));
        try assumption; try lra.
      vm_compute. discriminate. }
    apply (Qmult_le_r _ _ _ Hrt).
    setoid_replace (swap_output_exact input reserve_in reserve_out fee_rate
                    * (1 + swap_tolerance) * (reserve_in + t))
      with (swap_output_exact input reserve_in reserve_out fee_rate
            * (reserve_in + t) * (1 + swap_tolerance)) by ring.
    rewrite Ex. exact U.
Qed.

(** C1, as stated, fails.  On a pool with reserves 1 and 1000 an input of
    10^30 gets the whole output reserve, 1000, and so does twice that input:
    the output is neither strictly below the reserve nor strictly
    increasing.  On a pool with reserves 5 and 2 the output decreases when
    the input grows by one unit in its 25th digit.  On the pool of the first
    quote of the specification the inputs 100 and 100 + 10^-28 get the same
    output. *)
Lemma C1_output_not_below_reserve_nor_increasing :
  (let pool := pool_with 1 1000 0.003 in
   0 < input_reserve pool true /\ 0 < output_reserve pool true /\
   0 <= Optimizer.fee pool /\ Optimizer.fee pool < 1 /\
   Optimizer._calculate_swap_output 1000000000000000000000000000000 pool true
     = Ok 1000 /\
   Optimizer._calculate_swap_output 2000000000000000000000000000000 pool true
     = Ok 1000 /\
   ~ 1000 < output_reserve pool true) /\
  (let pool := pool_with 5 2 0.003 in
   exists out1 out2,
     Optimizer._calculate_swap_output 6554970142726383655781000 pool true = Ok out1 /\
     Optimizer._calculate_swap_output 6554970142726383655781001 pool true = Ok out2 /\
     out2 < out1) /\
  (let pool := pool_with 44692.73743016759776536312849 4000000 0.003 in
   100 < 100.0000000000000000000000000001 /\
   Optimizer._calculate_swap_output 100 pool true
   = Optimizer._calculate_swap_output 100.0000000000000000000000000001 pool true).
Proof.
  cbv zeta. split.
  - split; [reflexivity|]. split; [reflexivity|]. split; [discriminate|].
    split; [reflexivity|].
    split; [vm_compute; reflexivity|]. split; [vm_compute; reflexivity|].
    discriminate.
  - split.
    + eexists. eexists. split; [vm_compute; reflexivity|].
      split; [vm_compute; reflexivity|]. reflexivity.
    + split; [reflexivity | vm_compute; reflexivity].
Qed.

(** C1, amended.  For positive reserves, a fee rate in [0, 1) and a positive
    input, when no operation leaves the exponent limits of the context, the
    swap returns
    [(input * (1 - fee) * reserve_out) / (reserve_in + input * (1 - fee))]
    with each operation rounded to 28 significant digits.  The output is
    positive and within a relative distance of 3e-27 of the exact value of
    the formula, hence below [reserve_out * (1 + 3e-27)]; the exact value is
    strictly below [reserve_out] and strictly increasing in the input. *)
Theorem C1_swap_output (input_amount : Q) (pool : Optimizer.PoolInfo)
  (a_to_b : bool) :
  let reserve_in := input_reserve pool a_to_b in
  let reserve_out := output_reserve pool a_to_b in
  let fee_rate := Optimizer.fee pool in
  let exact := swap_output_exact input_amount reserve_in reserve_out fee_rate in
  0 < reserve_in -> 0 < reserve_out -> 0 <= fee_rate -> fee_rate < 1 ->
  0 < input_amount ->
  swap_in_range input_amount pool a_to_b ->
  exists out,
    Optimizer._calculate_swap_output input_amount pool a_to_b = Ok out /\
    (let with_fee := Decimal.mul input_amount (Decimal.sub 1 fee_rate) in
     Decimal.div (Decimal.mul with_fee reserve_out)
                 (Decimal.add reserve_in with_fee) = Ok out) /\
    0 < out /\
    exact * (1 - swap_tolerance) <= out /\
    out <= exact * (1 + swap_tolerance) /\
    out < reserve_out * (1 + swap_tolerance) /\
    exact < reserve_out /\
    (forall larger,
       input_amount < larger ->
       exact < swap_output_exact larger reserve_in reserve_out fee_rate).
Proof.
  cbv zeta. intros Hr HR Hf0 Hf1 Hx _.
  destruct (swap_output_close input_amount _ _ _ Hr HR Hf0 Hf1 Hx)
    as (D0 & O0 & Lo & Hi).
  pose proof (swap_output_exact_below input_amount _ _ _ Hr HR Hf1
                (Qlt_le_weak _ _ Hx)) as Hb.
  eexists. split.
  { unfold Optimizer._calculate_swap_output.
    fold (input_reserve pool a_to_b) (output_reserve pool a_to_b).
    apply div_nonzero. lra. }
  split; [apply div_nonzero; lra|]. split; [exact O0|].
  split; [exact Lo|]. split; [exact Hi|]. split; [|split].
  - eapply Qle_lt_trans; [exact Hi|].
    apply Qmult_lt_compat_r; [reflexivity | exact Hb].
  - exact Hb.
  - intros larger Hl. apply swap_output_exact_increasing; try assumption. lra.
Qed.

(** A use of C1: 100 SOL into the pool of the first quote of the
    specification. *)
Lemma C1_swap_output_witness :
  let pool := pool_with 44692.73743016759776536312849 4000000 0.003 in
  let exact := swap_output_exact 100 44692.73743016759776536312849 4000000 0.003 in
  0 < input_reserve pool true /\ 0 < output_reserve pool true /\
  0 <= Optimizer.fee pool /\ Optimizer.fee pool < 1 /\ 0 < 100 /\
  swap_in_range 100 pool true /\
  exists out,
    Optimizer._calculate_swap_output 100 pool true = Ok out /\
    0 < out /\
    exact * (1 - swap_tolerance) <= out /\
    out <= exact * (1 + swap_tolerance) /\
    out < 4000000 * (1 + swap_tolerance) /\
    exact < 4000000.
Proof.
  cbv zeta.
  assert (Hrange :
            swap_in_range 100
              (pool_with 44692.73743016759776536312849 4000000 0.003) true)
    by (repeat split; vm_compute; reflexivity).
  destruct (C1_swap_output 100
              (pool_with 44692.73743016759776536312849 4000000 0.003) true)
    as (out & Hout & _ & Hpos & Hlo & Hhi & Hres & Hex & _);
    [reflexivity | reflexivity | discriminate | reflexivity | reflexivity
    | exact Hrange |].
  split; [reflexivity|]. split; [reflexivity|]. split; [discriminate|].
  split; [reflexivity|]. split; [reflexivity|]. split; [exact Hrange|].
  exists out. repeat split; assumption.
Defined.

(** ** The snapshot of [get_all_prices] *)

Lemma quotes_under_append_quote (s sym : string) (q : MarketData.PriceData)
  (all_prices : MarketData.snapshot) :
  quotes_under s (MarketData.append_quote sym q all_prices)
  = if String.eqb s sym then quotes_under sym all_prices ++ [q]
    else quotes_under s all_prices.
Proof.
  induction all_prices as [|[s0 l0] rest IH]; simpl.
  - rewrite (String.eqb_sym sym s). destruct (String.eqb s sym); reflexivity.
  - destruct (String.eqb s0 sym) eqn:E0; simpl.
    + apply String.eqb_eq in E0 as ->. rewrite (String.eqb_sym sym s).
      destruct (String.eqb s sym); reflexivity.
    + destruct (String.eqb s0 s) eqn:E1.
      * apply String.eqb_eq in E1 as ->. rewrite E0. reflexivity.
      * exact IH.
Qed.

Lemma append_quote_keys (sym : string) (q : MarketData.PriceData)
  (all_prices : MarketData.snapshot) :
  (MarketData.append_quote sym q all_prices).*1
  = if decide (sym ∈ all_prices.*1) then all_prices.*1 else all_prices.*1 ++ [sym].
Proof.
  induction all_prices as [|[s0 l0] rest IH].
  - cbn [MarketData.append_quote fmap list_fmap fst app].
    destruct (decide (sym ∈ [])) as [H|_]; [inversion H | reflexivity].
  - cbn [MarketData.append_quote]. destruct (String.eqb s0 sym) eqn:E0.
    + apply String.eqb_eq in E0 as ->. cbn [fmap list_fmap fst].
      destruct (decide (sym ∈ sym :: rest.*1)) as [_|H]; [reflexivity|].
      exfalso. apply H. apply list_elem_of_here.
    + apply String.eqb_neq in E0. cbn [fmap list_fmap fst]. fold (rest.*1).
      change (list_fmap _ _ fst (MarketData.append_quote sym q rest))
        with ((MarketData.append_quote sym q rest).*1).
      rewrite IH.
      destruct (decide (sym ∈ rest.*1)) as [Hin|Hin];
        destruct (decide (sym ∈ s0 :: rest.*1)) as [Hin'|Hin']; try reflexivity.
      * exfalso. apply Hin'. apply list_elem_of_further. exact Hin.
      * exfalso. apply elem_of_cons in Hin' as [H|H]; [congruence | contradiction].
Qed.

Lemma append_quote_ok (sym : string) (q : MarketData.PriceData)
  (all_prices : MarketData.snapshot) :
  snapshot_ok all_prices -> snapshot_ok (MarketData.append_quote sym q all_prices).
Proof.
  intros [Hn Hf]. split.
  - rewrite append_quote_keys. destruct (decide (sym ∈ all_prices.*1)); [exact Hn|].
    apply NoDup_app. split; [exact Hn|]. split; [|apply NoDup_singleton].
    intros x Hx Hs. apply list_elem_of_singleton in Hs as ->. contradiction.
  - clear Hn. induction all_prices as [|[s0 l0] rest IH]; simpl.
    + constructor; [discriminate | constructor].
    + apply Forall_cons in Hf as [H0 Hf]. destruct (String.eqb s0 sym).
      * constructor; [|exact Hf]. simpl. intros H. apply app_eq_nil in H as [_ H].
        discriminate.
      * constructor; [exact H0 | apply IH; exact Hf].
Qed.

Lemma snapshot_ok_elem (all_prices : MarketData.snapshot) (sym : string)
  (l : list MarketData.PriceData) :
  snapshot_ok all_prices ->
  (sym, l) ∈ all_prices <-> l = quotes_under sym all_prices /\ l <> [].
Proof.
  intros [Hn Hf]. induction all_prices as [|[s0 l0] rest IH]; simpl.
  - split; [intros H; inversion H | intros [-> H]; contradiction].
  - cbn [fmap list_fmap fst] in Hn. apply NoDup_cons in Hn as [H0 Hn].
    apply Forall_cons in Hf as [Hl0 Hf]. specialize (IH Hn Hf).
    rewrite elem_of_cons. destruct (String.eqb s0 sym) eqn:E.
    + apply String.eqb_eq in E as ->. split.
      * intros [[= ->]|H]; [split; [reflexivity | exact Hl0]|].
        exfalso. apply H0. apply list_elem_of_fmap. exists (sym, l).
        split; [reflexivity | exact H].
      * intros [-> _]. left. reflexivity.
    + apply String.eqb_neq in E. rewrite IH. split.
      * intros [[= -> ->]|H]; [contradiction | exact H].
      * intros H. right. exact H.
Qed.

Lemma combine_quotes (items : list (string * MarketData.PriceData)) :
  forall all_prices,
    let out :=
      foldl (fun acc '(s, price_data) => MarketData.append_quote s price_data acc)
            all_prices items in
    (snapshot_ok all_prices -> snapshot_ok out) /\
    (forall sym, quotes_under sym out
                 = quotes_under sym all_prices ++ venue_quotes sym items).
Proof.
  induction items as [|[s q] items IH]; intros acc; cbn [foldl].
  - split; [tauto|]. intros sym. unfold venue_quotes. simpl. rewrite app_nil_r.
    reflexivity.
  - destruct (IH (MarketData.append_quote s q acc)) as [H1 H2]. cbv zeta. split.
    + intros H. apply H1. apply append_quote_ok. exact H.
    + intros sym. rewrite H2, quotes_under_append_quote.
      unfold venue_quotes. cbn [mbind list_bind]. rewrite (String.eqb_sym sym s).
      destruct (String.eqb s sym) eqn:E; simpl.
      * apply String.eqb_eq in E as ->. rewrite <- app_assoc. reflexivity.
      * reflexivity.
Qed.

Lemma get_all_prices_quotes (results : list (list (string * MarketData.PriceData))) :
  snapshot_ok (MarketData.get_all_prices results) /\
  (forall sym,
     quotes_under sym (MarketData.get_all_prices results) = quotes_for sym results).
Proof.
  unfold MarketData.get_all_prices.
  assert (G : forall acc,
             let out :=
               foldl (fun all_prices result =>
                        foldl (fun acc0 '(s, price_data) =>
                                 MarketData.append_quote s price_data acc0)
                              all_prices result)
                     acc results in
             (snapshot_ok acc -> snapshot_ok out) /\
             (forall sym, quotes_under sym out
                          = quotes_under sym acc ++ quotes_for sym results)).
  { induction results as [|r results IH]; intros acc; cbn [foldl].
    - split; [tauto|]. intros sym. unfold quotes_for. simpl. rewrite app_nil_r.
      reflexivity.
    - destruct (combine_quotes r acc) as [C1 C2].
      destruct (IH (foldl (fun acc0 '(s, price_data) =>
                             MarketData.append_quote s price_data acc0) acc r))
        as [H1 H2].
      cbv zeta. split; [tauto|]. intros sym. rewrite H2, C2.
      unfold quotes_for. cbn [mbind list_bind]. rewrite <- app_assoc. reflexivity. }
  destruct (G []) as [G1 G2]. split.
  - apply G1. split; [constructor | constructor].
  - intros sym. rewrite G2. reflexivity.
Qed.

Lemma venue_quotes_length (sym : string)
  (result : list (string * MarketData.PriceData)) :
  venue_dict result -> (length (venue_quotes sym result) <= 1)%nat.
Proof.
  unfold venue_dict, venue_quotes. induction result as [|[s q] result IH]; intros Hn.
  - simpl. lia.
  - cbn [fmap list_fmap fst] in Hn. apply NoDup_cons in Hn as [Hs Hn].
    cbn [mbind list_bind]. rewrite length_app.
    destruct (String.eqb s sym) eqn:E; simpl.
    + apply String.eqb_eq in E as ->.
      assert (Z : ('(s, q0) ← result; if String.eqb s sym then [q0] else []) = []).
      { clear IH Hn. induction result as [|[s' q'] result IH]; [reflexivity|].
        cbn [mbind list_bind]. destruct (String.eqb s' sym) eqn:E'.
        - exfalso. apply String.eqb_eq in E' as ->. apply Hs.
          cbn. apply list_elem_of_here.
        - simpl. apply IH. intros H. apply Hs. cbn. apply list_elem_of_further.
          exact H. }
      rewrite Z. simpl. lia.
    + apply IH. exact Hn.
Qed.

(** X1. The snapshot of [get_all_prices] is a well-formed [dict]: no
    symbol occurs twice among its keys, and no key has an empty list of
    quotes. *)
Theorem X1_snapshot_is_dict (results : list (list (string * MarketData.PriceData))) :
  NoDup (MarketData.get_all_prices results).*1 /\
  Forall (fun item => item.2 <> []) (MarketData.get_all_prices results).
Proof. apply (get_all_prices_quotes results). Qed.

(** X2. The snapshot holds, under each symbol, exactly the quotes the
    venues returned for it, in the order of the venues; a symbol no venue
    returned is not a key. *)
Theorem X2_snapshot_contents (results : list (list (string * MarketData.PriceData)))
  (sym : string) (price_list : list MarketData.PriceData) :
  (sym, price_list) ∈ MarketData.get_all_prices results <->
  price_list = quotes_for sym results /\ price_list <> [].
Proof.
  destruct (get_all_prices_quotes results) as [Hok Hq].
  rewrite (snapshot_ok_elem _ _ _ Hok), Hq. reflexivity.
Qed.

(** X3. When the result of every venue is a [dict], a symbol has at most
    one quote per venue in the snapshot. *)
Theorem X3_one_quote_per_venue
  (results : list (list (string * MarketData.PriceData))) :
  Forall venue_dict results ->
  Forall (fun item => (length item.2 <= length results)%nat)
         (MarketData.get_all_prices results).
Proof.
  intros Hd. apply Forall_forall. intros [sym l] Hin.
  destruct (get_all_prices_quotes results) as [Hok Hq].
  apply (snapshot_ok_elem _ _ _ Hok) in Hin as [-> _]. rewrite Hq. cbn [snd].
  clear Hok Hq. unfold quotes_for.
  induction Hd as [|r results Hr Hd IH]; [simpl; lia|].
  cbn [mbind list_bind]. rewrite length_app.
  pose proof (venue_quotes_length sym r Hr). simpl. lia.
Qed.

Lemma X3_one_quote_per_venue_witness :
  Forall venue_dict
    [[("SOL/USDC", quote "SOL/USDC" 89.50 8000000 "Orca")];
     [("SOL/USDC", quote "SOL/USDC" 90 5000000 "Raydium")]] /\
  Forall (fun item => (length item.2 <= 2)%nat)
    (MarketData.get_all_prices
       [[("SOL/USDC", quote "SOL/USDC" 89.50 8000000 "Orca")];
        [("SOL/USDC", quote "SOL/USDC" 90 5000000 "Raydium")]]).
Proof.
  assert (H : Forall venue_dict
                [[("SOL/USDC", quote "SOL/USDC" 89.50 8000000 "Orca")];
                 [("SOL/USDC", quote "SOL/USDC" 90 5000000 "Raydium")]]).
  { repeat constructor; intros H; inversion H. }
  split; [exact H | exact (X3_one_quote_per_venue _ H)].
Defined.

(** ** The pool [_find_best_pool] selects *)

Lemma connects_eqb (pool : Optimizer.PoolInfo) (from_token to_token : string) :
  (String.eqb (Optimizer.token_a pool) from_token
   && String.eqb (Optimizer.token_b pool) to_token)
  || (String.eqb (Optimizer.token_a pool) to_token
      && String.eqb (Optimizer.token_b pool) from_token) = true
  <-> connects pool from_token to_token.
Proof.
  unfold connects. rewrite orb_true_iff, !andb_true_iff, !String.eqb_eq. reflexivity.
Qed.

Lemma best_pool_step_ok (from_token to_token : string)
  (best best' : option Optimizer.PoolInfo * Q) (pool : Optimizer.PoolInfo) :
  Optimizer.best_pool_step from_token to_token best pool = Ok best' ->
  (best' = best /\ rate_not_above from_token to_token best.2 pool) \/
  (exists r, best' = (Some pool, r) /\ connects pool from_token to_token /\
             pool_rate from_token pool = Ok r /\ best.2 < r).
Proof.
  unfold Optimizer.best_pool_step, rate_not_above.
  destruct (_ || _) eqn:C.
  - apply connects_eqb in C. fold (pool_rate from_token pool).
    destruct (pool_rate from_token pool) as [r|]; cbn [mbind result_bind];
      [|discriminate].
    destruct (Decimal.gtb r best.2) eqn:G; intros [= <-].
    + apply gtb_gt in G. right. exists r. repeat split; assumption.
    + apply gtb_le in G. left. split; [reflexivity|]. intros _. exists r.
      split; [reflexivity | exact G].
  - intros [= <-]. left. split; [reflexivity|]. intros H.
    apply connects_eqb in H. congruence.
Qed.

(** The loop keeps the first pool with the highest rate above the initial
    one. *)
Lemma best_pool_loop (from_token to_token : string) (l : list Optimizer.PoolInfo) :
  forall best out,
    for_each (Optimizer.best_pool_step from_token to_token) l best = Ok out ->
    (out = best /\ Forall (rate_not_above from_token to_token best.2) l) \/
    (exists l1 pool l2 r,
       l = l1 ++ pool :: l2 /\ out = (Some pool, r) /\
       connects pool from_token to_token /\
       pool_rate from_token pool = Ok r /\ best.2 < r /\
       Forall (rate_below from_token to_token r) l1 /\
       Forall (rate_not_above from_token to_token r) l2).
Proof.
  induction l as [|x l IH]; intros best out; cbn [for_each].
  - intros [= <-]. left. split; [reflexivity | constructor].
  - destruct (Optimizer.best_pool_step from_token to_token best x) as [best1|] eqn:E;
      cbn [mbind result_bind]; [|discriminate].
    intros H. apply best_pool_step_ok in E.
    destruct (IH _ _ H) as [[-> Hl]|(l1 & pool & l2 & r & -> & -> & Hc & Hr & Hlt & H1 & H2)].
    + destruct E as [[-> Hx]|(r & -> & Hc & Hr & Hlt)].
      * left. split; [reflexivity | constructor; assumption].
      * right. exists [], x, l, r. cbn [snd] in Hl.
        repeat split; try assumption. constructor.
    + right. exists (x :: l1), pool, l2, r.
      destruct E as [[-> Hx]|(rx & -> & Hcx & Hrx & Hltx)].
      * repeat split; try assumption. constructor; [|exact H1].
        intros Hcx. destruct (Hx Hcx) as (r' & Hr' & Hle).
        exists r'. split; [exact Hr' | lra].
      * cbn [snd] in Hlt. repeat split; try assumption; [lra|].
        constructor; [|exact H1]. intros _. exists rx. split; [exact Hrx | exact Hlt].
Qed.

Lemma best_pool_step_raises (from_token to_token : string)
  (best : option Optimizer.PoolInfo * Q) (pool : Optimizer.PoolInfo) :
  (exists e, Optimizer.best_pool_step from_token to_token best pool = Raise e) <->
  connects pool from_token to_token /\
  input_reserve pool (String.eqb (Optimizer.token_a pool) from_token) == 0.
Proof.
  unfold Optimizer.best_pool_step, input_reserve. rewrite <- connects_eqb.
  destruct (_ || _).
  - destruct (String.eqb (Optimizer.token_a pool) from_token).
    + destruct (Qeq_dec (Optimizer.reserve_a pool) 0) as [Z|NZ].
      * destruct (div_zero (Optimizer.reserve_b pool) _ Z) as [e ->].
        cbn [mbind result_bind]. split; [tauto | eauto].
      * rewrite (div_nonzero _ _ NZ). cbn [mbind result_bind].
        destruct (Decimal.gtb _ _); split; try tauto; intros [e H]; discriminate.
    + destruct (Qeq_dec (Optimizer.reserve_b pool) 0) as [Z|NZ].
      * destruct (div_zero (Optimizer.reserve_a pool) _ Z) as [e ->].
        cbn [mbind result_bind]. split; [tauto | eauto].
      * rewrite (div_nonzero _ _ NZ). cbn [mbind result_bind].
        destruct (Decimal.gtb _ _); split; try tauto; intros [e H]; discriminate.
  - split; [intros [e H]; discriminate | intros [H _]; discriminate].
Qed.

(** X4. When [_find_best_pool] returns a pool, it is a pool of the set
    that connects the two tokens, its rate is positive, every connecting
    pool before it has a lower rate and none after it has a higher one: it
    is the first pool with the highest rate.  When it returns [None], no
    connecting pool has a positive rate. *)
Theorem X4_best_pool_selected (from_token to_token : string)
  (pools : list Optimizer.PoolInfo) (best : option Optimizer.PoolInfo) :
  Optimizer._find_best_pool from_token to_token pools = Ok best ->
  match best with
  | Some pool =>
      exists l1 l2 r,
        pools = l1 ++ pool :: l2 /\ connects pool from_token to_token /\
        pool_rate from_token pool = Ok r /\ 0 < r /\
        Forall (rate_below from_token to_token r) l1 /\
        Forall (rate_not_above from_token to_token r) l2
  | None => Forall (rate_not_above from_token to_token 0) pools
  end.
Proof.
  unfold Optimizer._find_best_pool.
  destruct (for_each _ pools (None, 0)) as [out|] eqn:E; cbn [mbind result_bind];
    [|discriminate].
  intros [= <-].
  apply best_pool_loop in E
    as [[-> Hl]|(l1 & pool & l2 & r & -> & -> & Hc & Hr & Hlt & H1 & H2)].
  - exact Hl.
  - cbn [fst snd] in *. exists l1, l2, r. repeat split; assumption.
Qed.

Lemma X4_best_pool_selected_witness :
  exists pool,
    Optimizer._find_best_pool "SOL" "USDC" example_pools = Ok (Some pool) /\
    exists l1 l2 r,
      example_pools = l1 ++ pool :: l2 /\ connects pool "SOL" "USDC" /\
      pool_rate "SOL" pool = Ok r /\ 0 < r /\
      Forall (rate_below "SOL" "USDC" r) l1 /\
      Forall (rate_not_above "SOL" "USDC" r) l2.
Proof.
  assert (H : exists pool,
             Optimizer._find_best_pool "SOL" "USDC" example_pools = Ok (Some pool))
    by (eexists; vm_compute; reflexivity).
  destruct H as [pool H]. exists pool. split; [exact H|].
  exact (X4_best_pool_selected "SOL" "USDC" example_pools (Some pool) H).
Defined.


(** ** The paths of [_find_triangular_paths] *)

Lemma file_pool_lookup_iff (token t : string) (pool p : Optimizer.PoolInfo)
  (token_pools : gmap string (list Optimizer.PoolInfo)) :
  p ∈ default [] (Optimizer.file_pool token pool token_pools !! t) <->
  p ∈ default [] (token_pools !! t) \/ (p = pool /\ t = token).
Proof.
  split; [apply file_pool_lookup|].
  unfold Optimizer.file_pool. destruct (decide (token = t)) as [->|Hne].
  - rewrite lookup_insert_eq. simpl. rewrite elem_of_app, list_elem_of_singleton.
    tauto.
  - rewrite lookup_insert_ne by exact Hne. intros [H|[_ ->]]; [exact H | congruence].
Qed.

(** A pool is filed under a token exactly when it is a pool of the set
    with that token. *)
Lemma group_by_token_lookup_iff (pools : list Optimizer.PoolInfo) (t : string)
  (p : Optimizer.PoolInfo) :
  p ∈ default [] (Optimizer.group_by_token pools !! t) <->
  p ∈ pools /\ (Optimizer.token_a p = t \/ Optimizer.token_b p = t).
Proof.
  split; [apply group_by_token_lookup|].
  unfold Optimizer.group_by_token.
  induction pools as [|pool pools IH] using rev_ind; intros [Hin Ht].
  - inversion Hin.
  - rewrite foldl_snoc, !file_pool_lookup_iff.
    apply elem_of_app in Hin as [Hin|Hin].
    + left. left. apply IH. split; assumption.
    + apply list_elem_of_singleton in Hin as ->.
      destruct Ht as [<-|<-]; [left; right | right]; split; reflexivity.
Qed.

Lemma path_exists_iff (tok_a tok_b : string)
  (token_pools : gmap string (list Optimizer.PoolInfo)) :
  Optimizer._path_exists tok_a tok_b token_pools = true <->
  exists pool, pool ∈ default [] (token_pools !! tok_a) /\ connects pool tok_a tok_b.
Proof.
  split; [apply path_exists_connects|].
  intros (pool & Hin & Hc). unfold Optimizer._path_exists.
  apply existsb_exists. exists pool. split; [apply list_elem_of_In; exact Hin|].
  apply connects_eqb. exact Hc.
Qed.

Lemma connected_tokens_iff (base_token t : string)
  (token_pools : gmap string (list Optimizer.PoolInfo)) :
  t ∈ Optimizer.connected_tokens base_token token_pools <->
  exists pool,
    pool ∈ default [] (token_pools !! base_token) /\
    t = (if String.eqb (Optimizer.token_a pool) base_token
         then Optimizer.token_b pool else Optimizer.token_a pool).
Proof.
  split; [apply connected_tokens_elem|].
  unfold Optimizer.connected_tokens.
  induction (default [] (token_pools !! base_token)) as [|pool l IH] using rev_ind;
    intros (p & Hp & E).
  - inversion Hp.
  - rewrite foldl_snoc. apply elem_of_union. apply elem_of_app in Hp as [Hp|Hp].
    + left. apply IH. exists p. split; assumption.
    + apply list_elem_of_singleton in Hp as ->. right. apply elem_of_singleton.
      exact E.
Qed.

Lemma connected_path_exists (pools : list Optimizer.PoolInfo) (tok1 tok2 : string) :
  connected pools tok1 tok2 <->
  Optimizer._path_exists tok1 tok2 (Optimizer.group_by_token pools) = true.
Proof.
  rewrite path_exists_iff. unfold connected. split.
  - intros (pool & Hin & Hc). exists pool. split; [|exact Hc].
    apply group_by_token_lookup_iff. split; [exact Hin|].
    destruct Hc as [[H _]|[_ H]]; [left | right]; exact H.
  - intros (pool & Hin & Hc). exists pool.
    apply group_by_token_lookup_iff in Hin as [Hin _]. split; assumption.
Qed.

Lemma connected_tokens_connected (pools : list Optimizer.PoolInfo)
  (base_token t : string) :
  t ∈ Optimizer.connected_tokens base_token (Optimizer.group_by_token pools) <->
  connected pools base_token t.
Proof.
  rewrite connected_tokens_iff. unfold connected, connects. split.
  - intros (pool & Hin & E). exists pool.
    apply group_by_token_lookup_iff in Hin as [Hin Ht]. split; [exact Hin|].
    destruct (String.eqb (Optimizer.token_a pool) base_token) eqn:Eb.
    + apply String.eqb_eq in Eb. left. split; [exact Eb | symmetry; exact E].
    + apply String.eqb_neq in Eb. destruct Ht as [Ht|Ht]; [contradiction|].
      right. split; [symmetry; exact E | exact Ht].
  - intros (pool & Hin & Hc). exists pool. split.
    + apply group_by_token_lookup_iff. split; [exact Hin|].
      destruct Hc as [[H _]|[_ H]]; [left | right]; exact H.
    + destruct (String.eqb (Optimizer.token_a pool) base_token) eqn:Eb.
      * apply String.eqb_eq in Eb. destruct Hc as [[_ H]|[H1 H2]]; congruence.
      * apply String.eqb_neq in Eb. destruct Hc as [[H _]|[H _]];
          [contradiction | symmetry; exact H].
Qed.

Lemma connected_sym (pools : list Optimizer.PoolInfo) (tok1 tok2 : string) :
  connected pools tok1 tok2 -> connected pools tok2 tok1.
Proof.
  intros (pool & Hin & Hc). exists pool. split; [exact Hin|].
  unfold connects in *. tauto.
Qed.

Lemma find_triangular_paths_iff (pools : list Optimizer.PoolInfo)
  (base_token : string) (path : list string) :
  path ∈ Optimizer._find_triangular_paths base_token (Optimizer.group_by_token pools)
  <-> triangular_path pools base_token path.
Proof.
  unfold triangular_path. split.
  - intros H. apply find_triangular_paths_elem in H
      as (token1 & token2 & H1 & _ & Hne & H12 & H2b & ->).
    exists token1, token2. split; [reflexivity|]. split; [exact Hne|].
    split; [apply connected_tokens_connected; exact H1|].
    split; apply connected_path_exists; assumption.
  - intros (token1 & token2 & -> & Hne & H1 & H12 & H2b).
    unfold Optimizer._find_triangular_paths. cbv zeta.
    apply list_elem_of_bind. exists token1. split.
    + apply list_elem_of_bind. exists token2. split.
      * apply String.eqb_neq in Hne. rewrite Hne.
        apply connected_path_exists in H12, H2b. rewrite H12, H2b. simpl.
        apply list_elem_of_here.
      * apply elem_of_elements. apply connected_tokens_connected.
        apply connected_sym. exact H2b.
    + apply elem_of_elements. apply connected_tokens_connected. exact H1.
Qed.

Lemma mispriced_pools_well_formed : Forall well_formed mispriced_pools.
Proof. vm_compute. repeat constructor; discriminate. Qed.

Lemma well_formed_rate_pos (from_token : string) (pool : Optimizer.PoolInfo) :
  well_formed pool -> exists r, pool_rate from_token pool = Ok r /\ 0 < r.
Proof.
  intros (Ha & Hb & _). unfold pool_rate.
  destruct (String.eqb (Optimizer.token_a pool) from_token).
  - rewrite div_nonzero by lra. eexists. split; [reflexivity|].
    apply DecimalFacts.round_ctx_pos. apply Qlt_shift_div_l; lra.
  - rewrite div_nonzero by lra. eexists. split; [reflexivity|].
    apply DecimalFacts.round_ctx_pos. apply Qlt_shift_div_l; lra.
Qed.

(** On pools with positive reserves a hop is tradable exactly when a pool
    connects its tokens. *)
Lemma tradable_connected (pools : list Optimizer.PoolInfo)
  (from_token to_token : string) :
  Forall well_formed pools ->
  tradable pools (from_token, to_token) <-> connected pools from_token to_token.
Proof.
  intros Hwf. unfold tradable, connected, Optimizer._find_best_pool. cbn [fst snd].
  split.
  - intros [pool H].
    destruct (for_each _ pools (None, 0)) as [out|] eqn:E; cbn [mbind result_bind] in H;
      [|discriminate].
    injection H as H.
    apply best_pool_loop in E
      as [[-> _]|(l1 & p & l2 & r & -> & -> & Hc & _)]; [discriminate|].
    cbn [fst] in H. injection H as ->. exists pool. split; [|exact Hc].
    apply elem_of_app. right. apply list_elem_of_here.
  - intros (p & Hin & Hc).
    destruct (find_best_pool_returns pools Hwf from_token to_token)
      as (best & Hbest & _).
    unfold Optimizer._find_best_pool in Hbest.
    destruct (for_each _ pools (None, 0)) as [out|] eqn:E;
      cbn [mbind result_bind] in *; [|discriminate].
    injection Hbest as <-.
    apply best_pool_loop in E
      as [[-> Hall]|(l1 & p' & l2 & r & _ & -> & _)]; [|eauto].
    exfalso. rewrite Forall_forall in Hall, Hwf.
    destruct (Hall p Hin Hc) as (r' & Hr' & Hle). cbn [snd] in Hle.
    destruct (well_formed_rate_pos from_token p (Hwf p Hin)) as (r & Hr & Hpos).
    rewrite Hr in Hr'. injection Hr' as <-. lra.
Qed.

(** X6. Over the pools grouped by token, the finder emits exactly the
    triangles of the pool set, each once: [[base; token1; token2; base]] is
    a path of it if and only if [token1] and [token2] are distinct and each
    pair of consecutive tokens has a connecting pool, and no path is
    emitted twice, however many pools connect the same tokens. *)
Theorem X6_triangular_paths_complete (pools : list Optimizer.PoolInfo)
  (base_token : string) :
  (forall path,
     path ∈ Optimizer._find_triangular_paths base_token
              (Optimizer.group_by_token pools)
     <-> triangular_path pools base_token path) /\
  NoDup (Optimizer._find_triangular_paths base_token (Optimizer.group_by_token pools)).
Proof.
  split; [intros path; apply find_triangular_paths_iff|].
  generalize (Optimizer.group_by_token pools). intros token_pools.
  unfold Optimizer._find_triangular_paths. cbv zeta.
  set (connected := elements (Optimizer.connected_tokens base_token token_pools)).
  assert (Hn : NoDup connected) by apply NoDup_elements.
  assert (Hpath : forall token1 token2 (y : list string),
             y ∈ (if negb (String.eqb token1 token2)
                     && Optimizer._path_exists token1 token2 token_pools
                     && Optimizer._path_exists token2 base_token token_pools
                  then [[base_token; token1; token2; base_token]] else []) ->
             y = [base_token; token1; token2; base_token]).
  { intros token1 token2 y. destruct (_ && _); intros H; [|inversion H].
    apply list_elem_of_singleton in H. exact H. }
  apply NoDup_bind; [| |exact Hn].
  - intros x1 x2 y _ _ H1 H2.
    apply list_elem_of_bind in H1 as (t1 & H1 & _).
    apply list_elem_of_bind in H2 as (t2 & H2 & _).
    apply Hpath in H1, H2. congruence.
  - intros token1 _. apply NoDup_bind; [| |exact Hn].
    + intros x1 x2 y _ _ H1 H2. apply Hpath in H1, H2. congruence.
    + intros token2 _. destruct (_ && _); [apply NoDup_singleton | constructor].
Qed.



(** ** The lowest and the highest quote *)

Section SortedOrder.
Context {A : Type} (key : A -> Q).

Lemma insert_by_sorted (x : A) (l : list A) :
  StronglySorted (ascending_by key) l ->
  StronglySorted (ascending_by key) (insert_by key x l).
Proof.
  induction 1 as [|y l Hs IH Hy]; simpl.
  - constructor; [constructor | constructor].
  - destruct (Decimal.ltb (key y) (key x)) eqn:E.
    + apply ltb_lt in E. constructor; [exact IH|].
      rewrite insert_by_perm. constructor; [unfold ascending_by; lra | exact Hy].
    + apply ltb_ge in E. constructor; [constructor; assumption|].
      constructor; [exact E|].
      eapply Forall_impl; [exact Hy|]. unfold ascending_by. intros z Hz. simpl in Hz.
      lra.
Qed.

Lemma sorted_sorted (l : list A) : StronglySorted (ascending_by key) (sorted key l).
Proof.
  induction l as [|x l IH]; simpl; [constructor|].
  apply insert_by_sorted, IH.
Qed.

Lemma sorted_head_least (l : list A) (lo : A) :
  head (sorted key l) = Some lo -> Forall (fun x => key lo <= key x) l.
Proof.
  intros H. rewrite <- (sorted_perm key l).
  pose proof (sorted_sorted l) as Hs.
  destruct (sorted key l) as [|y s]; [discriminate|]. injection H as ->.
  inversion Hs as [|? ? _ Hall]; subst.
  constructor; [apply Qle_refl | exact Hall].
Qed.

Lemma sorted_last_greatest (l : list A) (hi : A) :
  last (sorted key l) = Some hi -> Forall (fun x => key x <= key hi) l.
Proof.
  intros H. rewrite <- (sorted_perm key l).
  pose proof (sorted_sorted l) as Hs.
  apply last_Some in H as [s E]. rewrite E in *.
  apply Forall_app. split; [|constructor; [apply Qle_refl | constructor]].
  clear E. induction s as [|y s IH]; [constructor|].
  inversion Hs as [|? ? Hs' Hall]; subst. constructor; [|apply IH; exact Hs'].
  rewrite Forall_forall in Hall. apply (Hall hi).
  apply elem_of_app. right. apply list_elem_of_here.
Qed.

End SortedOrder.

Lemma lowest_highest_bounds (price_list : list MarketData.PriceData)
  (lo hi : MarketData.PriceData) :
  lowest price_list = Some lo -> highest price_list = Some hi ->
  Forall (fun q => MarketData.price lo <= MarketData.price q
                   /\ MarketData.price q <= MarketData.price hi) price_list.
Proof.
  intros Hlo Hhi. apply sorted_head_least in Hlo. apply sorted_last_greatest in Hhi.
  rewrite Forall_forall in *. intros q Hq. split; [apply Hlo | apply Hhi]; exact Hq.
Qed.

Lemma lowest_le_highest (price_list : list MarketData.PriceData)
  (lo hi : MarketData.PriceData) :
  lowest price_list = Some lo -> highest price_list = Some hi ->
  MarketData.price lo <= MarketData.price hi.
Proof.
  intros Hlo Hhi. pose proof (lowest_highest_bounds _ _ _ Hlo Hhi) as H.
  rewrite Forall_forall in H. apply (H hi). apply highest_elem. exact Hhi.
Qed.

Lemma round_ctx_pos_inv (x : Q) : 0 < Decimal.round_ctx x -> 0 < x.
Proof.
  intros H. destruct (Qlt_le_dec 0 x) as [Hx|Hx]; [exact Hx|].
  destruct (Qeq_dec x 0) as [Z|NZ].
  - rewrite (DecimalFacts.round_ctx_zero x Z) in H. lra.
  - assert (Hn : x < 0) by lra. pose proof (DecimalFacts.round_ctx_neg x Hn). lra.
Qed.

(** A positive percentage delta: the lowest price is positive and below
    the highest. *)
Lemma percentage_diff_pos (lo hi : MarketData.PriceData) (pct : Q) :
  MarketData.percentage_diff lo hi = Ok pct ->
  MarketData.price lo <= MarketData.price hi -> 0 < pct ->
  0 < MarketData.price lo /\ MarketData.price lo < MarketData.price hi.
Proof.
  unfold MarketData.percentage_diff.
  destruct (Decimal.div _ _) as [ratio|] eqn:D; cbn [mbind result_bind];
    [|discriminate].
  intros [= <-] Hle Hpos. apply div_ok in D as [Hnz ->].
  unfold Decimal.mul in Hpos. apply round_ctx_pos_inv in Hpos.
  assert (Hr : 0 < Decimal.round_ctx
                     (Decimal.sub (MarketData.price hi) (MarketData.price lo)
                      / MarketData.price lo)) by lra.
  apply round_ctx_pos_inv in Hr.
  assert (Hd : 0 <= Decimal.sub (MarketData.price hi) (MarketData.price lo))
    by (apply DecimalFacts.round_ctx_nonneg; lra).
  set (d := Decimal.sub (MarketData.price hi) (MarketData.price lo)) in *.
  assert (Hlo : 0 < MarketData.price lo).
  { destruct (Qlt_le_dec 0 (MarketData.price lo)) as [H|H]; [exact H|].
    exfalso. assert (Hneg : MarketData.price lo < 0) by lra.
    assert (E : d / MarketData.price lo == - (d / - MarketData.price lo))
      by (field; lra).
    assert (0 <= d / - MarketData.price lo) by (apply Qle_shift_div_l; lra).
    lra. }
  split; [exact Hlo|].
  assert (Hdpos : 0 < d).
  { destruct (Qeq_dec d 0) as [Z|NZ]; [|lra].
    exfalso. assert (E : d / MarketData.price lo == 0) by (rewrite Z; field; lra).
    lra. }
  unfold d, Decimal.sub in Hdpos. apply round_ctx_pos_inv in Hdpos. lra.
Qed.

(** ** [_calculate_optimal_direct_amount] *)

Lemma optimal_direct_amount_floor (lo hi : MarketData.PriceData) (amt : Q) :
  Optimizer._calculate_optimal_direct_amount lo hi = Ok amt -> 100 <= amt.
Proof.
  unfold Optimizer._calculate_optimal_direct_amount.
  destruct (Decimal.div (MarketData.liquidity lo) _) as [a|];
    cbn [mbind result_bind]; [|discriminate].
  destruct (Decimal.div (MarketData.liquidity hi) _) as [b|];
    cbn [mbind result_bind]; [|discriminate].
  intros [= <-]. apply max_spec.
Qed.

Lemma optimal_direct_amount_returns (lo hi : MarketData.PriceData) :
  ~ MarketData.price lo == 0 -> ~ MarketData.price hi == 0 ->
  exists amt, Optimizer._calculate_optimal_direct_amount lo hi = Ok amt.
Proof.
  intros Hlo Hhi. unfold Optimizer._calculate_optimal_direct_amount.
  assert (N : forall p, ~ p == 0 -> ~ Decimal.mul 4 p == 0).
  { intros p Hp. rewrite mul_eq_0. intros H. apply Hp.
    apply Qmult_integral in H as [H|H]; [discriminate | exact H]. }
  rewrite (div_nonzero (MarketData.liquidity lo) _ (N _ Hlo)).
  rewrite (div_nonzero (MarketData.liquidity hi) _ (N _ Hhi)).
  cbn [mbind result_bind]. eauto.
Qed.

(** ** [_find_direct_arbitrage] *)

Lemma float_0_5_pos : 0 < Optimizer.float_0_5.
Proof. reflexivity. Qed.

(** One step of the loop adds the route of the symbol, when it has one,
    and nothing otherwise. *)
Lemma direct_arbitrage_step_ok (self : Optimizer.ArbitrageOptimizer)
  (routes out : list Optimizer.Route) (item : string * list MarketData.PriceData) :
  Optimizer.direct_arbitrage_step self routes item = Ok out ->
  (out = routes /\ forall r, ~ direct_route_of self item r) \/
  (exists r, out = routes ++ [r] /\ direct_route_of self item r).
Proof.
  destruct item as [sym price_list]. unfold Optimizer.direct_arbitrage_step.
  unfold direct_route_of. cbn [fst snd].
  destruct (length price_list <? 2)%nat eqn:L.
  { apply Nat.ltb_lt in L. intros [= <-]. left. split; [reflexivity|].
    intros r (lo & hi & pct & amt & L2 & _). lia. }
  apply Nat.ltb_ge in L.
  destruct (lowest_highest_some price_list L) as (lo & hi & Hlo & Hhi).
  pose proof Hlo as Hlo'. pose proof Hhi as Hhi'.
  unfold lowest, highest in Hlo', Hhi'. rewrite Hlo', Hhi'. clear Hlo' Hhi'.
  destruct (MarketData.percentage_diff lo hi) as [pct|] eqn:P;
    cbn [mbind result_bind]; [|discriminate].
  destruct (Decimal.gtb pct Optimizer.float_0_5) eqn:G.
  2:{ apply gtb_le in G. intros [= <-]. left. split; [reflexivity|].
      intros r (lo' & hi' & pct' & amt & _ & Hlo2 & Hhi2 & P' & Hgt & _).
      rewrite Hlo in Hlo2. rewrite Hhi in Hhi2.
      injection Hlo2 as <-. injection Hhi2 as <-. rewrite P in P'.
      injection P' as <-. lra. }
  apply gtb_gt in G.
  destruct (Optimizer._calculate_optimal_direct_amount lo hi) as [amt|] eqn:O;
    cbn [mbind result_bind]; [|discriminate].
  pose proof (optimal_direct_amount_floor lo hi amt O) as Hamt.
  destruct (Decimal.gtb amt 0) eqn:G0.
  2:{ apply gtb_le in G0. lra. }
  destruct (Decimal.gtb _ (Optimizer.min_profit_threshold self)) eqn:Gp.
  - apply gtb_gt in Gp. rewrite div_nonzero by discriminate.
    cbn [mbind result_bind]. intros [= <-]. right.
    eexists. split; [reflexivity|].
    exists lo, hi, pct, amt. repeat split; assumption.
  - apply gtb_le in Gp. intros [= <-]. left. split; [reflexivity|].
    intros r (lo' & hi' & pct' & amt' & _ & Hlo2 & Hhi2 & P' & _ & O' & -> & Hgt).
    rewrite Hlo in Hlo2. rewrite Hhi in Hhi2.
    injection Hlo2 as <-. injection Hhi2 as <-. rewrite P in P'.
    injection P' as <-. rewrite O in O'. injection O' as <-.
    cbn [direct_route Optimizer.profit] in Hgt. lra.
Qed.

(** The loop, over the snapshot: the routes it adds are those of the
    symbols that have one, in the order of the snapshot. *)
Lemma direct_arbitrage_loop (self : Optimizer.ArbitrageOptimizer)
  (market_data : MarketData.snapshot) :
  forall acc out,
    for_each (Optimizer.direct_arbitrage_step self) market_data acc = Ok out ->
    exists new,
      out = acc ++ new /\
      Forall (fun r => exists item, item ∈ market_data /\ direct_route_of self item r)
             new /\
      (forall item r, item ∈ market_data -> direct_route_of self item r -> r ∈ new) /\
      sublist (Optimizer.pair <$> new) market_data.*1.
Proof.
  induction market_data as [|item items IH]; intros acc out; cbn [for_each].
  - intros [= <-]. exists []. rewrite app_nil_r. split; [reflexivity|].
    split; [constructor|]. split; [intros item r H; inversion H | constructor].
  - destruct (Optimizer.direct_arbitrage_step self acc item) as [acc'|] eqn:E;
      cbn [mbind result_bind]; [|discriminate].
    intros H. destruct (IH _ _ H) as (new & -> & Hsound & Hcomplete & Hsub).
    apply direct_arbitrage_step_ok in E as [[-> Hnone]|(r0 & -> & Hr0)].
    + exists new. split; [reflexivity|]. split; [|split].
      * eapply Forall_impl; [exact Hsound|]. cbv beta.
        intros r (it & Hit & Hr). exists it.
        split; [apply list_elem_of_further; exact Hit | exact Hr].
      * intros it r Hit Hr. apply elem_of_cons in Hit as [->|Hit].
        -- exfalso. exact (Hnone r Hr).
        -- exact (Hcomplete it r Hit Hr).
      * cbn [fmap list_fmap]. apply sublist_cons. exact Hsub.
    + exists (r0 :: new). rewrite <- app_assoc. split; [reflexivity|].
      split; [|split].
      * constructor.
        -- exists item. split; [apply list_elem_of_here | exact Hr0].
        -- eapply Forall_impl; [exact Hsound|]. cbv beta.
           intros r (it & Hit & Hr). exists it.
           split; [apply list_elem_of_further; exact Hit | exact Hr].
      * intros it r Hit Hr. apply elem_of_cons in Hit as [->|Hit].
        -- assert (r = r0) as ->; [|apply list_elem_of_here].
           destruct Hr as (lo & hi & pct & amt & _ & Hlo & Hhi & P & _ & O & -> & _).
           destruct Hr0 as (lo' & hi' & pct' & amt' & _ & Hlo' & Hhi' & P' & _ & O'
                            & -> & _).
           rewrite Hlo in Hlo'. rewrite Hhi in Hhi'.
           injection Hlo' as <-. injection Hhi' as <-. rewrite P in P'.
           injection P' as <-. rewrite O in O'. injection O' as <-. reflexivity.
        -- apply list_elem_of_further. exact (Hcomplete it r Hit Hr).
      * cbn [fmap list_fmap].
        assert (Optimizer.pair r0 = item.1) as ->.
        { destruct Hr0 as (lo & hi & pct & amt & _ & _ & _ & _ & _ & _ & -> & _).
          reflexivity. }
        apply sublist_skip. exact Hsub.
Qed.

Lemma direct_route_of_sound (self : Optimizer.ArbitrageOptimizer)
  (market_data : MarketData.snapshot) (item : string * list MarketData.PriceData)
  (r : Optimizer.Route) :
  item ∈ market_data -> direct_route_of self item r ->
  Optimizer.type r = Optimizer.direct /\
  Optimizer.min_profit_threshold self < Optimizer.profit r /\
  100 <= Optimizer.amount r /\
  Optimizer.gas_estimate r = Decimal.mul 2 (Optimizer.gas_price_estimate self) /\
  buys_low_sells_high market_data r.
Proof.
  destruct item as [sym price_list].
  intros Hin (lo & hi & pct & amt & L & Hlo & Hhi & P & Hgt & O & -> & Hp).
  cbn [fst snd] in *. split; [reflexivity|]. split; [exact Hp|].
  split; [exact (optimal_direct_amount_floor lo hi amt O)|].
  split; [reflexivity|].
  exists price_list, lo, hi. cbn [direct_route Optimizer.pair Optimizer.path].
  pose proof (lowest_le_highest _ _ _ Hlo Hhi) as Hle.
  pose proof float_0_5_pos as H5.
  destruct (percentage_diff_pos lo hi pct P Hle) as [H0 Hlt]; [lra|].
  repeat split; try assumption.
  apply lowest_highest_bounds; assumption.
Qed.

Lemma for_each_raises_iff {A S : Type} (body : S -> A -> result S)
  (P : A -> Prop) (l : list A) (s : S) :
  (forall s' x, (exists e, body s' x = Raise e) <-> P x) ->
  (exists e, for_each body l s = Raise e) <-> exists x, x ∈ l /\ P x.
Proof.
  intros HP. split.
  - revert s. induction l as [|y l IH]; intros s; cbn [for_each].
    + intros [e H]. discriminate.
    + destruct (body s y) as [s1|e1] eqn:E; cbn [mbind result_bind].
      * intros H. destruct (IH s1 H) as (x & Hx & Px).
        exists x. split; [apply list_elem_of_further; exact Hx | exact Px].
      * intros _. exists y. split; [apply list_elem_of_here|].
        apply (HP s y). eauto.
  - intros (x & Hx & Px). apply (for_each_raise body l s x Hx).
    intros s'. apply HP. exact Px.
Qed.

Lemma percentage_diff_raises (lo hi : MarketData.PriceData) :
  (exists e, MarketData.percentage_diff lo hi = Raise e) <->
  MarketData.price lo == 0.
Proof.
  unfold MarketData.percentage_diff.
  destruct (Qeq_dec (MarketData.price lo) 0) as [Z|NZ].
  - destruct (div_zero (Decimal.sub (MarketData.price hi) (MarketData.price lo))
                _ Z) as [e ->].
    cbn [mbind result_bind]. split; [intros _; exact Z | eauto].
  - rewrite (div_nonzero _ _ NZ). cbn [mbind result_bind].
    split; [intros [e H]; discriminate | contradiction].
Qed.

Lemma direct_arbitrage_step_raises (self : Optimizer.ArbitrageOptimizer)
  (routes : list Optimizer.Route) (item : string * list MarketData.PriceData) :
  (exists e, Optimizer.direct_arbitrage_step self routes item = Raise e) <->
  zero_lowest item.
Proof.
  destruct item as [sym price_list]. unfold Optimizer.direct_arbitrage_step, zero_lowest.
  cbn [fst snd]. destruct (length price_list <? 2)%nat eqn:L.
  { apply Nat.ltb_lt in L. split; [intros [e H]; discriminate | intros [H _]; lia]. }
  apply Nat.ltb_ge in L.
  destruct (lowest_highest_some price_list L) as (lo & hi & Hlo & Hhi).
  pose proof Hlo as Hlo'. pose proof Hhi as Hhi'.
  unfold lowest, highest in Hlo', Hhi'. rewrite Hlo', Hhi'. clear Hlo' Hhi'.
  destruct (MarketData.percentage_diff lo hi) as [pct|e] eqn:P;
    cbn [mbind result_bind].
  - assert (NZ : ~ MarketData.price lo == 0).
    { intros Z. destruct (proj2 (percentage_diff_raises lo hi) Z) as [e Z'].
      rewrite P in Z'. discriminate. }
    assert (Hno : ~ ((2 <= length price_list)%nat /\
                     exists lo0, lowest price_list = Some lo0
                                 /\ MarketData.price lo0 == 0)).
    { intros [_ (lo0 & Hlo0 & Z)]. rewrite Hlo in Hlo0. injection Hlo0 as <-.
      contradiction. }
    destruct (Decimal.gtb pct Optimizer.float_0_5) eqn:G.
    2:{ split; [intros [e H]; discriminate | contradiction]. }
    apply gtb_gt in G. pose proof float_0_5_pos as H5.
    destruct (percentage_diff_pos lo hi pct P (lowest_le_highest _ _ _ Hlo Hhi))
      as [H0 Hlt]; [lra|].
    destruct (optimal_direct_amount_returns lo hi) as [amt ->]; [lra | lra |].
    cbn [mbind result_bind]. destruct (Decimal.gtb amt 0).
    2:{ split; [intros [e H]; discriminate | contradiction]. }
    destruct (Decimal.gtb _ (Optimizer.min_profit_threshold self)).
    2:{ split; [intros [e H]; discriminate | contradiction]. }
    rewrite div_nonzero by discriminate. cbn [mbind result_bind].
    split; [intros [e H]; discriminate | contradiction].
  - split; [|eauto]. intros _. split; [exact L|]. exists lo. split; [exact Hlo|].
    apply (percentage_diff_raises lo hi). eauto.
Qed.

Lemma price_difference_step_raises (differences : list MarketData.PriceDifference)
  (item : string * list MarketData.PriceData) :
  (exists e, MarketData.price_difference_step differences item = Raise e) <->
  zero_lowest item.
Proof.
  destruct item as [sym price_list].
  unfold MarketData.price_difference_step, zero_lowest.
  cbn [fst snd]. destruct (2 <=? length price_list)%nat eqn:L.
  2:{ apply Nat.leb_gt in L. split; [intros [e H]; discriminate | intros [H _]; lia]. }
  apply Nat.leb_le in L.
  destruct (lowest_highest_some price_list L) as (lo & hi & Hlo & Hhi).
  pose proof Hlo as Hlo'. pose proof Hhi as Hhi'.
  unfold lowest, highest in Hlo', Hhi'. rewrite Hlo', Hhi'. clear Hlo' Hhi'.
  destruct (MarketData.percentage_diff lo hi) as [pct|e] eqn:P;
    cbn [mbind result_bind].
  - assert (Hno : ~ ((2 <= length price_list)%nat /\
                     exists lo0, lowest price_list = Some lo0
                                 /\ MarketData.price lo0 == 0)).
    { intros [_ (lo0 & Hlo0 & Z)]. rewrite Hlo in Hlo0. injection Hlo0 as <-.
      destruct (proj2 (percentage_diff_raises lo hi) Z) as [e Z'].
      rewrite P in Z'. discriminate. }
    destruct (Decimal.gtb pct float_0_1);
      (split; [intros [e H]; discriminate | contradiction]).
  - split; [|eauto]. intros _. split; [exact L|]. exists lo. split; [exact Hlo|].
    apply (percentage_diff_raises lo hi). eauto.
Qed.

Lemma find_direct_arbitrage_raises (self : Optimizer.ArbitrageOptimizer)
  (market_data : MarketData.snapshot) :
  (exists e, Optimizer._find_direct_arbitrage self market_data = Raise e) <->
  exists item, item ∈ market_data /\ zero_lowest item.
Proof.
  unfold Optimizer._find_direct_arbitrage. apply for_each_raises_iff.
  intros s' x. apply direct_arbitrage_step_raises.
Qed.

Lemma get_price_differences_raises (all_prices : MarketData.snapshot) :
  (exists e, MarketData.get_price_differences all_prices = Raise e) <->
  exists item, item ∈ all_prices /\ zero_lowest item.
Proof.
  unfold MarketData.get_price_differences.
  rewrite <- (for_each_raises_iff MarketData.price_difference_step zero_lowest
                all_prices [] price_difference_step_raises).
  destruct (for_each MarketData.price_difference_step all_prices []);
    cbn [mbind result_bind]; [|reflexivity].
  split; intros [e H]; discriminate.
Qed.

(** One step of the report adds the row of the symbol, when it has one. *)
Lemma price_difference_step_row (differences out : list MarketData.PriceDifference)
  (item : string * list MarketData.PriceData) :
  MarketData.price_difference_step differences item = Ok out ->
  (out = differences /\ forall row, ~ difference_row_of item row) \/
  (exists row, out = differences ++ [row] /\ difference_row_of item row).
Proof.
  destruct item as [sym price_list].
  unfold MarketData.price_difference_step, difference_row_of. cbn [fst snd].
  destruct (2 <=? length price_list)%nat eqn:L.
  2:{ apply Nat.leb_gt in L. intros [= <-]. left. split; [reflexivity|].
      intros row (lo & hi & pct & L2 & _). lia. }
  apply Nat.leb_le in L.
  destruct (lowest_highest_some price_list L) as (lo & hi & Hlo & Hhi).
  pose proof Hlo as Hlo'. pose proof Hhi as Hhi'.
  unfold lowest, highest in Hlo', Hhi'. rewrite Hlo', Hhi'. clear Hlo' Hhi'.
  destruct (MarketData.percentage_diff lo hi) as [pct|] eqn:P;
    cbn [mbind result_bind]; [|discriminate].
  destruct (Decimal.gtb pct float_0_1) eqn:G; intros [= <-].
  - apply gtb_gt in G. right. eexists. split; [reflexivity|].
    exists lo, hi, pct. repeat split; assumption.
  - apply gtb_le in G. left. split; [reflexivity|].
    intros row (lo' & hi' & pct' & _ & Hlo2 & Hhi2 & P' & Hgt & _).
    rewrite Hlo in Hlo2. rewrite Hhi in Hhi2.
    injection Hlo2 as <-. injection Hhi2 as <-. rewrite P in P'.
    injection P' as <-. lra.
Qed.

Lemma price_difference_rows (all_prices : MarketData.snapshot) :
  forall acc out,
    for_each MarketData.price_difference_step all_prices acc = Ok out ->
    exists new,
      out = acc ++ new /\
      Forall (fun row => exists item, item ∈ all_prices /\ difference_row_of item row)
             new /\
      (forall item row, item ∈ all_prices -> difference_row_of item row -> row ∈ new).
Proof.
  induction all_prices as [|item items IH]; intros acc out; cbn [for_each].
  - intros [= <-]. exists []. rewrite app_nil_r. split; [reflexivity|].
    split; [constructor | intros item row H; inversion H].
  - destruct (MarketData.price_difference_step acc item) as [acc'|] eqn:E;
      cbn [mbind result_bind]; [|discriminate].
    intros H. destruct (IH _ _ H) as (new & -> & Hsound & Hcomplete).
    apply price_difference_step_row in E as [[-> Hnone]|(r0 & -> & Hr0)].
    + exists new. split; [reflexivity|]. split.
      * eapply Forall_impl; [exact Hsound|]. cbv beta.
        intros r (it & Hit & Hr). exists it.
        split; [apply list_elem_of_further; exact Hit | exact Hr].
      * intros it r Hit Hr. apply elem_of_cons in Hit as [->|Hit].
        -- exfalso. exact (Hnone r Hr).
        -- exact (Hcomplete it r Hit Hr).
    + exists (r0 :: new). rewrite <- app_assoc. split; [reflexivity|]. split.
      * constructor.
        -- exists item. split; [apply list_elem_of_here | exact Hr0].
        -- eapply Forall_impl; [exact Hsound|]. cbv beta.
           intros r (it & Hit & Hr). exists it.
           split; [apply list_elem_of_further; exact Hit | exact Hr].
      * intros it r Hit Hr. apply elem_of_cons in Hit as [->|Hit].
        -- assert (r = r0) as ->; [|apply list_elem_of_here].
           destruct Hr as (lo & hi & pct & _ & Hlo & Hhi & P & _ & ->).
           destruct Hr0 as (lo' & hi' & pct' & _ & Hlo' & Hhi' & P' & _ & ->).
           rewrite Hlo in Hlo'. rewrite Hhi in Hhi'.
           injection Hlo' as <-. injection Hhi' as <-. rewrite P in P'.
           injection P' as <-. reflexivity.
        -- apply list_elem_of_further. exact (Hcomplete it r Hit Hr).
Qed.

Lemma find_direct_arbitrage_routes (self : Optimizer.ArbitrageOptimizer)
  (market_data : MarketData.snapshot) (routes : list Optimizer.Route) :
  Optimizer._find_direct_arbitrage self market_data = Ok routes ->
  Forall (fun r => exists item, item ∈ market_data /\ direct_route_of self item r)
         routes /\
  (forall item r, item ∈ market_data -> direct_route_of self item r -> r ∈ routes) /\
  sublist (Optimizer.pair <$> routes) market_data.*1.
Proof.
  unfold Optimizer._find_direct_arbitrage. intros H.
  apply direct_arbitrage_loop in H as (new & -> & H). exact H.
Qed.

(** X8. Every route of the direct search is of type [direct], with a net
    profit above the threshold, an amount of 100 or more and the cost of
    two transactions; its pair is a symbol of the snapshot whose cheapest
    quote has a positive price, below that of the dearest, and its path
    names the venue of the cheapest quote, then that of the dearest. *)
Theorem X8_direct_routes_sound (self : Optimizer.ArbitrageOptimizer)
  (market_data : MarketData.snapshot) (routes : list Optimizer.Route) :
  Optimizer._find_direct_arbitrage self market_data = Ok routes ->
  Forall (fun r =>
            Optimizer.type r = Optimizer.direct /\
            Optimizer.min_profit_threshold self < Optimizer.profit r /\
            100 <= Optimizer.amount r /\
            Optimizer.gas_estimate r
              = Decimal.mul 2 (Optimizer.gas_price_estimate self) /\
            buys_low_sells_high market_data r)
         routes.
Proof.
  intros H. apply find_direct_arbitrage_routes in H as [H _].
  eapply Forall_impl; [exact H|]. cbv beta. intros r (item & Hin & Hr).
  exact (direct_route_of_sound self market_data item r Hin Hr).
Qed.

Lemma X8_direct_routes_sound_witness :
  exists r,
    Optimizer._find_direct_arbitrage Optimizer.__init__ example_spread = Ok [r] /\
    Forall (fun r =>
              Optimizer.type r = Optimizer.direct /\
              Optimizer.min_profit_threshold Optimizer.__init__ < Optimizer.profit r /\
              100 <= Optimizer.amount r /\
              Optimizer.gas_estimate r
                = Decimal.mul 2 (Optimizer.gas_price_estimate Optimizer.__init__) /\
              buys_low_sells_high example_spread r)
           [r].
Proof.
  assert (H : exists r,
             Optimizer._find_direct_arbitrage Optimizer.__init__ example_spread
             = Ok [r]) by (eexists; vm_compute; reflexivity).
  destruct H as [r H]. exists r. split; [exact H|].
  exact (X8_direct_routes_sound Optimizer.__init__ example_spread [r] H).
Defined.

(** X9. The confidence of a direct route is at least 0.05 and at most the
    float 0.95, which is below the decimal 0.95. *)
Theorem X9_direct_confidence_range (self : Optimizer.ArbitrageOptimizer)
  (market_data : MarketData.snapshot) (routes : list Optimizer.Route) :
  Optimizer._find_direct_arbitrage self market_data = Ok routes ->
  Forall (fun r => 0.05 <= Optimizer.confidence r /\
                   Optimizer.confidence r <= Optimizer.float_0_95 /\
                   Optimizer.confidence r < 0.95)
         routes.
Proof.
  intros H. apply find_direct_arbitrage_routes in H as [H _].
  eapply Forall_impl; [exact H|]. cbv beta.
  intros r (item & _ & lo & hi & pct & amt & _ & _ & _ & _ & Hgt & _ & -> & _).
  cbn [direct_route Optimizer.confidence].
  assert (F : Optimizer.float_0_95 < 0.95) by reflexivity.
  assert (F' : 0.05 <= Optimizer.float_0_95) by discriminate.
  assert (T : 0.05 <= Decimal.round_ctx (pct / 10)).
  { assert (E : Decimal.round_ctx 0.05 == 0.05).
    { apply DecimalFacts.round_ctx_exact. exists 5%Z, (-2)%Z.
      split; [reflexivity | reflexivity]. }
    rewrite <- E. apply DecimalFacts.round_ctx_mono.
    unfold Optimizer.float_0_5 in Hgt. apply Qle_shift_div_l; lra. }
  destruct (min_spec Optimizer.float_0_95 (Decimal.round_ctx (pct / 10)))
    as (M1 & M2 & [M|M]); rewrite M in *; repeat split; lra.
Qed.

Lemma X9_direct_confidence_range_witness :
  exists r,
    Optimizer._find_direct_arbitrage Optimizer.__init__ example_spread = Ok [r] /\
    Forall (fun r => 0.05 <= Optimizer.confidence r /\
                     Optimizer.confidence r <= Optimizer.float_0_95 /\
                     Optimizer.confidence r < 0.95)
           [r].
Proof.
  assert (H : exists r,
             Optimizer._find_direct_arbitrage Optimizer.__init__ example_spread
             = Ok [r]) by (eexists; vm_compute; reflexivity).
  destruct H as [r H]. exists r. split; [exact H|].
  exact (X9_direct_confidence_range Optimizer.__init__ example_spread [r] H).
Defined.

(** X10. The direct search misses no route: a symbol with two quotes or
    more, a percentage delta above 0.5 and a net profit above the
    threshold has its route in the result, and the result holds no other
    route.  The test [optimal_amount > 0] excludes nothing, the amount
    being at least 100. *)
Theorem X10_direct_routes_complete (self : Optimizer.ArbitrageOptimizer)
  (market_data : MarketData.snapshot) (routes : list Optimizer.Route)
  (r : Optimizer.Route) :
  Optimizer._find_direct_arbitrage self market_data = Ok routes ->
  r ∈ routes <-> exists item, item ∈ market_data /\ direct_route_of self item r.
Proof.
  intros H. apply find_direct_arbitrage_routes in H as (Hs & Hc & _). split.
  - rewrite Forall_forall in Hs. apply Hs.
  - intros (item & Hin & Hr). exact (Hc item r Hin Hr).
Qed.

Lemma X10_direct_routes_complete_witness :
  exists r,
    Optimizer._find_direct_arbitrage Optimizer.__init__ example_spread = Ok [r] /\
    (r ∈ [r] <->
     exists item, item ∈ example_spread /\ direct_route_of Optimizer.__init__ item r).
Proof.
  assert (H : exists r,
             Optimizer._find_direct_arbitrage Optimizer.__init__ example_spread
             = Ok [r]) by (eexists; vm_compute; reflexivity).
  destruct H as [r H]. exists r. split; [exact H|].
  exact (X10_direct_routes_complete Optimizer.__init__ example_spread [r] r H).
Defined.


(** X12. The direct search returns at most one route per symbol, in the
    order of the snapshot; over a snapshot without a repeated symbol no two
    routes have the same pair. *)
Theorem X12_one_direct_route_per_symbol (self : Optimizer.ArbitrageOptimizer)
  (market_data : MarketData.snapshot) (routes : list Optimizer.Route) :
  Optimizer._find_direct_arbitrage self market_data = Ok routes ->
  sublist (Optimizer.pair <$> routes) market_data.*1 /\
  (NoDup market_data.*1 -> NoDup (Optimizer.pair <$> routes)).
Proof.
  intros H. apply find_direct_arbitrage_routes in H as (_ & _ & Hsub).
  split; [exact Hsub|]. intros Hn. exact (sublist_NoDup _ _ Hn Hsub).
Qed.

Lemma X12_one_direct_route_per_symbol_witness :
  exists r,
    Optimizer._find_direct_arbitrage Optimizer.__init__ example_spread = Ok [r] /\
    sublist (Optimizer.pair <$> [r]) example_spread.*1 /\
    (NoDup example_spread.*1 -> NoDup (Optimizer.pair <$> [r])).
Proof.
  assert (H : exists r,
             Optimizer._find_direct_arbitrage Optimizer.__init__ example_spread
             = Ok [r]) by (eexists; vm_compute; reflexivity).
  destruct H as [r H]. exists r. split; [exact H|].
  exact (X12_one_direct_route_per_symbol Optimizer.__init__ example_spread [r] H).
Defined.

Lemma get_price_differences_rows (all_prices : MarketData.snapshot)
  (report : list MarketData.PriceDifference) :
  MarketData.get_price_differences all_prices = Ok report ->
  Forall (fun row => exists item, item ∈ all_prices /\ difference_row_of item row)
         report /\
  (forall item row, item ∈ all_prices -> difference_row_of item row -> row ∈ report).
Proof.
  unfold MarketData.get_price_differences.
  destruct (for_each MarketData.price_difference_step all_prices []) as [new|] eqn:E;
    cbn [mbind result_bind]; [|discriminate].
  intros [= <-]. apply price_difference_rows in E as (new' & -> & Hs & Hc).
  cbn [app] in *. split.
  - rewrite (sort_reverse_perm MarketData.percentage). exact Hs.
  - intros item row Hin Hr. rewrite (sort_reverse_perm MarketData.percentage).
    exact (Hc item row Hin Hr).
Qed.

(** X13. The direct search and the price report agree: on one snapshot,
    every direct route has a row in the report, for the same symbol, with
    the venues of its path as [buy_from] and [sell_to] and a percentage
    delta above 0.5. *)
Theorem X13_direct_routes_reported (self : Optimizer.ArbitrageOptimizer)
  (market_data : MarketData.snapshot) (report : list MarketData.PriceDifference)
  (routes : list Optimizer.Route) :
  MarketData.get_price_differences market_data = Ok report ->
  Optimizer._find_direct_arbitrage self market_data = Ok routes ->
  Forall (route_reported report) routes.
Proof.
  intros Hrep Hroutes.
  apply get_price_differences_rows in Hrep as [_ Hc].
  apply find_direct_arbitrage_routes in Hroutes as [Hs _].
  eapply Forall_impl; [exact Hs|]. cbv beta.
  intros r (item & Hin & lo & hi & pct & amt & L & Hlo & Hhi & P & Hgt & _ & -> & _).
  exists (difference_row item.1 lo hi pct). split; [|repeat split; assumption].
  apply (Hc item); [exact Hin|]. exists lo, hi, pct.
  repeat split; try assumption.
  unfold Optimizer.float_0_5 in Hgt. pose proof float_0_1_below. lra.
Qed.

Lemma X13_direct_routes_reported_witness :
  exists report r,
    MarketData.get_price_differences example_spread = Ok report /\
    Optimizer._find_direct_arbitrage Optimizer.__init__ example_spread = Ok [r] /\
    Forall (route_reported report) [r].
Proof.
  assert (H1 : exists report,
             MarketData.get_price_differences example_spread = Ok report)
    by (eexists; vm_compute; reflexivity).
  assert (H2 : exists r,
             Optimizer._find_direct_arbitrage Optimizer.__init__ example_spread
             = Ok [r]) by (eexists; vm_compute; reflexivity).
  destruct H1 as [report H1]. destruct H2 as [r H2]. exists report, r.
  split; [exact H1|]. split; [exact H2|].
  exact (X13_direct_routes_reported Optimizer.__init__ example_spread report [r]
           H1 H2).
Defined.

(** X14. Every row of the price report has a positive lowest price below
    its highest price and a positive difference; its symbol is a key of the
    snapshot with two quotes or more, and no quote of the symbol is priced
    below the lowest or above the highest price of the row. *)
Theorem X14_report_rows (all_prices : MarketData.snapshot)
  (report : list MarketData.PriceDifference) :
  MarketData.get_price_differences all_prices = Ok report ->
  Forall (fun row =>
            0 < MarketData.lowest_price row /\
            MarketData.lowest_price row < MarketData.highest_price row /\
            0 < MarketData.difference row /\
            exists price_list,
              (MarketData.diff_symbol row, price_list) ∈ all_prices /\
              (2 <= length price_list)%nat /\
              Forall (fun q => MarketData.lowest_price row <= MarketData.price q
                               /\ MarketData.price q <= MarketData.highest_price row)
                     price_list)
         report.
Proof.
  intros H. apply get_price_differences_rows in H as [Hs _].
  eapply Forall_impl; [exact Hs|]. cbv beta.
  intros row ([sym price_list] & Hin & lo & hi & pct & L & Hlo & Hhi & P & Hgt & ->).
  cbn [fst snd] in *.
  cbn [difference_row MarketData.lowest_price MarketData.highest_price
       MarketData.difference MarketData.diff_symbol].
  pose proof float_0_1_above as F.
  destruct (percentage_diff_pos lo hi pct P (lowest_le_highest _ _ _ Hlo Hhi))
    as [H0 Hlt]; [lra|].
  split; [exact H0|]. split; [exact Hlt|].
  split; [apply DecimalFacts.round_ctx_pos; lra|].
  exists price_list. split; [exact Hin|]. split; [exact L|].
  apply lowest_highest_bounds; assumption.
Qed.

Lemma X14_report_rows_witness :
  exists report,
    MarketData.get_price_differences example_spread = Ok report /\
    Forall (fun row =>
              0 < MarketData.lowest_price row /\
              MarketData.lowest_price row < MarketData.highest_price row /\
              0 < MarketData.difference row /\
              exists price_list,
                (MarketData.diff_symbol row, price_list) ∈ example_spread /\
                (2 <= length price_list)%nat /\
                Forall (fun q => MarketData.lowest_price row <= MarketData.price q
                                 /\ MarketData.price q <= MarketData.highest_price row)
                       price_list)
           report.
Proof.
  assert (H : exists report,
             MarketData.get_price_differences example_spread = Ok report)
    by (eexists; vm_compute; reflexivity).
  destruct H as [report H]. exists report. split; [exact H|].
  exact (X14_report_rows example_spread report H).
Defined.


(** ** Slippage *)

Lemma add_times_S (c : Q) (n : nat) (t : Q) :
  add_times c (S n) t = add_times c n (Decimal.add t c).
Proof.
  unfold add_times. induction n as [|n IH]; [reflexivity|].
  change (Nat.iter (S (S n)) ?f t) with (f (Nat.iter (S n) f t)).
  rewrite IH. reflexivity.
Qed.

Lemma add_times_mono (c : Q) (n : nat) (t t' : Q) :
  t <= t' -> add_times c n t <= add_times c n t'.
Proof.
  intros H. unfold add_times. induction n as [|n IH]; [exact H|].
  change (Nat.iter (S n) ?f ?x) with (f (Nat.iter n f x)). cbv beta.
  apply DecimalFacts.round_ctx_mono. lra.
Qed.

Lemma add_times_exact (c : Q) (n : nat) :
  exact_multiples c n -> add_times c n 0 == inject_Z (Z.of_nat n) * c.
Proof.
  intros H. induction n as [|n IH].
  - simpl. ring.
  - assert (IH' := IH (fun j Hj => H j (Nat.le_trans _ _ _ Hj (Nat.le_succ_diag_r n)))).
    unfold add_times in *.
    change (Nat.iter (S n) ?f 0) with (f (Nat.iter n f 0)). cbv beta.
    unfold Decimal.add at 1.
    rewrite (DecimalFacts.round_ctx_comp _ _ (Qplus_comp _ _ IH' _ _ (Qeq_refl _))).
    assert (E : inject_Z (Z.of_nat n) * c + c == inject_Z (Z.of_nat (S n)) * c).
    { rewrite Nat2Z.inj_succ. unfold Z.succ. rewrite inject_Z_plus.
      change (inject_Z 1) with 1. ring. }
    rewrite E. apply DecimalFacts.round_ctx_exact. apply H. lia.
Qed.

Lemma single_swap_slippage_ok (self : Optimizer.ArbitrageOptimizer) (amount s : Q)
  (pool : Optimizer.PoolInfo) :
  Optimizer._calculate_single_swap_slippage self amount pool = Ok s ->
  ~ Optimizer.liquidity pool == 0 /\
  s = Decimal.min
        (Decimal.mul (Decimal.round_ctx (amount / Optimizer.liquidity pool)) 0.1)
        (Optimizer.max_slippage self).
Proof.
  unfold Optimizer._calculate_single_swap_slippage.
  destruct (Decimal.div amount (Optimizer.liquidity pool)) as [ratio|] eqn:D;
    cbn [mbind result_bind]; [|discriminate].
  apply div_ok in D as [NZ ->]. intros [= <-]. split; [exact NZ | reflexivity].
Qed.

(** The total after the hops is at most as many additions of the cap as
    the path has hops. *)
Lemma slippage_hops_bound (self : Optimizer.ArbitrageOptimizer)
  (pools : list Optimizer.PoolInfo) (amount : Q) (path : list string) :
  0 <= Optimizer.max_slippage self ->
  forall total out,
    Decimal.representable total ->
    Optimizer.slippage_hops self path pools amount total = Ok out ->
    out <= add_times (Optimizer.max_slippage self) (length (hops path)) total.
Proof.
  intros Hm. induction path as [|from_token path IH]; intros total out Hrep.
  { simpl. intros [= <-]. apply Qle_refl. }
  destruct path as [|to_token path].
  { simpl. intros [= <-]. apply Qle_refl. }
  cbn [Optimizer.slippage_hops].
  change (hops (from_token :: to_token :: path))
    with ((from_token, to_token) :: hops (to_token :: path)).
  cbn [length]. rewrite add_times_S.
  destruct (Optimizer._find_best_pool from_token to_token pools) as [[pool|]|];
    cbn [mbind result_bind]; [| |discriminate].
  - destruct (Optimizer._calculate_single_swap_slippage self amount pool)
      as [s|] eqn:S; cbn [mbind result_bind]; [|discriminate].
    apply single_swap_slippage_ok in S as [_ ->]. intros H.
    apply IH in H; [|apply DecimalFacts.round_ctx_representable].
    eapply Qle_trans; [exact H|]. apply add_times_mono.
    apply DecimalFacts.round_ctx_mono.
    pose proof (min_spec
                  (Decimal.mul
                     (Decimal.round_ctx (amount / Optimizer.liquidity pool)) 0.1)
                  (Optimizer.max_slippage self)) as (_ & M & _).
    lra.
  - intros H. apply IH in H; [|exact Hrep].
    eapply Qle_trans; [exact H|]. apply add_times_mono.
    rewrite <- (DecimalFacts.round_ctx_exact total Hrep) at 1.
    apply DecimalFacts.round_ctx_mono. lra.
Qed.

Lemma default_exact_multiples (c : Q) (n : nat) :
  c == 0.02 -> (Z.of_nat n < 10 ^ 27)%Z -> exact_multiples c n.
Proof.
  intros Hc Hn j Hj. exists (2 * Z.of_nat j)%Z, (-2)%Z. split.
  - unfold Decimal.prec. lia.
  - rewrite Hc, inject_Z_mult. change (inject_Z 2) with 2.
    change (10 ^ (-2)) with (1 # 100). field.
Qed.


(** X17. The slippage impact of a direct route is zero, whatever the
    pools.  That of any route is at most the cap [max_slippage] times the
    number of hops of its path, when the cap is not negative and adds up
    without rounding, as the default 0.02 does. *)
Theorem X17_slippage_impact_bound (self : Optimizer.ArbitrageOptimizer)
  (route : Optimizer.Route) (pools : list Optimizer.PoolInfo) (total : Q) :
  Optimizer.calculate_slippage_impact self route pools = Ok total ->
  (Optimizer.type route = Optimizer.direct -> total = 0) /\
  (0 <= Optimizer.max_slippage self ->
   exact_multiples (Optimizer.max_slippage self)
                   (length (hops (Optimizer.path route))) ->
   total <= inject_Z (Z.of_nat (length (hops (Optimizer.path route))))
            * Optimizer.max_slippage self).
Proof.
  unfold Optimizer.calculate_slippage_impact. intros H.
  destruct (Optimizer.type route).
  - injection H as <-. split; [reflexivity|]. intros Hm Hex.
    apply Qmult_le_0_compat; [|exact Hm].
    change 0 with (inject_Z 0). rewrite <- Zle_Qle. lia.
  - split; [discriminate|]. intros Hm Hex.
    rewrite <- (add_times_exact _ _ Hex).
    apply (slippage_hops_bound self pools (Optimizer.amount route)
             (Optimizer.path route) Hm 0 total); [|exact H].
    exists 0%Z, 0%Z. split; [reflexivity | reflexivity].
Qed.

Lemma X17_slippage_impact_bound_witness :
  exists total,
    Optimizer.calculate_slippage_impact Optimizer.__init__ example_route example_pools
    = Ok total /\
    (Optimizer.type example_route = Optimizer.direct -> total = 0) /\
    total <= inject_Z (Z.of_nat (length (hops (Optimizer.path example_route))))
             * Optimizer.max_slippage Optimizer.__init__.
Proof.
  assert (H : exists total,
             Optimizer.calculate_slippage_impact Optimizer.__init__ example_route
               example_pools = Ok total) by (eexists; vm_compute; reflexivity).
  destruct H as [total H]. exists total. split; [exact H|].
  destruct (X17_slippage_impact_bound Optimizer.__init__ example_route
              example_pools total H) as [Hdirect Hbound].
  split; [exact Hdirect|]. apply Hbound.
  - discriminate.
  - apply default_exact_multiples; [reflexivity | reflexivity].
Defined.

(** ** [_find_triangular_arbitrage] *)

(** A loop whose steps extend a list: the elements it adds are those of
    its steps. *)
Lemma for_each_extend {A B : Type} (body : list B -> A -> result (list B))
  (R : A -> B -> Prop) :
  (forall acc x out,
     body acc x = Ok out ->
     exists new, out = acc ++ new /\ forall b, b ∈ new <-> R x b) ->
  forall l acc out,
    for_each body l acc = Ok out ->
    exists new, out = acc ++ new /\ forall b, b ∈ new <-> exists x, x ∈ l /\ R x b.
Proof.
  intros Hstep. induction l as [|x l IH]; intros acc out; cbn [for_each].
  - intros [= <-]. exists []. rewrite app_nil_r. split; [reflexivity|].
    intros b. split; [intros H; inversion H | intros (x & H & _); inversion H].
  - destruct (body acc x) as [acc'|] eqn:E; cbn [mbind result_bind]; [|discriminate].
    intros H. apply Hstep in E as (new1 & -> & H1).
    apply IH in H as (new2 & -> & H2).
    exists (new1 ++ new2). rewrite app_assoc. split; [reflexivity|].
    intros b. rewrite elem_of_app, H1, H2. split.
    + intros [Hx|(y & Hy & Ry)].
      * exists x. split; [apply list_elem_of_here | exact Hx].
      * exists y. split; [apply list_elem_of_further; exact Hy | exact Ry].
    + intros (y & Hy & Ry). apply elem_of_cons in Hy as [->|Hy].
      * left. exact Ry.
      * right. exists y. split; assumption.
Qed.

Lemma analysis_amount (self : Optimizer.ArbitrageOptimizer)
  (pools : list Optimizer.PoolInfo) (path : list string)
  (analysis : Optimizer.ProfitAnalysis) :
  Optimizer._analyze_triangular_profit self path pools = Ok analysis ->
  Optimizer.optimal_amount analysis ∈ Optimizer.test_amounts.
Proof.
  intros H. apply analyze_sweep in H as (n1 & n2 & n3 & n4 & _ & _ & _ & _ & E).
  unfold sweep_result in E.
  destruct (keep_best_fold [(100, n1); (1000, n2); (10000, n3); (100000, n4)]
              (0, 1000)) as (_ & _ & [K|(cand & Hc & K & _)]);
    rewrite K in E; injection E as _ ->.
  - unfold Optimizer.test_amounts. set_solver.
  - unfold Optimizer.test_amounts.
    repeat (apply elem_of_cons in Hc as [->|Hc]); [set_solver.. | inversion Hc].
Qed.

Lemma analysis_gas_cost (self : Optimizer.ArbitrageOptimizer)
  (pools : list Optimizer.PoolInfo) (path : list string)
  (analysis : Optimizer.ProfitAnalysis) :
  Optimizer._analyze_triangular_profit self path pools = Ok analysis ->
  Optimizer.gas_cost analysis
  = Decimal.mul (inject_Z (Z.of_nat (length path) - 1))
                (Optimizer.gas_price_estimate self).
Proof.
  unfold Optimizer._analyze_triangular_profit.
  destruct (for_each _ Optimizer.test_amounts (0, 1000)) as [[bp ba]|];
    cbn [mbind result_bind]; [|discriminate].
  destruct (Optimizer._calculate_confidence path pools);
    cbn [mbind result_bind]; [|discriminate].
  intros [= <-]. reflexivity.
Qed.

Section Triangular.
Context (confidence_value : list string -> list Optimizer.PoolInfo -> Q -> Q).
Context (self : Optimizer.ArbitrageOptimizer) (pools : list Optimizer.PoolInfo).

Lemma triangular_path_step_ok (base_token : string)
  (routes out : list Optimizer.Route) (path : list string) :
  Optimizer.triangular_path_step confidence_value self pools base_token routes path
  = Ok out ->
  exists new,
    out = routes ++ new /\
    forall r, r ∈ new
              <-> triangular_route_of confidence_value self pools base_token path r.
Proof.
  unfold Optimizer.triangular_path_step, triangular_route_of.
  destruct (Optimizer._analyze_triangular_profit self path pools) as [analysis|];
    cbn [mbind result_bind]; [|discriminate].
  destruct (Decimal.gtb _ _) eqn:G; intros [= <-].
  - apply gtb_gt in G. eexists. split; [reflexivity|]. intros r.
    rewrite list_elem_of_singleton. split.
    + intros ->. exists analysis. repeat split. exact G.
    + intros (analysis' & [= <-] & _ & ->). reflexivity.
  - apply gtb_le in G. exists []. rewrite app_nil_r. split; [reflexivity|].
    intros r. split; [intros H; inversion H|].
    intros (analysis' & [= <-] & Hgt & _). lra.
Qed.

Lemma find_triangular_paths_no_pools (base_token : string)
  (token_pools : gmap string (list Optimizer.PoolInfo)) :
  token_pools !! base_token = None ->
  Optimizer._find_triangular_paths base_token token_pools = [].
Proof.
  intros H. unfold Optimizer._find_triangular_paths, Optimizer.connected_tokens.
  rewrite H. cbn [default foldl]. rewrite elements_empty. reflexivity.
Qed.

Lemma base_token_step_ok (token_pools : gmap string (list Optimizer.PoolInfo))
  (routes out : list Optimizer.Route) (base_token : string) :
  Optimizer.base_token_step confidence_value self pools token_pools routes base_token
  = Ok out ->
  exists new,
    out = routes ++ new /\
    forall r,
      r ∈ new <->
      exists path,
        path ∈ Optimizer._find_triangular_paths base_token token_pools /\
        triangular_route_of confidence_value self pools base_token path r.
Proof.
  unfold Optimizer.base_token_step.
  destruct (token_pools !! base_token) as [l|] eqn:E.
  - apply for_each_extend. intros acc x out'. apply triangular_path_step_ok.
  - intros [= <-]. exists []. rewrite app_nil_r. split; [reflexivity|].
    rewrite (find_triangular_paths_no_pools _ _ E).
    intros r. split; [intros H; inversion H | intros (p & H & _); inversion H].
Qed.

(** The routes of the triangular search are those of the triangles from
    the base tokens whose analysis shows a net profit above the
    threshold. *)
Lemma find_triangular_arbitrage_routes (routes : list Optimizer.Route)
  (r : Optimizer.Route) :
  Optimizer._find_triangular_arbitrage confidence_value self pools = Ok routes ->
  r ∈ routes <->
  exists base_token path,
    base_token ∈ Optimizer.base_tokens /\
    triangular_path pools base_token path /\
    triangular_route_of confidence_value self pools base_token path r.
Proof.
  unfold Optimizer._find_triangular_arbitrage. cbv zeta. intros H.
  apply (for_each_extend _ _
           (fun acc x out => base_token_step_ok (Optimizer.group_by_token pools)
                               acc out x)) in H as (new & -> & H).
  cbn [app]. rewrite H. split.
  - intros (base_token & Hb & path & Hp & Hr). exists base_token, path.
    split; [exact Hb|]. split; [|exact Hr].
    apply find_triangular_paths_iff. exact Hp.
  - intros (base_token & path & Hb & Hp & Hr). exists base_token.
    split; [exact Hb|]. exists path. split; [|exact Hr].
    apply find_triangular_paths_iff. exact Hp.
Qed.

(** On pools with positive reserves and fee rates in [0, 1) the search
    raises no exception. *)
Lemma find_triangular_arbitrage_returns :
  Forall well_formed pools ->
  exists routes,
    Optimizer._find_triangular_arbitrage confidence_value self pools = Ok routes.
Proof.
  intros Hwf. unfold Optimizer._find_triangular_arbitrage. cbv zeta.
  assert (P : forall base_token paths acc,
             exists out,
               for_each (Optimizer.triangular_path_step confidence_value self pools
                           base_token) paths acc = Ok out).
  { intros base_token. induction paths as [|path paths IH]; intros acc;
      cbn [for_each]; [eauto|].
    unfold Optimizer.triangular_path_step at 2.
    destruct (analyze_triangular_profit_returns self pools Hwf path) as [a ->].
    cbn [mbind result_bind]. destruct (Decimal.gtb _ _); cbn [mbind result_bind];
      apply IH. }
  generalize (@nil Optimizer.Route).
  induction Optimizer.base_tokens as [|base_token bases IH]; intros acc;
    cbn [for_each]; [eauto|].
  unfold Optimizer.base_token_step at 2.
  destruct (Optimizer.group_by_token pools !! base_token).
  - destruct (P base_token
                (Optimizer._find_triangular_paths base_token
                   (Optimizer.group_by_token pools)) acc) as [out ->].
    cbn [mbind result_bind]. apply IH.
  - cbn [mbind result_bind]. apply IH.
Qed.

End Triangular.

(** X18. Every route of the triangular search has type [triangular]; its
    pair names one of the base tokens SOL, USDC and USDT, its path is a
    triangle of the pool set from that token, its profit is above the
    threshold, its amount is one of the four candidate amounts, and its
    gas estimate is the cost of three transactions. *)
Theorem X18_triangular_routes_sound
  (confidence_value : list string -> list Optimizer.PoolInfo -> Q -> Q)
  (self : Optimizer.ArbitrageOptimizer) (pools : list Optimizer.PoolInfo)
  (routes : list Optimizer.Route) :
  Optimizer._find_triangular_arbitrage confidence_value self pools = Ok routes ->
  Forall (fun r =>
            Optimizer.type r = Optimizer.triangular /\
            (exists base_token,
               base_token ∈ Optimizer.base_tokens /\
               Optimizer.pair r = base_token +:+ "_TRIANGULAR" /\
               triangular_path pools base_token (Optimizer.path r)) /\
            Optimizer.min_profit_threshold self < Optimizer.profit r /\
            Optimizer.amount r ∈ Optimizer.test_amounts /\
            Optimizer.gas_estimate r
              = Decimal.mul 3 (Optimizer.gas_price_estimate self))
         routes.
Proof.
  intros H. apply Forall_forall. intros r Hr.
  apply (find_triangular_arbitrage_routes confidence_value self pools routes r H)
    in Hr as (base_token & path & Hb & Hp & analysis & Ha & Hgt & ->).
  cbn [triangular_route Optimizer.type Optimizer.pair Optimizer.path Optimizer.profit
       Optimizer.amount Optimizer.gas_estimate].
  split; [reflexivity|]. split; [exists base_token; repeat split; assumption|].
  split; [exact Hgt|]. split; [exact (analysis_amount self pools path analysis Ha)|].
  rewrite (analysis_gas_cost self pools path analysis Ha).
  destruct Hp as (token1 & token2 & -> & _). reflexivity.
Qed.

Lemma X18_triangular_routes_sound_witness :
  exists routes,
    Optimizer._find_triangular_arbitrage example_confidence Optimizer.__init__
      mispriced_pools = Ok routes /\
    (2 <= length routes)%nat /\
    Forall (fun r =>
              Optimizer.type r = Optimizer.triangular /\
              (exists base_token,
                 base_token ∈ Optimizer.base_tokens /\
                 Optimizer.pair r = base_token +:+ "_TRIANGULAR" /\
                 triangular_path mispriced_pools base_token (Optimizer.path r)) /\
              Optimizer.min_profit_threshold Optimizer.__init__ < Optimizer.profit r /\
              Optimizer.amount r ∈ Optimizer.test_amounts /\
              Optimizer.gas_estimate r
                = Decimal.mul 3 (Optimizer.gas_price_estimate Optimizer.__init__))
           routes.
Proof.
  assert (H : exists r1 r2,
             Optimizer._find_triangular_arbitrage example_confidence
               Optimizer.__init__ mispriced_pools = Ok [r1; r2])
    by (do 2 eexists; vm_compute; reflexivity).
  destruct H as (r1 & r2 & H). exists [r1; r2]. split; [exact H|].
  split; [simpl; lia|].
  exact (X18_triangular_routes_sound example_confidence Optimizer.__init__
           mispriced_pools [r1; r2] H).
Defined.

(** X19. The triangular search misses no route: when it returns, a route
    is in its result if and only if it is the route of a triangle of the
    pool set from a base token whose analysis shows a net profit above the
    threshold.  A base token without a pool is skipped, and has no
    triangle. *)
Theorem X19_triangular_routes_complete
  (confidence_value : list string -> list Optimizer.PoolInfo -> Q -> Q)
  (self : Optimizer.ArbitrageOptimizer) (pools : list Optimizer.PoolInfo)
  (routes : list Optimizer.Route) (r : Optimizer.Route) :
  Optimizer._find_triangular_arbitrage confidence_value self pools = Ok routes ->
  r ∈ routes <->
  exists base_token path,
    base_token ∈ Optimizer.base_tokens /\
    triangular_path pools base_token path /\
    triangular_route_of confidence_value self pools base_token path r.
Proof. apply find_triangular_arbitrage_routes. Qed.

Lemma X19_triangular_routes_complete_witness :
  exists r1 r2,
    Optimizer._find_triangular_arbitrage example_confidence Optimizer.__init__
      mispriced_pools = Ok [r1; r2] /\
    (r1 ∈ [r1; r2] <->
     exists base_token path,
       base_token ∈ Optimizer.base_tokens /\
       triangular_path mispriced_pools base_token path /\
       triangular_route_of example_confidence Optimizer.__init__ mispriced_pools
         base_token path r1).
Proof.
  assert (H : exists r1 r2,
             Optimizer._find_triangular_arbitrage example_confidence
               Optimizer.__init__ mispriced_pools = Ok [r1; r2])
    by (do 2 eexists; vm_compute; reflexivity).
  destruct H as (r1 & r2 & H). exists r1, r2. split; [exact H|].
  exact (X19_triangular_routes_complete example_confidence Optimizer.__init__
           mispriced_pools [r1; r2] r1 H).
Defined.

(** X20. When the pool set has no triangle from a base token, the
    triangular search returns no route and runs no analysis: it raises no
    exception, whatever the reserves of the pools. *)
Theorem X20_no_triangle_no_route
  (confidence_value : list string -> list Optimizer.PoolInfo -> Q -> Q)
  (self : Optimizer.ArbitrageOptimizer) (pools : list Optimizer.PoolInfo) :
  (forall base_token path,
     base_token ∈ Optimizer.base_tokens -> ~ triangular_path pools base_token path) ->
  Optimizer._find_triangular_arbitrage confidence_value self pools = Ok [].
Proof.
  intros H. unfold Optimizer._find_triangular_arbitrage. cbv zeta.
  apply for_each_skip. intros base_token s' Hb. unfold Optimizer.base_token_step.
  destruct (Optimizer.group_by_token pools !! base_token); [|reflexivity].
  destruct (Optimizer._find_triangular_paths base_token
              (Optimizer.group_by_token pools)) as [|path paths] eqn:E;
    [reflexivity|].
  exfalso. apply (H base_token path Hb). apply find_triangular_paths_iff.
  rewrite E. apply list_elem_of_here.
Qed.

Lemma X20_no_triangle_no_route_witness :
  Optimizer._find_triangular_arbitrage example_confidence Optimizer.__init__
    [pool_with 0 0 0.003] = Ok [].
Proof.
  apply (X20_no_triangle_no_route example_confidence Optimizer.__init__
           [pool_with 0 0 0.003]).
  intros base_token path Hb Hp. apply find_triangular_paths_iff in Hp.
  unfold Optimizer.base_tokens in Hb.
  apply elem_of_cons in Hb as [->|Hb]; [vm_compute in Hp; inversion Hp|].
  apply elem_of_cons in Hb as [->|Hb]; [vm_compute in Hp; inversion Hp|].
  apply elem_of_cons in Hb as [->|Hb]; [vm_compute in Hp; inversion Hp|].
  inversion Hb.
Defined.



(** ** [find_profitable_routes] *)

Lemma sort_reverse_sorted_id {A : Type} (key : A -> Q) (l : list A) :
  StronglySorted (descending_by key) l -> sort_reverse key l = l.
Proof.
  induction 1 as [|x l Hs IH Hx]; [reflexivity|].
  cbn [sort_reverse foldr]. fold (sort_reverse key l). rewrite IH.
  destruct l as [|y l]; [reflexivity|]. cbn [insert_by_desc].
  apply Forall_cons in Hx as [Hy _]. unfold descending_by in Hy.
  apply gtb_le in Hy. rewrite Hy. reflexivity.
Qed.

Lemma filter_all {A : Type} (P : A -> Prop) `{!forall x, Decision (P x)}
  (l : list A) : Forall P l -> filter P l = l.
Proof.
  induction 1 as [|x l Hx Hl IH]; [reflexivity|].
  rewrite filter_cons_True by exact Hx. rewrite IH. reflexivity.
Qed.

(** Ranking routes that are all above the threshold sorts and truncates
    them. *)
Lemma filter_profitable_routes_all (self : Optimizer.ArbitrageOptimizer)
  (routes : list Optimizer.Route) :
  Forall (fun r => Optimizer.min_profit_threshold self < Optimizer.profit r) routes ->
  Optimizer._filter_profitable_routes self routes
  = take 10 (sort_reverse Optimizer.profit routes).
Proof.
  intros H. unfold Optimizer._filter_profitable_routes. cbv zeta.
  rewrite filter_all; [reflexivity|].
  eapply Forall_impl; [exact H|]. cbv beta. intros r Hr. apply gtb_gt. exact Hr.
Qed.

Lemma filter_profitable_routes_above (self : Optimizer.ArbitrageOptimizer)
  (routes : list Optimizer.Route) :
  Forall (fun r => Optimizer.min_profit_threshold self < Optimizer.profit r)
         (Optimizer._filter_profitable_routes self routes).
Proof.
  unfold Optimizer._filter_profitable_routes. cbv zeta.
  apply Forall_take. rewrite (sort_reverse_perm Optimizer.profit).
  apply Forall_forall. intros r Hr.
  apply list_elem_of_filter in Hr as [Hr _]. apply gtb_gt in Hr. exact Hr.
Qed.

Lemma filter_profitable_routes_sorted (self : Optimizer.ArbitrageOptimizer)
  (routes : list Optimizer.Route) :
  StronglySorted (descending_by Optimizer.profit)
                 (Optimizer._filter_profitable_routes self routes).
Proof.
  unfold Optimizer._filter_profitable_routes. cbv zeta.
  apply StronglySorted_take. apply (sort_reverse_sorted Optimizer.profit).
Qed.

Lemma find_profitable_routes_ok
  (confidence_value : list string -> list Optimizer.PoolInfo -> Q -> Q)
  (self : Optimizer.ArbitrageOptimizer) (market_data : MarketData.snapshot)
  (out : list Optimizer.Route) :
  Optimizer.find_profitable_routes confidence_value self market_data = Ok out ->
  exists pools triangular_routes direct_routes,
    Optimizer._convert_to_pools market_data = Ok pools /\
    Optimizer._find_triangular_arbitrage confidence_value self pools
      = Ok triangular_routes /\
    Optimizer._find_direct_arbitrage self market_data = Ok direct_routes /\
    out = Optimizer._filter_profitable_routes self
            (triangular_routes ++ direct_routes).
Proof.
  unfold Optimizer.find_profitable_routes.
  destruct (Optimizer._convert_to_pools market_data) as [pools|] eqn:Hp;
    cbn [mbind result_bind]; [|discriminate].
  destruct (Optimizer._find_triangular_arbitrage confidence_value self pools)
    as [tri|] eqn:Ht; cbn [mbind result_bind]; [|discriminate].
  destruct (Optimizer._find_direct_arbitrage self market_data) as [dir|] eqn:Hd;
    cbn [mbind result_bind]; [|discriminate].
  cbv zeta. cbn [app]. intros [= <-]. exists pools, tri, dir.
  split; [reflexivity|]. split; [exact Ht|]. split; reflexivity.
Qed.

Lemma triangular_routes_above
  (confidence_value : list string -> list Optimizer.PoolInfo -> Q -> Q)
  (self : Optimizer.ArbitrageOptimizer) (pools : list Optimizer.PoolInfo)
  (routes : list Optimizer.Route) :
  Optimizer._find_triangular_arbitrage confidence_value self pools = Ok routes ->
  Forall (fun r => Optimizer.min_profit_threshold self < Optimizer.profit r) routes.
Proof.
  intros H. apply Forall_forall. intros r Hr.
  apply (find_triangular_arbitrage_routes confidence_value self pools routes r H)
    in Hr as (base_token & path & _ & _ & analysis & _ & Hgt & ->).
  exact Hgt.
Qed.

Lemma direct_routes_above (self : Optimizer.ArbitrageOptimizer)
  (market_data : MarketData.snapshot) (routes : list Optimizer.Route) :
  Optimizer._find_direct_arbitrage self market_data = Ok routes ->
  Forall (fun r => Optimizer.min_profit_threshold self < Optimizer.profit r) routes.
Proof.
  intros H. apply find_direct_arbitrage_routes in H as [H _].
  eapply Forall_impl; [exact H|]. cbv beta.
  intros r (item & _ & lo & hi & pct & amt & _ & _ & _ & _ & _ & _ & _ & Hgt).
  exact Hgt.
Qed.

Lemma quotes_to_convert_elem (market_data : MarketData.snapshot)
  (item : string * MarketData.PriceData) :
  item ∈ quotes_to_convert market_data ->
  exists price_list,
    (item.1, price_list) ∈ market_data /\ item.2 ∈ price_list /\
    contains "/" item.1 = true.
Proof.
  unfold quotes_to_convert. intros H.
  apply list_elem_of_bind in H as ([sym price_list] & H & Hin).
  destruct (contains "/" sym) eqn:C; [|inversion H].
  apply list_elem_of_fmap in H as (q & -> & Hq).
  exists price_list. cbn [fst snd]. repeat split; assumption.
Qed.

Lemma sane_snapshot_pools (market_data : MarketData.snapshot) :
  sane_snapshot market_data ->
  exists pools,
    Optimizer._convert_to_pools market_data = Ok pools /\ Forall well_formed pools.
Proof.
  intros Hs. unfold sane_snapshot in Hs. rewrite Forall_forall in Hs.
  assert (Hq : Forall (fun item => two_tokens item.1 /\ 0 < MarketData.price item.2
                                   /\ 0 < MarketData.liquidity item.2)
                      (quotes_to_convert market_data)).
  { apply Forall_forall. intros item Hin.
    apply quotes_to_convert_elem in Hin as (price_list & Hin & Hq & C).
    destruct (Hs _ Hin) as [Hall Htwo]. cbn [fst snd] in *.
    rewrite Forall_forall in Hall. destruct (Hall _ Hq) as [Hp Hl].
    split; [exact (Htwo C) | split; assumption]. }
  destruct (convert_to_pools_total market_data) as [pools Hpools].
  { eapply Forall_impl; [exact Hq|]. cbv beta. intros item (H2 & Hp & _).
    split; [exact H2 | lra]. }
  exists pools. split; [exact Hpools|].
  apply convert_to_pools_ok in Hpools.
  revert Hq. induction Hpools as [|item pool items pools Hp _ IH]; intros Hq;
    [constructor|].
  apply Forall_cons in Hq as [(_ & Hprice & Hliq) Hq].
  constructor; [|exact (IH Hq)].
  destruct Hp as (_ & _ & Ha & Hb & Hf & _).
  apply div_ok in Ha as [_ Ha]. apply div_ok in Hb as [_ Hb].
  unfold well_formed. rewrite Ha, Hb, Hf.
  assert (H2 : 0 < Decimal.mul 2 (MarketData.price item.2))
    by (apply mul_pos; [reflexivity | exact Hprice]).
  split; [apply DecimalFacts.round_ctx_pos; apply Qlt_shift_div_l; lra|].
  split; [apply DecimalFacts.round_ctx_pos; apply Qlt_shift_div_l; lra|].
  split; [discriminate | reflexivity].
Qed.

Lemma sane_snapshot_direct (self : Optimizer.ArbitrageOptimizer)
  (market_data : MarketData.snapshot) :
  sane_snapshot market_data ->
  exists routes, Optimizer._find_direct_arbitrage self market_data = Ok routes.
Proof.
  intros Hs.
  destruct (Optimizer._find_direct_arbitrage self market_data) as [routes|e] eqn:E;
    [eauto|].
  exfalso.
  destruct (proj1 (find_direct_arbitrage_raises self market_data))
    as ([sym price_list] & Hin & _ & lo & Hlo & Z); [eauto|].
  unfold sane_snapshot in Hs. rewrite Forall_forall in Hs.
  destruct (Hs _ Hin) as [Hall _]. cbn [fst snd] in *.
  rewrite Forall_forall in Hall. apply lowest_elem in Hlo.
  destruct (Hall _ Hlo) as [Hp _]. lra.
Qed.

(** X22. When [find_profitable_routes] returns, its result is the routes
    of the triangular and of the direct search, sorted by descending profit
    and cut to ten: its last filter removes nothing, as both searches keep
    only routes above the threshold. *)
Theorem X22_profitable_routes_ranked
  (confidence_value : list string -> list Optimizer.PoolInfo -> Q -> Q)
  (self : Optimizer.ArbitrageOptimizer) (market_data : MarketData.snapshot)
  (out : list Optimizer.Route) :
  Optimizer.find_profitable_routes confidence_value self market_data = Ok out ->
  exists pools triangular_routes direct_routes,
    Optimizer._convert_to_pools market_data = Ok pools /\
    Optimizer._find_triangular_arbitrage confidence_value self pools
      = Ok triangular_routes /\
    Optimizer._find_direct_arbitrage self market_data = Ok direct_routes /\
    out = take 10 (sort_reverse Optimizer.profit (triangular_routes ++ direct_routes)) /\
    length out = Nat.min 10 (length triangular_routes + length direct_routes).
Proof.
  intros H. apply find_profitable_routes_ok in H as (pools & tri & dir & Hp & Ht & Hd & ->).
  exists pools, tri, dir. split; [exact Hp|]. split; [exact Ht|]. split; [exact Hd|].
  rewrite filter_profitable_routes_all.
  - split; [reflexivity|].
    rewrite length_take, (Permutation_length (sort_reverse_perm Optimizer.profit _)),
      length_app. reflexivity.
  - apply Forall_app. split.
    + exact (triangular_routes_above confidence_value self pools tri Ht).
    + exact (direct_routes_above self market_data dir Hd).
Qed.

Lemma X22_profitable_routes_ranked_witness :
  exists out pools triangular_routes direct_routes,
    Optimizer.find_profitable_routes example_confidence Optimizer.__init__
      example_mispriced = Ok out /\
    Optimizer._convert_to_pools example_mispriced = Ok pools /\
    Optimizer._find_triangular_arbitrage example_confidence Optimizer.__init__ pools
      = Ok triangular_routes /\
    Optimizer._find_direct_arbitrage Optimizer.__init__ example_mispriced
      = Ok direct_routes /\
    out = take 10 (sort_reverse Optimizer.profit (triangular_routes ++ direct_routes)) /\
    length out = Nat.min 10 (length triangular_routes + length direct_routes).
Proof.
  assert (H : exists out,
             Optimizer.find_profitable_routes example_confidence Optimizer.__init__
               example_mispriced = Ok out) by (eexists; vm_compute; reflexivity).
  destruct H as [out H]. exists out.
  destruct (X22_profitable_routes_ranked example_confidence Optimizer.__init__
              example_mispriced out H) as (pools & tri & dir & R).
  exists pools, tri, dir. split; [exact H | exact R].
Defined.

(** X23. Ranking is idempotent: ranking a ranked list of routes returns it
    unchanged. *)
Theorem X23_filter_profitable_routes_idempotent (self : Optimizer.ArbitrageOptimizer)
  (routes : list Optimizer.Route) :
  Optimizer._filter_profitable_routes self
    (Optimizer._filter_profitable_routes self routes)
  = Optimizer._filter_profitable_routes self routes.
Proof.
  rewrite filter_profitable_routes_all by apply filter_profitable_routes_above.
  rewrite sort_reverse_sorted_id by apply filter_profitable_routes_sorted.
  unfold Optimizer._filter_profitable_routes. cbv zeta.
  rewrite take_take. f_equal.
Qed.

(** X24. A quote with a price of zero under a symbol with the separator
    makes [find_profitable_routes] raise: no route is returned, for any
    symbol. *)
Theorem X24_zero_price_no_routes
  (confidence_value : list string -> list Optimizer.PoolInfo -> Q -> Q)
  (self : Optimizer.ArbitrageOptimizer) (market_data : MarketData.snapshot) :
  Exists (fun item => MarketData.price item.2 == 0) (quotes_to_convert market_data) ->
  exists e,
    Optimizer.find_profitable_routes confidence_value self market_data = Raise e.
Proof.
  intros H. apply convert_to_pools_zero_price in H as [e H].
  exists e. unfold Optimizer.find_profitable_routes. rewrite H. reflexivity.
Qed.

Lemma X24_zero_price_no_routes_witness :
  exists e,
    Optimizer.find_profitable_routes example_confidence Optimizer.__init__
      (example_spread ++ [("RAY/USDC", [quote "RAY/USDC" 0 500000 "Jupiter"])])
    = Raise e.
Proof.
  apply (X24_zero_price_no_routes example_confidence Optimizer.__init__
           (example_spread ++ [("RAY/USDC", [quote "RAY/USDC" 0 500000 "Jupiter"])])).
  apply Exists_exists. exists ("RAY/USDC", quote "RAY/USDC" 0 500000 "Jupiter").
  split; [vm_compute; set_solver | reflexivity].
Defined.



(** ** [transactions.py]: fees and program ids *)

Lemma micro_representable (n : Z) :
  (Z.abs n < 10 ^ 28)%Z -> Decimal.representable (0.000001 * inject_Z n).
Proof.
  intros H. exists n, (-6)%Z. split; [exact H|].
  change (10 ^ (-6)) with (1 # 1000000). ring.
Qed.

(** X26. For any number of instructions a 28-digit decimal can count, the
    fee estimate is exactly 0.000005 plus 0.000001 per instruction: no
    rounding occurs. *)
Theorem X26_fee_estimate_exact {A : Type} (instructions : list A) :
  (Z.of_nat (length instructions) + 5 < 10 ^ 28)%Z ->
  Transactions.get_transaction_fee_estimate instructions
  == 0.000005 + 0.000001 * inject_Z (Z.of_nat (length instructions)).
Proof.
  intros H. unfold Transactions.get_transaction_fee_estimate. cbv zeta.
  set (n := Z.of_nat (length instructions)) in *.
  assert (Hn : (0 <= n)%Z) by (unfold n; lia).
  unfold Decimal.add, Decimal.mul.
  assert (E1 : Decimal.round_ctx (0.000001 * inject_Z n) == 0.000001 * inject_Z n).
  { apply DecimalFacts.round_ctx_exact. apply micro_representable. lia. }
  rewrite (DecimalFacts.round_ctx_comp _ _ (Qplus_comp _ _ (Qeq_refl _) _ _ E1)).
  assert (E2 : 0.000005 + 0.000001 * inject_Z n == 0.000001 * inject_Z (n + 5)).
  { rewrite inject_Z_plus. change (inject_Z 5) with 5. ring. }
  rewrite E2. apply DecimalFacts.round_ctx_exact. apply micro_representable. lia.
Qed.

Lemma X26_fee_estimate_exact_witness :
  Transactions.get_transaction_fee_estimate ["borrow"; "swap"; "repay"] == 0.000008.
Proof.
  assert (H : (Z.of_nat (length ["borrow"; "swap"; "repay"]) + 5 < 10 ^ 28)%Z)
    by reflexivity.
  rewrite (X26_fee_estimate_exact ["borrow"; "swap"; "repay"] H). reflexivity.
Defined.

(** X27. A name that is not a key of the table is no error: the lookups
    fall back to the first entry.  A name that is none of [orca], [serum],
    [mango] and [port], such as a venue name with a capital, gets the
    program of Raydium as a DEX and that of Solend as a lending protocol. *)
Theorem X27_program_id_fallback (name : string) :
  name ∉ ["orca"; "serum"; "mango"; "port"] ->
  Transactions._get_dex_program_id name
  = "675kPX9MHTjS2zt1qfr1NYHuzeLXfQM9H24wFSUt1Mp8" /\
  Transactions._get_lending_program_id name
  = "So1endDq2YkqhipRh3WViPa8hdiSpxWy6z3Z6tMCpAo".
Proof.
  intros H.
  assert (H1 : name <> "orca") by (intros ->; apply H; set_solver).
  assert (H2 : name <> "serum") by (intros ->; apply H; set_solver).
  assert (H3 : name <> "mango") by (intros ->; apply H; set_solver).
  assert (H4 : name <> "port") by (intros ->; apply H; set_solver).
  split.
  - unfold Transactions._get_dex_program_id, Transactions.dex_program_ids.
    destruct (decide (name = "raydium")) as [->|H0]; [reflexivity|].
    rewrite lookup_insert_ne by congruence.
    rewrite lookup_insert_ne by congruence.
    rewrite lookup_singleton_ne by congruence. reflexivity.
  - unfold Transactions._get_lending_program_id, Transactions.lending_program_ids.
    destruct (decide (name = "solend")) as [->|H0]; [reflexivity|].
    rewrite lookup_insert_ne by congruence.
    rewrite lookup_insert_ne by congruence.
    rewrite lookup_singleton_ne by congruence. reflexivity.
Qed.

Lemma X27_program_id_fallback_witness :
  Transactions._get_dex_program_id "Orca"
  = "675kPX9MHTjS2zt1qfr1NYHuzeLXfQM9H24wFSUt1Mp8" /\
  Transactions._get_lending_program_id "Orca"
  = "So1endDq2YkqhipRh3WViPa8hdiSpxWy6z3Z6tMCpAo".
Proof.
  apply (X27_program_id_fallback "Orca").
  intros H. repeat (apply elem_of_cons in H as [H|H]; [discriminate|]).
  inversion H.
Defined.

(** ** [anchor_program.py]: the execution history *)

(** X28. For every limit, the execution history is the first [limit]
    entries of the five-entry history: it is empty for a limit of zero or
    less and never has more than five entries. *)
Theorem X28_execution_history_prefix (limit : Z) :
  AnchorProgram.get_execution_history limit
  = take (Z.to_nat limit) (AnchorProgram.get_execution_history 5) /\
  length (AnchorProgram.get_execution_history limit)
  = Nat.min (Z.to_nat limit) 5.
Proof.
  unfold AnchorProgram.get_execution_history, seqZ.
  rewrite Z2Nat.inj_min. change (Z.to_nat 5) with 5%nat.
  change (Z.to_nat (Z.min 5 5)) with 5%nat.
  destruct (Z.to_nat limit) as [|[|[|[|[|n]]]]]; try (split; reflexivity).
  replace (Nat.min (S (S (S (S (S n))))) 5) with 5%nat by lia.
  rewrite take_ge by (simpl; lia). split; reflexivity.
Qed.

(** ** [main.py]: the cycle *)

Lemma quotes_to_convert_intro (market_data : MarketData.snapshot) (sym : string)
  (q : MarketData.PriceData) :
  has_quote market_data sym q -> contains "/" sym = true ->
  (sym, q) ∈ quotes_to_convert market_data.
Proof.
  intros (price_list & Hin & Hq) C. unfold quotes_to_convert.
  apply list_elem_of_bind. exists (sym, price_list). split; [|exact Hin].
  rewrite C. apply list_elem_of_fmap. exists q. split; [reflexivity | exact Hq].
Qed.

Lemma opportunities_sorted (routes : list Optimizer.Route) :
  StronglySorted (descending_by Optimizer.profit) routes ->
  StronglySorted (descending_by Main.expected_profit) (Main.opportunity_of <$> routes).
Proof.
  induction 1 as [|r routes Hs IH Hr]; cbn [fmap list_fmap]; constructor.
  - exact IH.
  - apply Forall_fmap. eapply Forall_impl; [exact Hr|]. intros r' H. exact H.
Qed.

(** X29. The opportunity a cycle executes is the one built from the first
    route of [find_profitable_routes]: sorting the opportunities again
    changes nothing.  Its expected profit is above the threshold of the
    optimizer, and no other route of the scan has a higher profit. *)
Theorem X29_run_cycle_executes_best
  (confidence_value : list string -> list Optimizer.PoolInfo -> Q -> Q)
  (self : Main.ArbBot) (results : list (list (string * MarketData.PriceData)))
  (opportunity : Main.ArbitrageOpportunity) :
  Main.run_cycle confidence_value self results = Some opportunity ->
  exists r routes,
    Optimizer.find_profitable_routes confidence_value (Main.optimizer self)
      (MarketData.get_all_prices results) = Ok (r :: routes) /\
    opportunity = Main.opportunity_of r /\
    Optimizer.min_profit_threshold (Main.optimizer self)
      < Main.expected_profit opportunity /\
    Forall (fun r' => Optimizer.profit r' <= Main.expected_profit opportunity) routes.
Proof.
  unfold Main.run_cycle, Main.scan_opportunities. cbv zeta.
  destruct (Optimizer.find_profitable_routes confidence_value (Main.optimizer self)
              (MarketData.get_all_prices results)) as [out|] eqn:E; [|discriminate].
  pose proof E as E'.
  apply find_profitable_routes_ok in E' as (pools & tri & dir & _ & _ & _ & Hout).
  pose proof (filter_profitable_routes_above (Main.optimizer self) (tri ++ dir))
    as Habove.
  pose proof (filter_profitable_routes_sorted (Main.optimizer self) (tri ++ dir))
    as Hsorted.
  rewrite <- Hout in Habove, Hsorted. clear Hout.
  destruct out as [|r routes]; [discriminate|].
  rewrite (sort_reverse_sorted_id Main.expected_profit)
    by (apply opportunities_sorted; exact Hsorted).
  cbn [fmap list_fmap head]. intros [= <-]. exists r, routes.
  split; [reflexivity|]. split; [reflexivity|].
  apply Forall_cons in Habove as [Hr _].
  inversion Hsorted as [|? ? _ Hall]; subst. split; [exact Hr | exact Hall].
Qed.

Lemma X29_run_cycle_executes_best_witness :
  exists opportunity r routes,
    Main.run_cycle example_confidence {| Main.optimizer := Optimizer.__init__ |}
      mispriced_results
    = Some opportunity /\
    Optimizer.find_profitable_routes example_confidence Optimizer.__init__
      (MarketData.get_all_prices mispriced_results)
    = Ok (r :: routes) /\
    opportunity = Main.opportunity_of r /\
    Optimizer.min_profit_threshold Optimizer.__init__
      < Main.expected_profit opportunity /\
    Forall (fun r' => Optimizer.profit r' <= Main.expected_profit opportunity) routes.
Proof.
  assert (H : exists opportunity,
             Main.run_cycle example_confidence
               {| Main.optimizer := Optimizer.__init__ |} mispriced_results
             = Some opportunity) by (eexists; vm_compute; reflexivity).
  destruct H as [opportunity H]. exists opportunity.
  destruct (X29_run_cycle_executes_best example_confidence
              {| Main.optimizer := Optimizer.__init__ |} _ opportunity H)
    as (r & routes & R).
  exists r, routes. split; [exact H | exact R].
Defined.

(** X30. A quote with a price of zero under a symbol with the separator,
    from any venue, stops the cycle: the scan raises, the cycle catches the
    exception, and no opportunity is executed, whatever the other quotes. *)
Theorem X30_zero_price_stops_cycle
  (confidence_value : list string -> list Optimizer.PoolInfo -> Q -> Q)
  (self : Main.ArbBot) (results : list (list (string * MarketData.PriceData)))
  (result : list (string * MarketData.PriceData)) (sym : string)
  (q : MarketData.PriceData) :
  result ∈ results -> (sym, q) ∈ result ->
  contains "/" sym = true -> MarketData.price q == 0 ->
  Main.run_cycle confidence_value self results = None.
Proof.
  intros Hr Hq C Z. unfold Main.run_cycle, Main.scan_opportunities. cbv zeta.
  pose proof (get_all_prices_keeps results result sym q Hr Hq) as Hk.
  apply (quotes_to_convert_intro _ _ _ Hk) in C.
  assert (Hz : Exists (fun item => MarketData.price item.2 == 0)
                      (quotes_to_convert (MarketData.get_all_prices results))).
  { apply Exists_exists. exists (sym, q). split; [exact C | exact Z]. }
  apply convert_to_pools_zero_price in Hz as [e Hz].
  unfold Optimizer.find_profitable_routes. rewrite Hz. reflexivity.
Qed.

Lemma X30_zero_price_stops_cycle_witness :
  Main.run_cycle example_confidence {| Main.optimizer := Optimizer.__init__ |}
    [[("SOL/USDC", quote "SOL/USDC" 89.50 8000000 "Orca")];
     [("SOL/USDC", quote "SOL/USDC" 91 5000000 "Raydium");
      ("RAY/USDC", quote "RAY/USDC" 0 500000 "Raydium")]]
  = None.
Proof.
  apply (X30_zero_price_stops_cycle example_confidence
           {| Main.optimizer := Optimizer.__init__ |}
           [[("SOL/USDC", quote "SOL/USDC" 89.50 8000000 "Orca")];
            [("SOL/USDC", quote "SOL/USDC" 91 5000000 "Raydium");
             ("RAY/USDC", quote "RAY/USDC" 0 500000 "Raydium")]]
           [("SOL/USDC", quote "SOL/USDC" 91 5000000 "Raydium");
            ("RAY/USDC", quote "RAY/USDC" 0 500000 "Raydium")]
           "RAY/USDC" (quote "RAY/USDC" 0 500000 "Raydium")).
  - set_solver.
  - set_solver.
  - reflexivity.
  - reflexivity.
Defined.
